(** * Bub: the tape compiler and the tool registry

    A shallow embedding of [src/bub/tape/context.py] and
    [src/bub/tools/registry.py].

    Python objects live in a store: a dict or a list is a location, so that two
    names for one object see each other's writes.  Functions that read or
    write objects run in a state-and-exception monad over that store.

    The value universe is the one of a persisted tape: [None], booleans,
    integers, strings, lists and string-keyed dicts.  Floats and objects that
    [json] cannot serialise are outside it, so the [TypeError] fallbacks of
    the source ([str(result)], [repr(value)]) have no counterpart here.

    [json.dumps] and [json.loads] are modelled with the two limits of the
    interpreter that make them raise on data of this universe: the room on
    the stack for nested lists and dicts ([RecursionError]) and the longest
    integer that is converted to or from text ([ValueError]).  [str.casefold]
    is the interpreter's too; the program is verified for every interpreter,
    and the examples run on one.  The calls into the [republic] library
    that build a tool can raise as well. *)

From Stdlib Require Import String Ascii List ZArith Lia.
From Stdlib Require Import DecimalString DecimalPos DecimalFacts.
From Stdlib Require Import Sorted.
From stdpp Require Import base list strings gmap.

Open Scope string_scope.
Open Scope list_scope.
Open Scope nat_scope.

(* ================================================================== *)
(** * Part I: definitions *)
(* ================================================================== *)

(** ** Text *)

(** Python [str] values are [string]s; the [json] codec works on their
    character lists. *)
Definition chars (s : string) : list ascii := list_ascii_of_string s.

(** [sep.join(parts)] *)
Fixpoint str_join (sep : list ascii) (parts : list (list ascii)) : list ascii :=
  match parts with
  | [] => []
  | [p] => p
  | p :: ps => p ++ sep ++ str_join sep ps
  end.

Definition join_strings (sep : string) (parts : list string) : string :=
  string_of_list_ascii (str_join (chars sep) (map chars parts)).

(** [text.startswith(c)] and [text.endswith(c)] for a one-character [c]. *)
Definition startswith (text : string) (c : ascii) : bool :=
  match chars text with
  | x :: _ => Ascii.eqb x c
  | [] => false
  end.

Definition endswith (text : string) (c : ascii) : bool :=
  match rev (chars text) with
  | x :: _ => Ascii.eqb x c
  | [] => false
  end.

(** ASCII text: every character is below 128. *)
Fixpoint ascii_text (s : string) : bool :=
  match s with
  | EmptyString => true
  | String c r => (nat_of_ascii c <? 128) && ascii_text r
  end.

(** Lower-casing of ASCII text: what [str.casefold] does on it.  Other
    characters are kept. *)
Definition ascii_casefold_char (c : ascii) : ascii :=
  let n := nat_of_ascii c in
  if (65 <=? n) && (n <=? 90) then ascii_of_nat (n + 32) else c.

Fixpoint ascii_casefold (s : string) : string :=
  match s with
  | EmptyString => EmptyString
  | String c r => String (ascii_casefold_char c) (ascii_casefold r)
  end.

(** ** Values and the store *)

Abbreviation loc := nat.

Inductive val :=
| VNone
| VBool (b : bool)
| VInt (z : Z)
| VStr (s : string)
| VRef (l : loc).

Inductive obj :=
| ODict (kvs : list (string * val))
| OList (xs : list val).

(** The store: location [l] holds the [l]-th object; a new object is
    appended. *)
Abbreviation heap := (list obj).

(** A Python dict keeps one binding per key, in insertion order. *)
Fixpoint dict_get {V} (k : string) (d : list (string * V)) : option V :=
  match d with
  | [] => None
  | (k', v) :: d' => if String.eqb k k' then Some v else dict_get k d'
  end.

(** [d[k] = v]: overwrite in place, or append a new binding. *)
Fixpoint dict_set {V} (k : string) (v : V) (d : list (string * V)) : list (string * V) :=
  match d with
  | [] => [(k, v)]
  | (k', v') :: d' =>
    if String.eqb k k' then (k, v) :: d' else (k', v') :: dict_set k v d'
  end.

(** [d.update(other)] *)
Definition dict_update {V} (d other : list (string * V)) : list (string * V) :=
  fold_left (fun acc kv => dict_set (fst kv) (snd kv) acc) other d.

(** [isinstance(v, dict)], with the location and the bindings. *)
Definition as_dict (h : heap) (v : val) : option (loc * list (string * val)) :=
  match v with
  | VRef l => match h !! l with Some (ODict kvs) => Some (l, kvs) | _ => None end
  | _ => None
  end.

(** [isinstance(v, list)], with the items. *)
Definition as_list (h : heap) (v : val) : option (list val) :=
  match v with
  | VRef l => match h !! l with Some (OList xs) => Some xs | _ => None end
  | _ => None
  end.

(** A store is stratified when every object refers to older objects only.
    Data decoded from the log is built bottom-up and has this shape; it
    rules out reference cycles. *)
Definition val_below (n : nat) (v : val) : bool :=
  match v with
  | VRef l => l <? n
  | _ => true
  end.

Definition obj_below (n : nat) (o : obj) : bool :=
  match o with
  | ODict kvs => forallb (fun kv => val_below n (snd kv)) kvs
  | OList xs => forallb (val_below n) xs
  end.

Fixpoint heap_below (n : nat) (h : list obj) : bool :=
  match h with
  | [] => true
  | o :: h' => obj_below n o && heap_below (S n) h'
  end.

Definition stratified (h : heap) : Prop := heap_below 0 h = true.

(** A value of the store: not a dangling reference. *)
Definition in_store (h : heap) (v : val) : Prop := val_below (length h) v = true.

(** ** Exceptions and the state monad *)

Inductive exn :=
| AttributeError
| TypeError
| KeyError (key : string)
| ValueError (msg : string)
| RecursionError.

Inductive outcome (A : Type) :=
| Ret (a : A)
| Raise (e : exn).
Arguments Ret {A} a.
Arguments Raise {A} e.

(** A computation on a state [S]: the state survives an exception. *)
Definition M (S A : Type) : Type := S -> outcome A * S.

Definition ret {S A} (a : A) : M S A := fun s => (Ret a, s).

Definition raise {S A} (e : exn) : M S A := fun s => (Raise e, s).

Definition bind {S A B} (m : M S A) (f : A -> M S B) : M S B :=
  fun s =>
    match m s with
    | (Ret a, s') => f a s'
    | (Raise e, s') => (Raise e, s')
    end.

Notation "'let*' x ':=' m 'in' k" := (bind m (fun x => k))
  (at level 10, x pattern, m at level 100, k at level 200).

Definition get_state {S} : M S S := fun s => (Ret s, s).

(** A fresh object. *)
Definition alloc (o : obj) : M heap val :=
  fun h => (Ret (VRef (length h)), h ++ [o]).

(** [d.get(k)]: [None] for a missing key; a value without [.get] raises. *)
Definition py_get (d : val) (k : string) : M heap val :=
  fun h =>
    match as_dict h d with
    | Some (_, kvs) => (Ret (default VNone (dict_get k kvs)), h)
    | None => (Raise AttributeError, h)
    end.

(** [d[k] = v] on the dict object itself. *)
Definition py_setitem (d : val) (k : string) (v : val) : M heap unit :=
  fun h =>
    match as_dict h d with
    | Some (l, kvs) => (Ret tt, <[l := ODict (dict_set k v kvs)]> h)
    | None => (Raise TypeError, h)
    end.

(** ** The interpreter

    What the program takes from the interpreter that runs it, apart from
    the language: two limits and the case folding of strings.

    Two settings of the running interpreter decide where [json] gives up.
    [json.dumps] and [json.loads] recurse once for every list or dict that
    is nested in another, and the interpreter raises [RecursionError] when
    its stack has no room for one more; how much room there is depends on
    the recursion limit and on the depth of the call.  The conversion
    between an integer and its decimal text raises [ValueError] for more
    than [sys.get_int_max_str_digits()] digits.  The encoder and the scanner
    are taken to have the same room, as they have when [_sanitize_tool_call]
    calls them. *)
Class Interpreter := {
  (** how many lists or dicts can enclose a list or dict *)
  nesting_limit : nat;
  (** the longest decimal text of an integer *)
  max_str_digits : nat;
  (** [str.casefold], which follows the Unicode tables of the interpreter;
      on ASCII text it is lower-casing *)
  casefold : string -> string
}.

(** An interpreter with the default digit limit and room for a thousand
    levels.  Its [casefold] is lower-casing of ASCII text, which is what the
    examples need. *)
Definition cpython : Interpreter :=
  {| nesting_limit := 1000; max_str_digits := 4300; casefold := ascii_casefold |}.

(** An interpreter that is called so deep that no list or dict can enclose
    another. *)
Definition shallow : Interpreter :=
  {| nesting_limit := 0; max_str_digits := 4300; casefold := ascii_casefold |}.

Section Program.
Context {interp : Interpreter}.

(** ** The [json] module

    [json.dumps(v, ensure_ascii=False)] and [json.loads], as the standard
    library has them.  The encoder walks the store and keeps the containers
    it is inside of; the scanner reads the text from left to right.  Each
    stops at the first thing that makes it raise. *)

Definition hex_digit (n : nat) : ascii :=
  ascii_of_nat (if n <? 10 then 48 + n else 87 + n).

(** One character of a string literal: the short escapes, [\u00XX] for the
    other control characters, the character itself otherwise. *)
Definition escape_char (c : ascii) : list ascii :=
  match c with
  | "034"%char => ["\"%char; "034"%char]
  | "\"%char => chars "\\"
  | "008"%char => chars "\b"
  | "012"%char => chars "\f"
  | "010"%char => chars "\n"
  | "013"%char => chars "\r"
  | "009"%char => chars "\t"
  | _ =>
    let n := nat_of_ascii c in
    if n <? 32 then chars "\u00" ++ [hex_digit (n / 16); hex_digit (n mod 16)] else [c]
  end.

Definition encode_basestring (s : string) : list ascii :=
  "034"%char :: flat_map escape_char (chars s) ++ ["034"%char].

(** [repr] of an integer, and the number of its digits. *)
Definition int_repr (z : Z) : list ascii :=
  chars (NilZero.string_of_int (Z.to_int z)).

Definition int_digits (z : Z) : nat := length (int_repr (Z.abs z)).

Definition circular_reference : exn := ValueError "Circular reference detected".

(** The message is abridged: Python's names the limit. *)
Definition exceeds_digit_limit : exn :=
  ValueError "Exceeds the limit for integer string conversion".

(** The first result that raises ends the walk. *)
Fixpoint mapM_out {A B} (f : A -> outcome B) (l : list A) : outcome (list B) :=
  match l with
  | [] => Ret []
  | a :: l' =>
    match f a with
    | Ret b =>
      match mapM_out f l' with
      | Ret bs => Ret (b :: bs)
      | Raise e => Raise e
      end
    | Raise e => Raise e
    end
  end.

(** The encoder.  [d] is the number of containers that it can still enter
    and [path] holds the containers that it is inside of, Python's
    [markers].  On entering a container it first asks for room on the stack,
    then looks for the container among those that it is inside of.  Items
    are separated by [", "] and a key from its value by [": "].  A reference
    to no object, which no Python heap has, is treated as a cycle. *)
Fixpoint json_encode (d : nat) (path : list loc) (h : heap) (v : val) {struct d}
  : outcome (list ascii) :=
  match v with
  | VNone => Ret (chars "null")
  | VBool true => Ret (chars "true")
  | VBool false => Ret (chars "false")
  | VInt z =>
    if max_str_digits <? int_digits z then Raise exceeds_digit_limit
    else Ret (int_repr z)
  | VStr s => Ret (encode_basestring s)
  | VRef l =>
    match d with
    | 0 => Raise RecursionError
    | S d' =>
      if bool_decide (l ∈ path) then Raise circular_reference
      else
        match h !! l with
        | Some (OList xs) =>
          match mapM_out (json_encode d' (l :: path) h) xs with
          | Ret parts => Ret ("["%char :: str_join (chars ", ") parts ++ ["]"%char])
          | Raise e => Raise e
          end
        | Some (ODict kvs) =>
          match mapM_out (fun kv =>
                   match json_encode d' (l :: path) h (snd kv) with
                   | Ret s => Ret (encode_basestring (fst kv) ++ chars ": " ++ s)
                   | Raise e => Raise e
                   end) kvs with
          | Ret parts => Ret ("{"%char :: str_join (chars ", ") parts ++ ["}"%char])
          | Raise e => Raise e
          end
        | None => Raise circular_reference
        end
    end
  end.

(** [json.dumps] from outside every container. *)
Definition json_dumps_run (h : heap) (v : val) : outcome string :=
  match json_encode (S nesting_limit) [] h v with
  | Ret out => Ret (string_of_list_ascii out)
  | Raise e => Raise e
  end.

(** The text that [json.dumps] returns, when it returns. *)
Definition json_dumps (h : heap) (v : val) : option string :=
  match json_dumps_run h v with
  | Ret s => Some s
  | Raise _ => None
  end.

Definition is_ws (c : ascii) : bool :=
  match c with
  | " "%char | "009"%char | "010"%char | "013"%char => true
  | _ => false
  end.

Fixpoint skip_ws (s : list ascii) : list ascii :=
  match s with
  | c :: r => if is_ws c then skip_ws r else s
  | [] => []
  end.

Definition is_digit (c : ascii) : bool :=
  let n := nat_of_ascii c in (48 <=? n) && (n <=? 57).

Definition is_hex (c : ascii) : bool :=
  let n := nat_of_ascii c in
  ((48 <=? n) && (n <=? 57)) || ((65 <=? n) && (n <=? 70)) || ((97 <=? n) && (n <=? 102)).

Definition is_escape (c : ascii) : bool :=
  match c with
  | "034"%char | "\"%char | "/"%char | "b"%char | "f"%char | "n"%char | "r"%char
  | "t"%char => true
  | _ => false
  end.

(** The rest of a string literal, after its opening quote (strict mode:
    a raw control character is an error). *)
Fixpoint scanstring (s : list ascii) : option (list ascii) :=
  match s with
  | [] => None
  | c :: r =>
    if Ascii.eqb c "034" then Some r
    else if Ascii.eqb c "\" then
      match r with
      | [] => None
      | e :: r1 =>
        if Ascii.eqb e "u" then
          match r1 with
          | h1 :: h2 :: h3 :: h4 :: r2 =>
            if is_hex h1 && is_hex h2 && is_hex h3 && is_hex h4
            then scanstring r2 else None
          | _ => None
          end
        else if is_escape e then scanstring r1 else None
      end
    else if nat_of_ascii c <? 32 then None
    else scanstring r
  end.

Fixpoint skip_digits (s : list ascii) : list ascii :=
  match s with
  | c :: r => if is_digit c then skip_digits r else s
  | [] => []
  end.

(** The integer part of a number, after its sign: either a single zero or
    a non-zero digit followed by digits. *)
Definition match_digits (s : list ascii) : option (list ascii) :=
  match s with
  | c :: r =>
    if Ascii.eqb c "0" then Some r
    else if is_digit c then Some (skip_digits r) else None
  | [] => None
  end.

(** The optional minus sign. *)
Definition strip_minus (s : list ascii) : list ascii :=
  match s with
  | c :: r => if Ascii.eqb c "-" then r else s
  | [] => s
  end.

Definition match_int (s : list ascii) : option (list ascii) :=
  match_digits (strip_minus s).

(** The optional fraction: a dot and at least one digit. *)
Definition match_frac (s : list ascii) : list ascii :=
  match s with
  | c :: r =>
    if Ascii.eqb c "." then
      match r with
      | d :: r1 => if is_digit d then skip_digits r1 else s
      | [] => s
      end
    else s
  | [] => s
  end.

(** The optional exponent: [e] or [E], an optional sign, at least one digit. *)
Definition match_exp (s : list ascii) : list ascii :=
  match s with
  | c :: r =>
    if Ascii.eqb c "e" || Ascii.eqb c "E" then
      match r with
      | d :: r1 =>
        if is_digit d then skip_digits r1
        else if Ascii.eqb d "-" || Ascii.eqb d "+" then
          match r1 with
          | x :: r2 => if is_digit x then skip_digits r2 else s
          | [] => s
          end
        else s
      | [] => s
      end
    else s
  | [] => s
  end.

(** What the scanner finds at the head of a text: a value and the text
    after it, text that is not JSON (or holds an integer that is too long:
    both are a [ValueError]), or nesting that the stack has no room for. *)
Inductive scanned :=
| Scanned (rest : list ascii)
| BadText
| TooDeep.

Definition of_option (r : option (list ascii)) : scanned :=
  match r with
  | Some rest => Scanned rest
  | None => BadText
  end.

(** A number.  Without fraction and exponent it is converted by [int], which
    refuses more than [max_str_digits] digits; otherwise by [float], which
    takes any number of them. *)
Definition match_number (s : list ascii) : option scanned :=
  match match_int s with
  | Some r0 =>
    let r := match_exp (match_frac r0) in
    let digits := length (strip_minus s) - length r0 in
    if (length r =? length r0) && (max_str_digits <? digits) then Some BadText
    else Some (Scanned r)
  | None => None
  end.

Fixpoint strip_prefix (p s : list ascii) : option (list ascii) :=
  match p, s with
  | [], _ => Some s
  | a :: p', b :: s' => if Ascii.eqb a b then strip_prefix p' s' else None
  | _ :: _, [] => None
  end.

(** A number, or one of the constants that [json.loads] also accepts. *)
Definition scan_literal (s : list ascii) : scanned :=
  match match_number s with
  | Some r => r
  | None =>
    match strip_prefix (chars "NaN") s with
    | Some r => Scanned r
    | None =>
      match strip_prefix (chars "Infinity") s with
      | Some r => Scanned r
      | None => of_option (strip_prefix (chars "-Infinity") s)
      end
    end
  end.

(** The scanner: one value at the head of the input.  [d] is the number of
    containers that it can still enter; it asks for room on reading the
    opening bracket.  [JSONObject] starts at the first key and [JSONArray]
    at the first element.  Every call consumes a character before it
    descends, so the length of the input bounds the number [n] of calls. *)
Fixpoint scan_once (n d : nat) (s : list ascii) {struct n} : scanned :=
  match n with
  | 0 => BadText
  | S n' =>
    match s with
    | [] => BadText
    | c :: r =>
      if Ascii.eqb c "034" then of_option (scanstring r)
      else if Ascii.eqb c "{" then
        match d with
        | 0 => TooDeep
        | S d' =>
          match skip_ws r with
          | c1 :: r1 =>
            if Ascii.eqb c1 "}" then Scanned r1 else JSONObject n' d' (c1 :: r1)
          | [] => BadText
          end
        end
      else if Ascii.eqb c "[" then
        match d with
        | 0 => TooDeep
        | S d' =>
          match skip_ws r with
          | c1 :: r1 =>
            if Ascii.eqb c1 "]" then Scanned r1 else JSONArray n' d' (c1 :: r1)
          | [] => BadText
          end
        end
      else
        match strip_prefix (chars "null") s with
        | Some r1 => Scanned r1
        | None =>
          match strip_prefix (chars "true") s with
          | Some r1 => Scanned r1
          | None =>
            match strip_prefix (chars "false") s with
            | Some r1 => Scanned r1
            | None => scan_literal s
            end
          end
        end
    end
  end
with JSONObject (n d : nat) (s : list ascii) {struct n} : scanned :=
  match n with
  | 0 => BadText
  | S n' =>
    match s with
    | c :: r =>
      if Ascii.eqb c "034" then
        match scanstring r with
        | Some r1 =>
          match skip_ws r1 with
          | c2 :: r2 =>
            if Ascii.eqb c2 ":" then
              match scan_once n' d (skip_ws r2) with
              | Scanned r3 =>
                match skip_ws r3 with
                | c4 :: r4 =>
                  if Ascii.eqb c4 "}" then Scanned r4
                  else if Ascii.eqb c4 "," then JSONObject n' d (skip_ws r4)
                  else BadText
                | [] => BadText
                end
              | BadText => BadText
              | TooDeep => TooDeep
              end
            else BadText
          | [] => BadText
          end
        | None => BadText
        end
      else BadText
    | [] => BadText
    end
  end
with JSONArray (n d : nat) (s : list ascii) {struct n} : scanned :=
  match n with
  | 0 => BadText
  | S n' =>
    match scan_once n' d s with
    | Scanned r =>
      match skip_ws r with
      | c1 :: r1 =>
        if Ascii.eqb c1 "]" then Scanned r1
        else if Ascii.eqb c1 "," then JSONArray n' d (skip_ws r1)
        else BadText
      | [] => BadText
      end
    | BadText => BadText
    | TooDeep => TooDeep
    end
  end.

(** What [json.loads(s)] does: it returns, for one value between optional
    white space; it raises [ValueError] ([json.JSONDecodeError] is one, and
    so is the refusal of a long integer); or it raises [RecursionError]. *)
Inductive loaded :=
| LoadsReturns
| LoadsValueError
| LoadsRecursionError.

Definition json_loads (s : string) : loaded :=
  let l := chars s in
  match scan_once (S (length l)) (S nesting_limit) (skip_ws l) with
  | Scanned r => match skip_ws r with [] => LoadsReturns | _ => LoadsValueError end
  | BadText => LoadsValueError
  | TooDeep => LoadsRecursionError
  end.

(** [json.loads(s)] returns. *)
Definition json_loads_ok (s : string) : bool :=
  match json_loads s with
  | LoadsReturns => true
  | _ => false
  end.


(** One member of an object, as the encoder writes it. *)
Definition encode_member (d : nat) (path : list loc) (h : heap) (kv : string * val)
  : outcome (list ascii) :=
  match json_encode d path h (snd kv) with
  | Ret s => Ret (encode_basestring (fst kv) ++ chars ": " ++ s)
  | Raise e => Raise e
  end.

(** What may follow a value inside the encoder's output: nothing, or a
    comma or closing bracket. *)
Definition delim (rest : list ascii) : bool :=
  match rest with
  | [] => true
  | c :: _ => Ascii.eqb c "," || Ascii.eqb c "]" || Ascii.eqb c "}"
  end.

(** The characters that the encoder's output can start with. *)
Definition value_start (c : ascii) : bool :=
  Ascii.eqb c "034" || Ascii.eqb c "{" || Ascii.eqb c "[" || Ascii.eqb c "n"
  || Ascii.eqb c "t" || Ascii.eqb c "f" || Ascii.eqb c "-" || is_digit c.

(** [json.dumps] as a computation: it reads the store. *)
Definition json_dumps_m (v : val) : M heap string :=
  fun h => (json_dumps_run h v, h).

(** ** The tape compiler ([src/bub/tape/context.py]) *)

(** A tape entry, as far as the compiler reads it. *)
Record TapeEntry := { kind : string; payload : val }.

(** A list that a function builds and returns ([messages], [calls]) is kept
    as a Rocq list while it is local, and stored once another object refers
    to it; [pending_calls] holds the items of the list it names, which
    nothing writes to after it is built. *)

Definition _sanitize_tool_call (call : val) : M heap val :=
  let* function := py_get call "function" in
  let* h := get_state in
  match as_dict h function with
  | None => ret call
  | Some _ =>
    let* args := py_get function "arguments" in
    let* h := get_state in
    match args with
    | VRef _ =>
      match as_dict h args with
      | Some _ =>
        let* s := json_dumps_m args in
        let* _ := py_setitem function "arguments" (VStr s) in
        ret call
      | None => ret call
      end
    | VStr s =>
      match json_loads s with
      | LoadsReturns => ret call
      | LoadsValueError =>
        let* _ := py_setitem function "arguments" (VStr "{}") in
        ret call
      | LoadsRecursionError => raise RecursionError
      end
    | VNone =>
      let* _ := py_setitem function "arguments" (VStr "{}") in
      ret call
    | _ => ret call
    end
  end.

(** The loop of [_normalize_tool_calls]: [dict(item)] is a fresh dict with
    the bindings that [item] has when the loop reaches it. *)
Fixpoint normalize_loop (items : list val) (calls : list val) : M heap (list val) :=
  match items with
  | [] => ret calls
  | item :: items' =>
    let* h := get_state in
    match as_dict h item with
    | Some (_, kvs) =>
      let* copy := alloc (ODict kvs) in
      let* call := _sanitize_tool_call copy in
      normalize_loop items' (calls ++ [call])
    | None => normalize_loop items' calls
    end
  end.

Definition _normalize_tool_calls (value : val) : M heap (list val) :=
  let* h := get_state in
  match as_list h value with
  | None => ret []
  | Some items => normalize_loop items []
  end.

Definition _render_tool_result (result : val) : M heap string :=
  match result with
  | VStr s => ret s
  | _ => json_dumps_m result
  end.

Definition nonempty_str (v : val) : option string :=
  match v with
  | VStr EmptyString => None
  | VStr s => Some s
  | _ => None
  end.

Definition _build_tool_result_message
    (result : val) (pending_calls : list val) (index : nat) : M heap val :=
  let* content := _render_tool_result result in
  let message := [("role", VStr "tool"); ("content", VStr content)] in
  match pending_calls !! index with
  | None => alloc (ODict message)
  | Some call =>
    let* call_id := py_get call "id" in
    let message :=
      match nonempty_str call_id with
      | Some s => dict_set "tool_call_id" (VStr s) message
      | None => message
      end in
    let* function := py_get call "function" in
    let* h := get_state in
    match as_dict h function with
    | Some _ =>
      let* name := py_get function "name" in
      match nonempty_str name with
      | Some s => alloc (ODict (dict_set "name" (VStr s) message))
      | None => alloc (ODict message)
      end
    | None => alloc (ODict message)
    end
  end.

Definition _append_message_entry (messages : list val) (entry : TapeEntry)
  : M heap (list val) :=
  let* h := get_state in
  match as_dict h (payload entry) with
  | Some (_, kvs) =>
    let* copy := alloc (ODict kvs) in
    ret (messages ++ [copy])
  | None => ret messages
  end.

(** Returns the messages and the calls. *)
Definition _append_tool_call_entry (messages : list val) (entry : TapeEntry)
  : M heap (list val * list val) :=
  let* value := py_get (payload entry) "calls" in
  let* calls := _normalize_tool_calls value in
  match calls with
  | [] => ret (messages, calls)
  | _ :: _ =>
    let* tool_calls := alloc (OList calls) in
    let* message :=
      alloc (ODict [("role", VStr "assistant"); ("content", VStr EmptyString);
                    ("tool_calls", tool_calls)]) in
    ret (messages ++ [message], calls)
  end.

(** The loop over [enumerate(results)]. *)
Fixpoint tool_result_loop (results : list val) (index : nat)
    (pending_calls : list val) (messages : list val) : M heap (list val) :=
  match results with
  | [] => ret messages
  | result :: results' =>
    let* message := _build_tool_result_message result pending_calls index in
    tool_result_loop results' (S index) pending_calls (messages ++ [message])
  end.

Definition _append_tool_result_entry
    (messages : list val) (pending_calls : list val) (entry : TapeEntry)
  : M heap (list val) :=
  let* results := py_get (payload entry) "results" in
  let* h := get_state in
  match as_list h results with
  | None => ret messages
  | Some items => tool_result_loop items 0 pending_calls messages
  end.

(** The body of the loop of [_select_messages], on the pair of [messages]
    and [pending_calls]. *)
Definition select_step (st : list val * list val) (entry : TapeEntry)
  : M heap (list val * list val) :=
  let '(messages, pending_calls) := st in
  if String.eqb (kind entry) "message" then
    let* messages := _append_message_entry messages entry in
    ret (messages, pending_calls)
  else if String.eqb (kind entry) "tool_call" then
    _append_tool_call_entry messages entry
  else if String.eqb (kind entry) "tool_result" then
    let* messages := _append_tool_result_entry messages pending_calls entry in
    ret (messages, [])
  else ret (messages, pending_calls).

Fixpoint select_loop (entries : list TapeEntry) (st : list val * list val)
  : M heap (list val * list val) :=
  match entries with
  | [] => ret st
  | entry :: entries' =>
    let* st' := select_step st entry in
    select_loop entries' st'
  end.

(** The [_context] parameter of the source is not used and is left out. *)
Definition _select_messages (entries : list TapeEntry) : M heap (list val) :=
  let* st := select_loop entries ([], []) in
  ret (fst st).

(** [function.arguments] of a call item, when both are there. *)
Definition call_arguments (h : heap) (call : val) : option val :=
  match as_dict h call with
  | Some (_, kvs) =>
    match dict_get "function" kvs with
    | Some function =>
      match as_dict h function with
      | Some (_, fkvs) => dict_get "arguments" fkvs
      | None => None
      end
    | None => None
    end
  | None => None
  end.

(** Text with ['] standing for the double quote, to write JSON down. *)
Definition dq_char (c : ascii) : ascii :=
  if Ascii.eqb c "'" then "034"%char else c.

Fixpoint dq (s : string) : string :=
  match s with
  | EmptyString => EmptyString
  | String c r => String (dq_char c) (dq r)
  end.

(** ** The tool registry ([src/bub/tools/registry.py]) *)

(** What the logger receives.  The duration logged at the end of a call is a
    clock reading and is left out. *)
Inductive LogRecord :=
| ToolCallStart (name params : string)
| ToolCallError (name : string)
| ToolCallEnd (name : string).

(** Tool code runs on the store and writes to the log. *)
Record World := { store : heap; logs : list LogRecord }.

Definition on_store {A} (m : M heap A) : M World A :=
  fun w =>
    let '(r, h) := m (store w) in
    (r, {| store := h; logs := logs w |}).

Definition log_record (r : LogRecord) (w : World) : World :=
  {| store := store w; logs := logs w ++ [r] |}.

Definition emit (r : LogRecord) : M World unit :=
  fun w => (Ret tt, log_record r w).

(** A positional argument: a [BaseModel] instance, seen through its
    [model_dump()], or another value. *)
Inductive pyarg :=
| ArgModel (model_dump : list (string * val))
| ArgValue (v : val).

(** A function object: its body, called with positional and keyword
    arguments, and its [__doc__]. *)
Record Callable := {
  call : list pyarg -> list (string * val) -> M World val;
  doc : option string
}.

(** [republic.Tool]: the five fields that [model_tools] reads and writes. *)
Record Tool := {
  tool_name : string;
  tool_description : string;
  tool_parameters : val;
  tool_handler : Callable;
  tool_context : bool
}.

(** The [republic] library builds tool handles and runs them; the registry
    does not depend on how.  Building a handle can raise: the library
    inspects the function and its parameters. *)
Class Republic := {
  ModelType : Type;
  tool_from_model : ModelType -> Callable -> string -> string -> bool -> outcome Tool;
  Tool_from_callable : Callable -> string -> string -> bool -> outcome Tool;
  Tool_run : Tool -> list (string * val) -> M World val
}.

Record ToolDescriptor := {
  name : string;
  short_description : string;
  detail : string;
  tool : Tool;
  source : string
}.

Record ToolRegistry := {
  _tools : list (string * ToolDescriptor);
  _allowed_tools : option (gset string)
}.

(** [ToolRegistry(allowed_tools)] *)
Definition new_registry (allowed_tools : option (gset string)) : ToolRegistry :=
  {| _tools := []; _allowed_tools := allowed_tools |}.

Definition _shorten_text (text : string) (width : Z) (placeholder : string) : string :=
  if (Z.of_nat (String.length text) <=? width)%Z then text
  else
    let available := (width - Z.of_nat (String.length placeholder))%Z in
    if (available <=? 0)%Z then placeholder
    else String.append (substring 0 (Z.to_nat available) text) placeholder.

Fixpoint to_model_name (name : string) : string :=
  match name with
  | EmptyString => EmptyString
  | String c r => String (if Ascii.eqb c "." then "_"%char else c) (to_model_name r)
  end.

(** One parameter of the start line: the value rendered, cut to 60
    characters, and closed again when the cut left it open. *)
Definition render_param (key : string) (value : val) : M heap string :=
  let* rendered := json_dumps_m value in
  let value := _shorten_text rendered 60 "..." in
  let value :=
    if startswith value "034" && negb (endswith value "034")
    then String.append value (String "034" EmptyString) else value in
  let value :=
    if startswith value "{" && negb (endswith value "}")
    then String.append value "}" else value in
  let value :=
    if startswith value "[" && negb (endswith value "]")
    then String.append value "]" else value in
  ret (String.append key (String.append "=" value)).

Fixpoint render_params (kwargs : list (string * val)) (params : list string)
  : M heap (list string) :=
  match kwargs with
  | [] => ret params
  | (key, value) :: kwargs' =>
    let* p := render_param key value in
    render_params kwargs' (params ++ [p])
  end.

(** The [context] argument is received and not used. *)
Definition _log_tool_call (name : string) (kwargs : list (string * val)) (context : val)
  : M World unit :=
  let* params := on_store (render_params kwargs []) in
  emit (ToolCallStart name (join_strings ", " params)).

(** The keyword arguments that the start line shows. *)
Definition call_kwargs_of (args : list pyarg) (kwargs : list (string * val))
  : list (string * val) :=
  let call_kwargs :=
    List.filter (fun kv => negb (String.eqb (fst kv) "context")) kwargs in
  match args with
  | ArgModel model_dump :: _ => dict_update call_kwargs model_dump
  | _ => call_kwargs
  end.

(** [try: func(..) except: log, raise; finally: log] *)
Definition timed_call (name : string) (body : M World val) : M World val :=
  fun w =>
    match body w with
    | (Ret result, w') => (Ret result, log_record (ToolCallEnd name) w')
    | (Raise e, w') =>
      (Raise e, log_record (ToolCallEnd name) (log_record (ToolCallError name) w'))
    end.

(** The instrumented handler that [register] wraps around [func]. *)
Definition handler (name : string) (context : bool) (func : Callable) : Callable :=
  {| call := fun args kwargs =>
       let context_arg :=
         if context then default VNone (dict_get "context" kwargs) else VNone in
       let call_kwargs := call_kwargs_of args kwargs in
       let* _ := _log_tool_call name call_kwargs context_arg in
       timed_call name (call func args kwargs);
     doc := doc func |}.

(** [a or b] on optional strings: the first that is neither [None] nor
    empty. *)
Definition str_or (a b : option string) : option string :=
  match a with
  | Some (String _ _) => a
  | _ => b
  end.

Section Registry.
Context `{Republic}.

(** The decorator of [register], applied to [func]: the descriptor or
    [None], or what the library raises, and the registry afterwards. *)
Definition register (self : ToolRegistry)
    (name short_description : string) (detail : option string)
    (model : option ModelType) (context : bool) (source : string)
    (func : Callable) : outcome (option ToolDescriptor) * ToolRegistry :=
  let tool_detail := default EmptyString (str_or (str_or detail (doc func)) (Some EmptyString)) in
  let skipped :=
    match _allowed_tools self with
    | Some allowed =>
      bool_decide (casefold name ∉ allowed)
      && bool_decide (casefold (to_model_name name) ∉ allowed)
    | None => false
    end in
  if skipped then (Ret None, self)
  else
    let h := handler name context func in
    let built :=
      match model with
      | Some m => tool_from_model m h name short_description context
      | None => Tool_from_callable h name short_description context
      end in
    match built with
    | Raise e => (Raise e, self)
    | Ret tool =>
      let tool_desc :=
        {| name := name; short_description := short_description;
           detail := tool_detail; tool := tool; source := source |} in
      (Ret (Some tool_desc),
       {| _tools := dict_set name tool_desc (_tools self);
          _allowed_tools := _allowed_tools self |})
    end.

Definition has (self : ToolRegistry) (name : string) : bool :=
  match dict_get name (_tools self) with
  | Some _ => true
  | None => false
  end.

Definition get (self : ToolRegistry) (name : string) : option ToolDescriptor :=
  dict_get name (_tools self).

(** [sorted(.., key=lambda item: item.name)]: a stable sort on the
    code-point order of the names. *)
Fixpoint insert_by_name (d : ToolDescriptor) (ds : list ToolDescriptor)
  : list ToolDescriptor :=
  match ds with
  | [] => [d]
  | d' :: ds' =>
    if String.leb (name d) (name d') then d :: ds
    else d' :: insert_by_name d ds'
  end.

Definition sorted_by_name (ds : list ToolDescriptor) : list ToolDescriptor :=
  fold_right insert_by_name [] ds.

Definition descriptors (self : ToolRegistry) : list ToolDescriptor :=
  sorted_by_name (map snd (_tools self)).

Definition duplicate_model_name (model_name : string) : exn :=
  ValueError (String.append "Duplicate model tool name after conversion: " model_name).

(** The loop of [model_tools]. *)
Fixpoint model_tools_loop (ds : list ToolDescriptor) (seen_names : gset string)
    (tools : list Tool) : outcome (list Tool) :=
  match ds with
  | [] => Ret tools
  | descriptor :: ds' =>
    let model_name := to_model_name (name descriptor) in
    if bool_decide (model_name ∈ seen_names) then Raise (duplicate_model_name model_name)
    else
      let base := tool descriptor in
      model_tools_loop ds' ({[model_name]} ∪ seen_names)
        (tools ++ [ {| tool_name := model_name;
                       tool_description := tool_description base;
                       tool_parameters := tool_parameters base;
                       tool_handler := tool_handler base;
                       tool_context := tool_context base |} ])
  end.

Definition model_tools (self : ToolRegistry) : outcome (list Tool) :=
  model_tools_loop (descriptors self) ∅ [].

(** [**kwargs]: the bindings of the dict, handed over as a new mapping. *)
Definition py_unpack (kwargs : val) : M heap (list (string * val)) :=
  fun h =>
    match as_dict h kwargs with
    | Some (_, kvs) => (Ret kvs, h)
    | None => (Raise TypeError, h)
    end.

(** [kwargs] is the dict object that the caller passes. *)
Definition execute (self : ToolRegistry) (name : string) (kwargs : val) (context : val)
  : M World val :=
  match get self name with
  | None => raise (KeyError name)
  | Some descriptor =>
    let* _ :=
      if tool_context (tool descriptor)
      then on_store (py_setitem kwargs "context" context)
      else ret tt in
    let* unpacked := on_store (py_unpack kwargs) in
    Tool_run (tool descriptor) unpacked
  end.

(** The registries that a program can hold: a new one, and what [register]
    leaves. *)
Inductive registered : ToolRegistry -> Prop :=
| registered_new allowed_tools : registered (new_registry allowed_tools)
| registered_step self name short_description detail model context source func :
    registered self ->
    registered
      (snd (register self name short_description detail model context source func)).
End Registry.

(** A plain instance of the library interface: a handle keeps what it is
    given, and running it calls the handler with the keyword arguments. *)
Definition plain_republic : Republic :=
  {| ModelType := val;
     tool_from_model := fun m h n d c =>
       Ret {| tool_name := n; tool_description := d; tool_parameters := m;
              tool_handler := h; tool_context := c |};
     Tool_from_callable := fun h n d c =>
       Ret {| tool_name := n; tool_description := d; tool_parameters := VNone;
              tool_handler := h; tool_context := c |};
     Tool_run := fun t kwargs => call (tool_handler t) [] kwargs |}.

(** An instance that builds no handle for a tool that requires context, as
    the library does for a function without a [context] parameter. *)
Definition refusing_republic : Republic :=
  {| ModelType := val;
     tool_from_model := fun m h n d c =>
       if c then Raise TypeError
       else Ret {| tool_name := n; tool_description := d; tool_parameters := m;
                   tool_handler := h; tool_context := c |};
     Tool_from_callable := fun h n d c =>
       if c then Raise TypeError
       else Ret {| tool_name := n; tool_description := d; tool_parameters := VNone;
                   tool_handler := h; tool_context := c |};
     Tool_run := fun t kwargs => call (tool_handler t) [] kwargs |}.

(** ** Shapes and example tapes *)

(** What sanitization leaves in a call item whose [function] is a dict:
    [function.arguments] is a string that [json.loads] accepts, or a value of
    a shape that sanitization does not touch (a number, a boolean, a list);
    it is not [None], absent, a dict or a string that does not parse. *)
Definition sanitized_value (h : heap) (args : val) : Prop :=
  match args with
  | VStr s => json_loads_ok s = true
  | VNone => False
  | VRef _ => as_dict h args = None
  | _ => True
  end.

Definition arguments_sanitized (h : heap) (call : val) : Prop :=
  forall lc ckvs lf fkvs,
    as_dict h call = Some (lc, ckvs) ->
    as_dict h (default VNone (dict_get "function" ckvs)) = Some (lf, fkvs) ->
    sanitized_value h (default VNone (dict_get "arguments" fkvs)).

(** How the compiler changes a store: objects are added; a list stays as
    it is; a dict stays a dict, and what can change in it is [arguments],
    which is set to a string that [json.loads] accepts. *)
Definition dict_evolves (kvs kvs' : list (string * val)) : Prop :=
  kvs' = kvs
  \/ exists s, json_loads_ok s = true /\ kvs' = dict_set "arguments" (VStr s) kvs.

Definition obj_evolves (o o' : obj) : Prop :=
  match o, o' with
  | OList xs, OList xs' => xs' = xs
  | ODict kvs, ODict kvs' => dict_evolves kvs kvs'
  | _, _ => False
  end.

Definition store_evolves (h h' : heap) : Prop :=
  forall l o, h !! l = Some o -> exists o', h' !! l = Some o' /\ obj_evolves o o'.


(** The call items of the assistant messages among [messages]. *)
Definition emitted_calls (h : heap) (messages : list val) : list val :=
  flat_map (fun m =>
    match as_dict h m with
    | Some (_, kvs) =>
      match as_list h (default VNone (dict_get "tool_calls" kvs)) with
      | Some calls => calls
      | None => []
      end
    | None => []
    end) messages.

(** The [id] of a call item, when it is a non-empty string. *)
Definition call_id (h : heap) (call : val) : option string :=
  match as_dict h call with
  | Some (_, kvs) => nonempty_str (default VNone (dict_get "id" kvs))
  | None => None
  end.

(** [function.name] of a call item, when [function] is a dict and the name
    a non-empty string. *)
Definition call_name (h : heap) (call : val) : option string :=
  match as_dict h call with
  | Some (_, kvs) =>
    match as_dict h (default VNone (dict_get "function" kvs)) with
    | Some (_, fkvs) => nonempty_str (default VNone (dict_get "name" fkvs))
    | None => None
    end
  | None => None
  end.

(** The bindings of a tool message with the given content, id and name. *)
Definition tool_message (content : string) (id name : option string)
  : list (string * val) :=
  let message := [("role", VStr "tool"); ("content", VStr content)] in
  let message :=
    match id with
    | Some s => dict_set "tool_call_id" (VStr s) message
    | None => message
    end in
  match name with
  | Some s => dict_set "name" (VStr s) message
  | None => message
  end.



(** The tape of the specification's example: a call to [search] with the
    arguments stored as a dict, and its result. *)
Definition search_heap : heap :=
  [ ODict [("q", VStr "x")];
    ODict [("name", VStr "search"); ("arguments", VRef 0)];
    ODict [("id", VStr "1"); ("function", VRef 1)];
    OList [VRef 2];
    ODict [("calls", VRef 3)];
    OList [VStr "ok"];
    ODict [("results", VRef 5)] ].

Definition search_tape : list TapeEntry :=
  [ {| kind := "tool_call"; payload := VRef 4 |};
    {| kind := "tool_result"; payload := VRef 6 |} ].



(** A call, then a result entry whose [results] is a string, then a result
    entry with one result. *)
Definition stray_heap : heap :=
  [ ODict [("name", VStr "search"); ("arguments", VStr "{}")];
    ODict [("id", VStr "1"); ("function", VRef 0)];
    OList [VRef 1];
    ODict [("calls", VRef 2)];
    ODict [("results", VStr "lost")];
    OList [VStr "ok"];
    ODict [("results", VRef 5)] ].

Definition stray_call : TapeEntry := {| kind := "tool_call"; payload := VRef 3 |}.
Definition stray_result : TapeEntry := {| kind := "tool_result"; payload := VRef 4 |}.
Definition late_result : TapeEntry := {| kind := "tool_result"; payload := VRef 6 |}.

(** A dict and a list that hold each other. *)
Definition knot_heap : heap :=
  [ ODict [("next", VRef 1)]; OList [VInt 1; VRef 0] ].

(** A list in a list, and a call whose arguments are the text of one. *)
Definition nested_heap : heap :=
  [ OList [];
    OList [VRef 0];
    ODict [("name", VStr "f"); ("arguments", VStr "[[]]")];
    ODict [("id", VStr "1"); ("function", VRef 2)] ].

(** A call whose arguments are the text of an integer of 4301 digits. *)
Definition long_integer : string := string_of_list_ascii (repeat "1"%char 4301).

Definition long_heap : heap :=
  [ ODict [("name", VStr "f"); ("arguments", VStr long_integer)];
    ODict [("id", VStr "1"); ("function", VRef 0)] ].



(** ** Registry examples and the specification's wording *)

(** Membership in the allow-set under case-insensitive comparison: some
    entry equals the name once both are case-folded. *)
Definition ci_member (x : string) (allowed : gset string) : Prop :=
  exists a, a ∈ allowed /\ casefold a = casefold x.

(** The keyword arguments without the [context] key. *)
Definition without_context (kwargs : list (string * val)) : list (string * val) :=
  List.filter (fun kv => negb (String.eqb (fst kv) "context")) kwargs.


(** A tool body that returns the [context] keyword argument it receives. *)
Definition echo_context : Callable :=
  {| call := fun _ kwargs => ret (default VNone (dict_get "context" kwargs));
     doc := Some "Return the context." |}.

(** A world whose store holds one dict of keyword arguments. *)
Definition query_world : World :=
  {| store := [ODict [("q", VStr "x")]]; logs := [] |}.

(** ** Further definitions: entries, shapes and listings *)

(** An entry that the loop of [_select_messages] passes over: a kind other
    than the three it knows, or a message whose payload is not a dict: a
    scalar, or a list of the store. *)
Definition passed_over (h : heap) (entry : TapeEntry) : bool :=
  if String.eqb (kind entry) "message" then
    match payload entry with
    | VRef l => match h !! l with Some (OList _) => true | _ => false end
    | _ => true
    end
  else negb (String.eqb (kind entry) "tool_call")
       && negb (String.eqb (kind entry) "tool_result").

(** [isinstance(v, dict)] as a boolean. *)
Definition is_dict (h : heap) (v : val) : bool :=
  match as_dict h v with
  | Some _ => true
  | None => false
  end.

(** An entry that the compiler can read on the store [h]: its payload is a
    value of the store, and a dict when the kind is [tool_call] or
    [tool_result]. *)
Definition readable_entry (h : heap) (entry : TapeEntry) : Prop :=
  in_store h (payload entry)
  /\ (String.eqb (kind entry) "tool_call" || String.eqb (kind entry) "tool_result" = true
      -> is_dict h (payload entry) = true).

(** An object made after the store [h0]. *)
Definition made_after (h0 : heap) (v : val) : Prop :=
  exists l, v = VRef l /\ length h0 <= l.

(** The items of a [calls] list that are dicts, in order. *)
Definition dict_items (h : heap) (items : list val) : list val :=
  List.filter (is_dict h) items.

(** [call], on the store [h'], is a copy of [item], on the store [h], made
    after [h]: a dict with the bindings of [item] for every key other than
    [arguments]. *)
Definition copy_of (h h' : heap) (item call : val) : Prop :=
  exists li kvs lc kvs',
    as_dict h item = Some (li, kvs)
    /\ as_dict h' call = Some (lc, kvs')
    /\ length h <= lc
    /\ forall k, k <> "arguments" -> dict_get k kvs' = dict_get k kvs.

(** What the loop of the compiler keeps true of its two variables, on a run
    that started from the store [h0]: the messages are dicts made by the run,
    the pending calls are dicts. *)
Definition compiled (h0 h : heap) (st : list val * list val) : Prop :=
  Forall (fun m => made_after h0 m /\ is_dict h m = true) (fst st)
  /\ Forall (fun c => is_dict h c = true) (snd st).

(** The values an object holds: the items of a list, the values of a dict. *)
Definition obj_values (o : obj) : list val :=
  match o with
  | ODict kvs => map snd kvs
  | OList xs => xs
  end.

(** The bindings of the payloads that are dicts, in tape order. *)
Definition dict_payloads (h : heap) (entries : list TapeEntry) : list (list (string * val)) :=
  omap (fun entry => snd <$> as_dict h (payload entry)) entries.

(** ** Further definitions: the registry's listings *)

(** [c in s] for a character. *)
Fixpoint contains (c : ascii) (s : string) : bool :=
  match s with
  | EmptyString => false
  | String x r => Ascii.eqb x c || contains c r
  end.

(** One row of [compact_rows]. *)
Definition compact_row (for_model : bool) (descriptor : ToolDescriptor) : string :=
  let display_name :=
    if for_model then to_model_name (name descriptor) else name descriptor in
  if for_model && negb (String.eqb display_name (name descriptor))
  then String.append display_name
         (String.append " (command: "
            (String.append (name descriptor)
               (String.append "): " (short_description descriptor))))
  else String.append display_name
         (String.append ": " (short_description descriptor)).

(** The loop of [compact_rows]. *)
Fixpoint compact_rows_loop (for_model : bool) (ds : list ToolDescriptor)
    (rows : list string) : list string :=
  match ds with
  | [] => rows
  | descriptor :: ds' =>
    compact_rows_loop for_model ds' (rows ++ [compact_row for_model descriptor])
  end.

Definition compact_rows (self : ToolRegistry) (for_model : bool) : list string :=
  compact_rows_loop for_model (descriptors self) [].

(** The tool that [model_tools] builds from a descriptor. *)
Definition as_model_tool (descriptor : ToolDescriptor) : Tool :=
  {| tool_name := to_model_name (name descriptor);
     tool_description := tool_description (tool descriptor);
     tool_parameters := tool_parameters (tool descriptor);
     tool_handler := tool_handler (tool descriptor);
     tool_context := tool_context (tool descriptor) |}.

(** The order of [sorted(.., key=lambda item: item.name)]. *)
Definition name_le (a b : ToolDescriptor) : Prop :=
  String.leb (name a) (name b) = true.

(** One closing step of the start line: [if value.startswith(o) and not
    value.endswith(c): value = value + c]. *)
Definition close_with (opening closing : ascii) (value : string) : string :=
  if startswith value opening && negb (endswith value closing)
  then String.append value (String closing EmptyString) else value.

(** What a closing step leaves. *)
Definition closed (value : string) (opening closing : ascii) : Prop :=
  startswith value opening = true -> endswith value closing = true.

(** The call items of a [tool_call] entry are sanitized: the compiler has
    nothing left to repair in them. *)
Definition items_sanitized (h : heap) (entry : TapeEntry) : Prop :=
  kind entry = "tool_call" ->
  forall lp pkvs items,
    as_dict h (payload entry) = Some (lp, pkvs) ->
    as_list h (default VNone (dict_get "calls" pkvs)) = Some items ->
    Forall (arguments_sanitized h) items.

(** ** The limits, on a tape

    What a tape must satisfy for [json] to raise nothing while it is
    compiled. *)

(** [function.arguments] is within the limits of the interpreter: a dict
    that [json.dumps] renders, a string on which [json.loads] has room
    enough (it returns or raises [ValueError]), or any other value. *)
Definition arguments_within_limits (h : heap) (args : val) : Prop :=
  match args with
  | VStr s => json_loads s <> LoadsRecursionError
  | VRef _ => is_dict h args = true -> is_Some (json_dumps h args)
  | _ => True
  end.

Definition call_within_limits (h : heap) (call : val) : Prop :=
  forall lc ckvs lf fkvs,
    as_dict h call = Some (lc, ckvs) ->
    as_dict h (default VNone (dict_get "function" ckvs)) = Some (lf, fkvs) ->
    arguments_within_limits h (default VNone (dict_get "arguments" fkvs)).

(** An integer that is not longer than the digit limit, and a store that
    holds no longer one. *)
Definition int_within_limit (v : val) : bool :=
  match v with
  | VInt z => int_digits z <=? max_str_digits
  | _ => true
  end.

Definition ints_within_limit (h : heap) : bool :=
  forallb (fun o => forallb int_within_limit (obj_values o)) h.

(** A result is a string, or a value that [json.dumps] renders. *)
Definition result_within_limits (h : heap) (result : val) : Prop :=
  match result with
  | VStr _ => True
  | _ => is_Some (json_dumps h result)
  end.

(** The call items of a [tool_call] entry and the results of a
    [tool_result] entry are within the limits. *)
Definition entry_within_limits (h : heap) (entry : TapeEntry) : Prop :=
  forall lp pkvs,
    as_dict h (payload entry) = Some (lp, pkvs) ->
    (kind entry = "tool_call" ->
     forall items, as_list h (default VNone (dict_get "calls" pkvs)) = Some items ->
       Forall (call_within_limits h) items)
    /\ (kind entry = "tool_result" ->
        forall results, as_list h (default VNone (dict_get "results" pkvs)) = Some results ->
          Forall (result_within_limits h) results).

End Program.

(** ** Examples that run the program

    They run on [cpython] and with the plain library. *)

Section Examples.
#[local] Existing Instance cpython.
#[local] Existing Instance plain_republic.

(** A registry with the tools [a.b], which requires context, and [a_b]. *)
Definition dotted_registry : ToolRegistry :=
  snd (register
         (snd (register (new_registry None)
                 "a.b" "first" None None true "builtin" echo_context))
         "a_b" "second" None None false "builtin" echo_context).

(** A registry with the tools [fs.read] and [bash]. *)
Definition tools_registry : ToolRegistry :=
  snd (register
         (snd (register (new_registry None)
                 "fs.read" "Read a file" None None false "builtin" echo_context))
         "bash" "Run a command" (Some "Runs in the workspace") None true "skill"
         echo_context).

(** The store that compiling [search_tape] leaves. *)
Definition search_compiled : heap :=
  Eval vm_compute in snd (_select_messages search_tape search_heap).

End Examples.

(* ================================================================== *)
(** * Part II: lemmas and theorems *)
(* ================================================================== *)

(** ** Running monadic code *)

Lemma bind_run {S A B} (m : M S A) (f : A -> M S B) (s : S) :
  bind m f s =
  match m s with
  | (Ret a, s') => f a s'
  | (Raise e, s') => (Raise e, s')
  end.
Proof. reflexivity. Qed.

Lemma get_state_run {S} (s : S) : get_state s = (Ret s, s).
Proof. reflexivity. Qed.

Lemma Ret_inj {A} (a b : A) : Ret a = Ret b -> a = b.
Proof. congruence. Qed.

Lemma py_get_run h d k l kvs :
  as_dict h d = Some (l, kvs) -> py_get d k h = (Ret (default VNone (dict_get k kvs)), h).
Proof. intros H. unfold py_get. now rewrite H. Qed.


(** ** The [json] codec: what the encoder writes, the scanner accepts *)

Ltac ascii_cases c := destruct c as [[] [] [] [] [] [] [] []]; try discriminate; try reflexivity.

Section Codec.
Context {interp : Interpreter}.

Lemma delim_inv rest :
  delim rest = true ->
  rest = [] \/ exists c tl, rest = c :: tl /\ (c = ","%char \/ c = "]"%char \/ c = "}"%char).
Proof.
  destruct rest as [|c tl]; [now left|]. intros Hd. right. exists c, tl. split; [reflexivity|].
  cbn in Hd. ascii_cases c; auto.
Qed.

Lemma delim_cases (P : list ascii -> Prop) :
  P [] -> (forall tl, P (","%char :: tl)) -> (forall tl, P ("]"%char :: tl)) ->
  (forall tl, P ("}"%char :: tl)) -> forall rest, delim rest = true -> P rest.
Proof.
  intros H0 H1 H2 H3 rest Hd. destruct (delim_inv rest Hd) as [->|(c & tl & -> & [->|[->| ->]])]; auto.
Qed.

Lemma skip_ws_delim rest : delim rest = true -> skip_ws rest = rest.
Proof. revert rest. apply delim_cases; reflexivity. Qed.

Lemma skip_digits_uint d rest :
  delim rest = true ->
  skip_digits (chars (NilEmpty.string_of_uint d) ++ rest) = rest.
Proof.
  intros Hd. induction d; cbn; auto.
  revert rest Hd. apply delim_cases; reflexivity.
Qed.

Lemma match_tail_delim rest : delim rest = true -> match_exp (match_frac rest) = rest.
Proof. revert rest. apply delim_cases; reflexivity. Qed.

Lemma to_uint_head p : exists c tl,
  chars (NilEmpty.string_of_uint (Pos.to_uint p)) = c :: chars (NilEmpty.string_of_uint tl)
  /\ is_digit c = true /\ Ascii.eqb c "0" = false /\ NilZero.string_of_uint (Pos.to_uint p) = NilEmpty.string_of_uint (Pos.to_uint p).
Proof.
  pose proof (Unsigned.to_of (Pos.to_uint p)) as Hto.
  rewrite Unsigned.of_to in Hto. cbn in Hto.
  pose proof (Unsigned.to_uint_nonzero p) as Hnz.
  pose proof (nzhead_nonzero (Pos.to_uint p)) as Hh.
  unfold Decimal.unorm in Hto.
  destruct (Decimal.nzhead (Pos.to_uint p)) eqn:E; rewrite Hto in *;
    [now elim Hnz | now elim (Hh u) | ..];
    eexists _, _; cbn; repeat split; reflexivity.
Qed.

(** The digits of a non-negative integer, read back as an integer part. *)
Lemma match_digits_repr z rest :
  (0 <= z)%Z -> delim rest = true ->
  match_digits (int_repr z ++ rest) = Some rest
  /\ strip_minus (int_repr z ++ rest) = int_repr z ++ rest.
Proof.
  intros Hz Hd. unfold int_repr. destruct z as [|p|p]; [| |lia];
    cbn [Z.to_int NilZero.string_of_int].
  - split; reflexivity.
  - destruct (to_uint_head p) as (c & tl & E & Hc & H0 & En). rewrite En, E.
    cbn [app match_digits strip_minus]. rewrite H0, Hc, skip_digits_uint by assumption.
    split; [reflexivity|]. replace (Ascii.eqb c "-") with false; [reflexivity|].
    clear -Hc. ascii_cases c.
Qed.

Lemma int_repr_neg p : int_repr (Z.neg p) = "-"%char :: int_repr (Z.pos p).
Proof.
  unfold int_repr. cbn [Z.to_int NilZero.string_of_int].
  destruct (to_uint_head p) as (c & tl & E & Hc & H0 & En). now rewrite En.
Qed.

Lemma scan_number_repr z rest :
  delim rest = true -> int_digits z <= max_str_digits ->
  match_number (int_repr z ++ rest) = Some (Scanned rest).
Proof.
  intros Hd Hz. unfold match_number, match_int.
  assert (Hgen : forall s, strip_minus s = int_repr (Z.abs z) ++ rest ->
            match match_digits (strip_minus s) with
            | Some r0 =>
              if (length (match_exp (match_frac r0)) =? length r0)
                 && (max_str_digits <? length (strip_minus s) - length r0)
              then Some BadText else Some (Scanned (match_exp (match_frac r0)))
            | None => None
            end = Some (Scanned rest)).
  { intros s Es. rewrite Es.
    destruct (match_digits_repr (Z.abs z) rest (Z.abs_nonneg z) Hd) as [-> _].
    rewrite (match_tail_delim _ Hd), Nat.eqb_refl, length_app.
    replace (length (int_repr (Z.abs z)) + length rest - length rest)
      with (int_digits z) by (unfold int_digits; lia).
    cbn [andb]. destruct (Nat.ltb_spec max_str_digits (int_digits z)); [lia|reflexivity]. }
  apply Hgen. destruct z as [|p|p].
  - reflexivity.
  - exact (proj2 (match_digits_repr (Z.pos p) rest ltac:(lia) Hd)).
  - rewrite int_repr_neg. reflexivity.
Qed.

Lemma int_repr_head z : exists c tl, int_repr z = c :: tl /\ value_start c = true.
Proof.
  unfold int_repr. destruct z as [|p|p]; cbn [Z.to_int NilZero.string_of_int].
  - eexists _, _. split; reflexivity.
  - destruct (to_uint_head p) as (c & tl & E & Hc & H0 & En). rewrite En, E.
    eexists _, _. split; [reflexivity|]. unfold value_start. rewrite Hc. apply orb_true_r.
  - eexists _, _. split; reflexivity.
Qed.

Lemma scan_once_int z m d rest :
  delim rest = true -> int_digits z <= max_str_digits ->
  scan_once (S m) d (int_repr z ++ rest) = Scanned rest.
Proof.
  intros Hd Hz. pose proof (scan_number_repr z rest Hd Hz) as Hn.
  destruct (int_repr_head z) as (c & tl & E & Hc). rewrite E in *.
  assert (Hdigit : is_digit c = true \/ c = "-"%char).
  { clear -E. unfold int_repr in E. destruct z as [|p|p]; cbn [Z.to_int NilZero.string_of_int] in E.
    - injection E as <- _. now left.
    - destruct (to_uint_head p) as (c' & tl' & E' & Hc' & H0 & En). rewrite En, E' in E.
      injection E as <- _. now left.
    - injection E as <- _. now right. }
  cbn [app scan_once].
  assert (Hs : scan_literal (c :: tl ++ rest) = Scanned rest).
  { unfold scan_literal. cbn [app] in Hn. now rewrite Hn. }
  destruct Hdigit as [Hdg| ->].
  - clear -Hdg Hs. revert Hs. ascii_cases c; auto.
  - exact Hs.
Qed.

Lemma scanstring_escape_char c tl :
  scanstring (escape_char c ++ tl) = scanstring tl.
Proof.
  destruct c as [[] [] [] [] [] [] [] []]; reflexivity.
Qed.

Lemma scanstring_encoded s tl :
  scanstring (flat_map escape_char s ++ "034"%char :: tl) = Some tl.
Proof.
  induction s as [|c s IH]; [reflexivity|].
  cbn [flat_map]. rewrite <- app_assoc, scanstring_escape_char. exact IH.
Qed.

Lemma value_start_skip_ws c tl : value_start c = true -> skip_ws (c :: tl) = c :: tl.
Proof. intros Hv. cbn. replace (is_ws c) with false; [reflexivity|]. clear -Hv. ascii_cases c. Qed.

Lemma value_start_not_close c :
  value_start c = true -> Ascii.eqb c "]" = false /\ Ascii.eqb c "}" = false.
Proof. intros Hv. split; clear -Hv; ascii_cases c. Qed.

Lemma scan_once_basestring s m d rest :
  scan_once (S m) d (encode_basestring s ++ rest) = Scanned rest.
Proof.
  unfold encode_basestring. cbn [app scan_once Ascii.eqb Bool.eqb].
  rewrite <- app_assoc. cbn [app]. now rewrite scanstring_encoded.
Qed.

Lemma mapM_out_cons_inv {A B} (f : A -> outcome B) l b bs :
  mapM_out f l = Ret (b :: bs) ->
  exists a l', l = a :: l' /\ f a = Ret b /\ mapM_out f l' = Ret bs.
Proof.
  destruct l as [|a l']; [discriminate|]. cbn [mapM_out].
  destruct (f a) as [b'|] eqn:Ea; [|discriminate].
  destruct (mapM_out f l') as [bs'|] eqn:El; [|discriminate].
  intros [= -> ->]. eauto.
Qed.

Lemma mapM_out_nil_inv {A B} (f : A -> outcome B) l :
  mapM_out f l = Ret [] -> l = [].
Proof.
  destruct l as [|a l']; [reflexivity|]. cbn [mapM_out].
  destruct (f a); [|discriminate]. destruct (mapM_out f l'); discriminate.
Qed.

(** What the encoder does at a container. *)
Lemma json_encode_ref d path h l :
  json_encode (S d) path h (VRef l) =
  if bool_decide (l ∈ path) then Raise circular_reference
  else
    match h !! l with
    | Some (OList xs) =>
      match mapM_out (json_encode d (l :: path) h) xs with
      | Ret parts => Ret ("["%char :: str_join (chars ", ") parts ++ ["]"%char])
      | Raise e => Raise e
      end
    | Some (ODict kvs) =>
      match mapM_out (encode_member d (l :: path) h) kvs with
      | Ret parts => Ret ("{"%char :: str_join (chars ", ") parts ++ ["}"%char])
      | Raise e => Raise e
      end
    | None => Raise circular_reference
    end.
Proof. reflexivity. Qed.

Lemma json_encode_scalar d path h v :
  (forall l, v <> VRef l) ->
  json_encode d path h v =
  match v with
  | VNone => Ret (chars "null")
  | VBool true => Ret (chars "true")
  | VBool false => Ret (chars "false")
  | VInt z =>
    if max_str_digits <? int_digits z then Raise exceeds_digit_limit
    else Ret (int_repr z)
  | VStr s => Ret (encode_basestring s)
  | VRef _ => Raise RecursionError
  end.
Proof. intros Hv. destruct d, v as [| [] | | |l]; try reflexivity; now elim (Hv l). Qed.

Lemma encode_head d path h v out :
  json_encode d path h v = Ret out -> exists c tl, out = c :: tl /\ value_start c = true.
Proof.
  destruct v as [| [] | z | s | l].
  1-3: rewrite json_encode_scalar by discriminate; intros [= <-];
       eexists _, _; split; reflexivity.
  - rewrite json_encode_scalar by discriminate.
    destruct (max_str_digits <? int_digits z); [discriminate|].
    intros [= <-]. apply int_repr_head.
  - rewrite json_encode_scalar by discriminate. intros [= <-].
    eexists _, _; split; reflexivity.
  - destruct d as [|d]; [discriminate|]. rewrite json_encode_ref.
    destruct (bool_decide (l ∈ path)); [discriminate|].
    destruct (h !! l) as [[kvs|xs]|]; [| |discriminate].
    + destruct (mapM_out _ kvs); [|discriminate]. intros [= <-].
      eexists _, _; split; reflexivity.
    + destruct (mapM_out _ xs); [|discriminate]. intros [= <-].
      eexists _, _; split; reflexivity.
Qed.

Lemma str_join_head sep c tl ps : exists tl', str_join sep ((c :: tl) :: ps) = c :: tl'.
Proof. destruct ps; cbn; eauto. Qed.

Section Roundtrip.
Variable h : heap.
Variable n : nat.
Variable path : list loc.
Hypothesis IH : forall v out, json_encode n path h v = Ret out ->
  forall m rest, length out <= m -> delim rest = true ->
  scan_once m n (out ++ rest) = Scanned rest.

Lemma JSONArray_elements xs : forall parts,
  mapM_out (json_encode n path h) xs = Ret parts -> parts <> [] ->
  forall m rest, length (str_join (chars ", ") parts) < m ->
  JSONArray m n (str_join (chars ", ") parts ++ "]"%char :: rest) = Scanned rest.
Proof.
  induction xs as [|x xs IHxs]; intros parts Hm Hne m rest Hlen.
  { cbn in Hm. injection Hm as <-. congruence. }
  cbn [mapM_out] in Hm. destruct (json_encode n path h x) as [p|] eqn:Ex; [|discriminate].
  destruct (mapM_out (json_encode n path h) xs) as [ps|] eqn:Exs; [|discriminate].
  injection Hm as <-.
  destruct m as [|m]; [lia|]. cbn [JSONArray].
  destruct ps as [|p2 ps].
  - cbn [str_join] in *.
    rewrite (IH _ _ Ex m ("]"%char :: rest)); [reflexivity|lia|reflexivity].
  - change (str_join (chars ", ") (p :: p2 :: ps))
      with (p ++ chars ", " ++ str_join (chars ", ") (p2 :: ps)) in *.
    rewrite !length_app in Hlen. change (length (chars ", ")) with 2 in Hlen.
    rewrite <- !app_assoc. cbn [chars list_ascii_of_string app].
    rewrite (IH _ _ Ex m); [|lia|reflexivity].
    cbn [skip_ws is_ws Ascii.eqb Bool.eqb].
    specialize (IHxs (p2 :: ps) eq_refl ltac:(discriminate) m rest ltac:(lia)).
    assert (Hq : exists c tl, p2 = c :: tl /\ value_start c = true).
    { destruct (mapM_out_cons_inv _ _ _ _ Exs) as (x2 & xs' & _ & Ex2 & _).
      exact (encode_head _ _ _ _ _ Ex2). }
    destruct Hq as (c & tl & -> & Hc).
    destruct (str_join_head (chars ", ") c tl ps) as [tl' E].
    change [","%char; " "%char] with (chars ", "). rewrite E in *. cbn [app] in *.
    change (skip_ws (c :: tl' ++ "]"%char :: rest)) with (skip_ws (c :: (tl' ++ "]"%char :: rest))).
    rewrite (value_start_skip_ws _ _ Hc). exact IHxs.
Qed.

Lemma JSONObject_members kvs : forall parts,
  mapM_out (encode_member n path h) kvs = Ret parts -> parts <> [] ->
  forall m rest, length (str_join (chars ", ") parts) < m ->
  JSONObject m n (str_join (chars ", ") parts ++ "}"%char :: rest) = Scanned rest.
Proof.
  induction kvs as [|[k v] kvs IHkvs]; intros parts Hm Hne m rest Hlen.
  { cbn in Hm. injection Hm as <-. congruence. }
  cbn [mapM_out] in Hm. unfold encode_member at 1 in Hm.
  change ((k, v).1) with k in Hm; change ((k, v).2) with v in Hm.
  destruct (json_encode n path h v) as [p|] eqn:Ev; [|discriminate].
  destruct (mapM_out (encode_member n path h) kvs) as [ps|] eqn:Ekvs; [|discriminate].
  apply Ret_inj in Hm. subst parts.
  destruct m as [|m]; [lia|].
  destruct (encode_head _ _ _ _ _ Ev) as (c & tl & -> & Hc).
  assert (Hmember : forall tail, delim tail = true -> length (c :: tl) <= m ->
    JSONObject (S m) n ((encode_basestring k ++ chars ": " ++ c :: tl) ++ tail) =
    match tail with
    | c4 :: r4 =>
      if Ascii.eqb c4 "}" then Scanned r4
      else if Ascii.eqb c4 "," then JSONObject m n (skip_ws r4) else BadText
    | [] => BadText
    end).
  { intros tail Ht Hl. unfold encode_basestring.
    cbn [JSONObject app Ascii.eqb Bool.eqb].
    rewrite <- !app_assoc. cbn [app chars list_ascii_of_string].
    rewrite scanstring_encoded.
    change (skip_ws (":"%char :: ?s)) with (":"%char :: s). cbn match. cbn [Ascii.eqb Bool.eqb].
    change (skip_ws (" "%char :: c :: tl ++ tail)) with (skip_ws (c :: (tl ++ tail))).
    rewrite (value_start_skip_ws _ _ Hc).
    change (c :: tl ++ tail) with ((c :: tl) ++ tail).
    rewrite (IH _ _ Ev m tail Hl Ht), (skip_ws_delim _ Ht). reflexivity. }
  destruct ps as [|p2 ps].
  - change (str_join (chars ", ") [?a]) with a in *. rewrite !length_app in Hlen.
    rewrite Hmember; [reflexivity|reflexivity|lia].
  - change (str_join (chars ", ") (?a :: p2 :: ps))
      with (a ++ chars ", " ++ str_join (chars ", ") (p2 :: ps)) in *.
    rewrite !length_app in Hlen. change (length (chars ", ")) with 2 in Hlen.
    rewrite <- (app_assoc _ _ ("}"%char :: rest)).
    rewrite Hmember; [|reflexivity|lia].
    cbn [app chars list_ascii_of_string Ascii.eqb Bool.eqb].
    specialize (IHkvs (p2 :: ps) eq_refl ltac:(discriminate) m rest ltac:(lia)).
    assert (E : exists tl', str_join (chars ", ") (p2 :: ps) = "034"%char :: tl').
    { destruct (mapM_out_cons_inv _ _ _ _ Ekvs) as (kv2 & kvs' & _ & E2 & _).
      unfold encode_member in E2. destruct (json_encode n path h kv2.2); [|discriminate].
      apply Ret_inj in E2. subst p2. apply str_join_head. }
    destruct E as [tl' E]. change [","%char; " "%char] with (chars ", ").
    rewrite E in *. exact IHkvs.
Qed.
End Roundtrip.

(** The scanner, with the room that the encoder had, reads back what the
    encoder wrote. *)
Lemma scan_once_encode h d : forall path v out, json_encode d path h v = Ret out ->
  forall m rest, length out <= m -> delim rest = true ->
  scan_once m d (out ++ rest) = Scanned rest.
Proof.
  assert (Hscalar : forall d path v out, (forall l, v <> VRef l) ->
    json_encode d path h v = Ret out ->
    forall m rest, length out <= m -> delim rest = true ->
    scan_once m d (out ++ rest) = Scanned rest).
  { clear d. intros d path v out Hv He m rest Hlen Hd.
    destruct (encode_head _ _ _ _ _ He) as (c0 & tl0 & E0 & _).
    destruct m as [|m]; [subst out; cbn in Hlen; lia|]. clear c0 tl0 E0.
    rewrite json_encode_scalar in He by assumption.
    destruct v as [| [] | z | s | l].
    1-3: injection He as <-; revert rest Hd; apply delim_cases; reflexivity.
    - destruct (Nat.ltb_spec max_str_digits (int_digits z)); [discriminate|].
      injection He as <-. now apply scan_once_int.
    - injection He as <-. apply scan_once_basestring.
    - now elim (Hv l). }
  induction d as [|d IH]; intros path v out He m rest Hlen Hd.
  { destruct v as [| | | |l]; try (eapply Hscalar; eauto; discriminate); discriminate. }
  destruct v as [| | | |l]; try (eapply Hscalar; eauto; discriminate).
  destruct (encode_head _ _ _ _ _ He) as (c0 & tl0 & E0 & _).
  destruct m as [|m]; [subst out; cbn in Hlen; lia|]. clear c0 tl0 E0.
  rewrite json_encode_ref in He.
  destruct (bool_decide (l ∈ path)); [discriminate|].
  destruct (h !! l) as [[kvs|xs]|]; [| |discriminate].
  - destruct (mapM_out (encode_member d (l :: path) h) kvs) as [parts|] eqn:Em; [|discriminate].
    apply Ret_inj in He. subst out. cbn [app scan_once Ascii.eqb Bool.eqb].
    destruct parts as [|p ps]; [reflexivity|].
    rewrite <- app_assoc. cbn [app].
    assert (E : exists tl', str_join (chars ", ") (p :: ps) = "034"%char :: tl').
    { destruct (mapM_out_cons_inv _ _ _ _ Em) as (kv2 & kvs' & _ & E2 & _).
      unfold encode_member in E2. destruct (json_encode d (l :: path) h kv2.2); [|discriminate].
      apply Ret_inj in E2. subst p. apply str_join_head. }
    destruct E as [tl' E].
    pose proof (JSONObject_members h d (l :: path) (IH (l :: path)) kvs _ Em
                  ltac:(discriminate) m rest) as HO.
    cbn [length] in Hlen. rewrite length_app in Hlen; cbn [length] in Hlen.
    rewrite E in *. cbn [app skip_ws is_ws Ascii.eqb Bool.eqb] in *.
    apply HO. lia.
  - destruct (mapM_out (json_encode d (l :: path) h) xs) as [parts|] eqn:Em; [|discriminate].
    apply Ret_inj in He. subst out. cbn [app scan_once Ascii.eqb Bool.eqb].
    destruct parts as [|p ps]; [reflexivity|].
    rewrite <- app_assoc. cbn [app].
    assert (E : exists c tl', str_join (chars ", ") (p :: ps) = c :: tl' /\ value_start c = true).
    { destruct (mapM_out_cons_inv _ _ _ _ Em) as (x2 & xs' & _ & Ex2 & _).
      destruct (encode_head _ _ _ _ _ Ex2) as (c & tl & -> & Hc).
      destruct (str_join_head (chars ", ") c tl ps) as [tl' E]. eauto. }
    destruct E as (c & tl' & E & Hc).
    pose proof (JSONArray_elements h d (l :: path) (IH (l :: path)) xs _ Em
                  ltac:(discriminate) m rest) as HA.
    cbn [length] in Hlen. rewrite length_app in Hlen; cbn [length] in Hlen.
    rewrite E in *. cbn [app] in *.
    rewrite (value_start_skip_ws _ _ Hc).
    destruct (value_start_not_close _ Hc) as [-> _].
    apply HA. lia.
Qed.

Lemma json_dumps_Some h v s :
  json_dumps h v = Some s <->
  exists out, json_encode (S nesting_limit) [] h v = Ret out /\ s = string_of_list_ascii out.
Proof.
  unfold json_dumps, json_dumps_run.
  destruct (json_encode (S nesting_limit) [] h v) as [out|e]; split.
  - intros [= <-]. eauto.
  - intros (out' & [= <-] & ->). reflexivity.
  - discriminate.
  - intros (out' & E & _). discriminate.
Qed.

Lemma json_dumps_run_Some h v s : json_dumps h v = Some s -> json_dumps_run h v = Ret s.
Proof. unfold json_dumps. destruct (json_dumps_run h v); congruence. Qed.

Lemma json_dumps_run_None h v :
  json_dumps h v = None -> exists e, json_dumps_run h v = Raise e.
Proof. unfold json_dumps. destruct (json_dumps_run h v); [discriminate|eauto]. Qed.

Lemma json_loads_ok_iff s : json_loads_ok s = true <-> json_loads s = LoadsReturns.
Proof. unfold json_loads_ok. destruct (json_loads s); split; congruence. Qed.

(** [json.loads] returns on what [json.dumps] returns. *)
Theorem json_loads_dumps h v s : json_dumps h v = Some s -> json_loads_ok s = true.
Proof.
  intros (out & E & ->)%json_dumps_Some. unfold json_loads_ok, json_loads.
  unfold chars. rewrite list_ascii_of_string_of_list_ascii.
  destruct (encode_head _ _ _ _ _ E) as (c & tl & -> & Hc).
  rewrite (value_start_skip_ws _ _ Hc).
  pose proof (scan_once_encode _ _ _ _ _ E (S (length (c :: tl))) [] ltac:(lia) eq_refl) as Hs.
  rewrite app_nil_r in Hs. rewrite Hs. reflexivity.
Qed.

Lemma json_loads_empty_object : json_loads "{}" = LoadsReturns.
Proof. reflexivity. Qed.

End Codec.

(** ** Dicts and the store *)

Lemma dict_get_set_eq {V} k (v : V) d : dict_get k (dict_set k v d) = Some v.
Proof.
  induction d as [|[k' v'] d IH]; cbn.
  - now rewrite String.eqb_refl.
  - destruct (String.eqb k k') eqn:E; cbn; rewrite ?String.eqb_refl, ?E; auto.
Qed.

Lemma dict_get_set_ne {V} k k' (v : V) d :
  k <> k' -> dict_get k' (dict_set k v d) = dict_get k' d.
Proof.
  intros Hne. induction d as [|[k0 v0] d IH]; cbn.
  - destruct (String.eqb_spec k' k); congruence.
  - destruct (String.eqb_spec k k0) as [->|Hk]; cbn.
    + destruct (String.eqb_spec k' k0); congruence.
    + destruct (String.eqb_spec k' k0); auto.
Qed.

Lemma as_dict_Some h v l kvs :
  as_dict h v = Some (l, kvs) -> v = VRef l /\ h !! l = Some (ODict kvs).
Proof.
  destruct v as [| | | |l']; try discriminate. cbn.
  destruct (h !! l') as [[kvs'|]|] eqn:E; try discriminate.
  intros [= <- <-]. auto.
Qed.

Lemma as_dict_insert h lf kvs kvs' v :
  h !! lf = Some (ODict kvs) ->
  as_dict (<[lf := ODict kvs']> h) v =
  match as_dict h v with
  | Some (l, d) => Some (l, if Nat.eqb l lf then kvs' else d)
  | None => None
  end.
Proof.
  intros Hlf. destruct v as [| | | |l]; try reflexivity. unfold as_dict.
  destruct (Nat.eqb_spec l lf) as [->|Hne].
  - rewrite list_lookup_insert_eq by (eapply lookup_lt_Some; eauto).
    rewrite Hlf. now rewrite Nat.eqb_refl.
  - rewrite list_lookup_insert_ne by congruence.
    destruct (h !! l) as [[d|]|]; try reflexivity.
    destruct (Nat.eqb_spec l lf); congruence.
Qed.

Lemma as_dict_app h ext v :
  in_store h v -> as_dict (h ++ ext) v = as_dict h v.
Proof.
  destruct v as [| | | |l]; try reflexivity. unfold in_store, as_dict, as_list, val_below.
  intros Hl%Nat.ltb_lt. now rewrite lookup_app_l.
Qed.

Lemma as_list_app h ext v :
  in_store h v -> as_list (h ++ ext) v = as_list h v.
Proof.
  destruct v as [| | | |l]; try reflexivity. unfold in_store, as_dict, as_list, val_below.
  intros Hl%Nat.ltb_lt. now rewrite lookup_app_l.
Qed.

Lemma val_below_mono n m v : n <= m -> val_below n v = true -> val_below m v = true.
Proof.
  destruct v; cbn; auto. intros Hle H%Nat.ltb_lt. apply Nat.ltb_lt. lia.
Qed.

Lemma obj_below_mono n m o : n <= m -> obj_below n o = true -> obj_below m o = true.
Proof.
  intros Hle. destruct o as [kvs|xs]; cbn; rewrite !forallb_forall;
    intros H x Hx; eapply val_below_mono; eauto.
Qed.

Lemma heap_below_lookup h : forall n l o,
  heap_below n h = true -> h !! l = Some o -> obj_below (n + l) o = true.
Proof.
  induction h as [|o' h IH]; intros n l o Hb Hl; [discriminate|].
  cbn in Hb. apply andb_true_iff in Hb as [Ho Hh].
  destruct l as [|l]; cbn in Hl.
  - injection Hl as <-. now rewrite Nat.add_0_r.
  - replace (n + S l) with (S n + l) by lia. eauto.
Qed.

Lemma heap_below_app h : forall n o,
  heap_below n (h ++ [o]) = heap_below n h && obj_below (n + length h) o.
Proof.
  induction h as [|o' h IH]; intros n o; cbn.
  - now rewrite Nat.add_0_r, andb_true_r.
  - rewrite IH, andb_assoc, <- plus_n_Sm. reflexivity.
Qed.

Lemma heap_below_insert h : forall n l o o',
  heap_below n h = true -> h !! l = Some o -> obj_below (n + l) o' = true ->
  heap_below n (<[l := o']> h) = true.
Proof.
  induction h as [|o0 h IH]; intros n l o o' Hb Hl Ho'; [discriminate|].
  cbn in Hb. apply andb_true_iff in Hb as [Ho Hh].
  destruct l as [|l]; cbn in *.
  - rewrite Nat.add_0_r in Ho'. now rewrite Ho', Hh.
  - rewrite Ho. cbn. eapply IH; eauto. now replace (S n + l) with (n + S l) by lia.
Qed.

Lemma stratified_lookup h l o :
  stratified h -> h !! l = Some o -> obj_below l o = true.
Proof. intros Hs Hl. exact (heap_below_lookup h 0 l o Hs Hl). Qed.

Lemma stratified_alloc h o :
  stratified h -> obj_below (length h) o = true -> stratified (h ++ [o]).
Proof. unfold stratified. intros Hs Ho. rewrite heap_below_app, Hs. exact Ho. Qed.

Lemma stratified_insert h l o o' :
  stratified h -> h !! l = Some o -> obj_below l o' = true -> stratified (<[l := o']> h).
Proof. intros Hs Hl Ho'. exact (heap_below_insert h 0 l o o' Hs Hl Ho'). Qed.

Lemma dict_set_below n k v kvs :
  val_below n v = true ->
  forallb (fun kv => val_below n (snd kv)) kvs = true ->
  forallb (fun kv => val_below n (snd kv)) (dict_set k v kvs) = true.
Proof.
  intros Hv. induction kvs as [|[k' v'] kvs IH]; cbn.
  - now rewrite Hv.
  - intros [Hv' Hk]%andb_true_iff. destruct (String.eqb k k'); cbn.
    + now rewrite Hv, Hk.
    + now rewrite Hv', IH.
Qed.

Lemma dict_get_below {n k} {v : val} {kvs} :
  forallb (fun kv => val_below n (snd kv)) kvs = true ->
  dict_get k kvs = Some v -> val_below n v = true.
Proof.
  induction kvs as [|[k' v'] kvs IH]; cbn; [discriminate|].
  intros [Hv' Hk]%andb_true_iff. destruct (String.eqb k k'); [|auto].
  now intros [= <-].
Qed.

(** A value read from an object of a stratified store is in the store. *)
Lemma stratified_dict_field h l kvs k :
  stratified h -> h !! l = Some (ODict kvs) ->
  val_below l (default VNone (dict_get k kvs)) = true.
Proof.
  intros Hs Hl. pose proof (stratified_lookup _ _ _ Hs Hl) as Hb. cbn in Hb.
  destruct (dict_get k kvs) as [v'|] eqn:E; [|reflexivity]. cbn.
  exact (dict_get_below Hb E).
Qed.

Lemma in_store_app h ext v : in_store h v -> in_store (h ++ ext) v.
Proof.
  unfold in_store. intros H. eapply val_below_mono; [|exact H].
  rewrite length_app. lia.
Qed.

Lemma as_dict_in_store h v l kvs : as_dict h v = Some (l, kvs) -> in_store h v.
Proof.
  intros H. destruct (as_dict_Some _ _ _ _ H) as [-> Hl].
  unfold in_store, val_below. apply Nat.ltb_lt. eapply lookup_lt_Some; eauto.
Qed.

Lemma stratified_field_in_store h v l kvs k :
  stratified h -> as_dict h v = Some (l, kvs) ->
  in_store h (default VNone (dict_get k kvs)).
Proof.
  intros Hs H. destruct (as_dict_Some _ _ _ _ H) as [-> Hl].
  unfold in_store. eapply val_below_mono; [|exact (stratified_dict_field h l kvs k Hs Hl)].
  apply Nat.lt_le_incl. eapply lookup_lt_Some; eauto.
Qed.



(** ** The encoder and the store *)

Lemma mapM_out_ext {A B} (f g : A -> outcome B) l :
  (forall a, In a l -> f a = g a) -> mapM_out f l = mapM_out g l.
Proof.
  induction l as [|a l IH]; intros Hfg; [reflexivity|]. cbn [mapM_out].
  rewrite (Hfg a) by now left. rewrite IH; [reflexivity|].
  intros a' Ha'. apply Hfg. now right.
Qed.

Lemma mapM_out_returns {A B} (f : A -> outcome B) l :
  (forall a, In a l -> exists b, f a = Ret b) -> exists bs, mapM_out f l = Ret bs.
Proof.
  induction l as [|a l IH]; intros Hf; cbn [mapM_out]; [eauto|].
  destruct (Hf a (or_introl eq_refl)) as [b ->].
  destruct IH as [bs ->]; [intros; apply Hf; now right|]. eauto.
Qed.

Lemma mapM_out_In {A B} (f : A -> outcome B) l bs a :
  mapM_out f l = Ret bs -> In a l -> exists b, f a = Ret b.
Proof.
  revert bs. induction l as [|a0 l IH]; intros bs Hm Hin; [destruct Hin|].
  cbn [mapM_out] in Hm. destruct (f a0) as [b0|] eqn:E0; [|discriminate].
  destruct (mapM_out f l) as [bs0|]; [|discriminate].
  destruct Hin as [<-|Hin]; eauto.
Qed.

Lemma mapM_out_raises {A B} (f : A -> outcome B) l a e :
  In a l -> f a = Raise e -> exists e', mapM_out f l = Raise e'.
Proof.
  induction l as [|a0 l IH]; intros Hin Hf; [destruct Hin|].
  cbn [mapM_out]. destruct Hin as [->|Hin].
  - rewrite Hf. eauto.
  - destruct (f a0); [|eauto]. destruct (IH Hin Hf) as [e' ->]. eauto.
Qed.

Lemma mapM_out_Raise_inv {A B} (f : A -> outcome B) l e :
  mapM_out f l = Raise e -> exists a, In a l /\ f a = Raise e.
Proof.
  induction l as [|a0 l IH]; [discriminate|]. cbn [mapM_out].
  destruct (f a0) as [b0|e0] eqn:E0.
  - destruct (mapM_out f l) as [bs|e1]; [discriminate|]. intros [= <-].
    destruct (IH eq_refl) as (a & Ha & Hf). exists a. split; [now right|exact Hf].
  - intros [= <-]. exists a0. split; [now left|exact E0].
Qed.

Lemma stratified_values h l o v :
  stratified h -> h !! l = Some o -> In v (obj_values o) -> val_below l v = true.
Proof.
  intros Hs Hl Hin. pose proof (stratified_lookup _ _ _ Hs Hl) as Hb.
  destruct o as [kvs|xs]; cbn in Hb, Hin; rewrite forallb_forall in Hb.
  - apply in_map_iff in Hin as (kv & <- & Hkv). exact (Hb kv Hkv).
  - exact (Hb v Hin).
Qed.

Lemma stratified_values_in_store h l o v :
  stratified h -> h !! l = Some o -> In v (obj_values o) -> in_store h v.
Proof.
  intros Hs Hl Hin. unfold in_store.
  eapply val_below_mono; [|exact (stratified_values h l o v Hs Hl Hin)].
  apply Nat.lt_le_incl. eapply lookup_lt_Some; eauto.
Qed.

Lemma dict_set_values {V} k (v : V) d kv :
  In kv (dict_set k v d) -> kv = (k, v) \/ In kv d.
Proof.
  induction d as [|[k' v'] d IH]; cbn [dict_set].
  - intros [<-|[]]. now left.
  - destruct (String.eqb k k').
    + intros [<-|Hin]; [now left|right; now right].
    + intros [<-|Hin]; [right; now left|].
      destruct (IH Hin) as [->|Hd]; [now left|right; now right].
Qed.

Lemma dict_set_twice {V} k (v1 v2 : V) d :
  dict_set k v2 (dict_set k v1 d) = dict_set k v2 d.
Proof.
  induction d as [|[k' v'] d IH]; cbn [dict_set].
  - now rewrite String.eqb_refl.
  - destruct (String.eqb k k') eqn:E; cbn [dict_set]; rewrite ?String.eqb_refl, ?E;
      [reflexivity|now rewrite IH].
Qed.

Section Encoding.
Context {interp : Interpreter}.


(** Objects that are added to a stratified store do not change what the
    encoder does with a value of the store. *)
Lemma json_encode_app h ext : stratified h -> forall d path v,
  in_store h v -> json_encode d path (h ++ ext) v = json_encode d path h v.
Proof.
  intros Hs. induction d as [|d IH]; intros path v Hv.
  { destruct v as [| [] | | |l]; reflexivity. }
  destruct v as [| [] | | |l]; try reflexivity.
  rewrite !json_encode_ref. unfold in_store, val_below in Hv. apply Nat.ltb_lt in Hv.
  rewrite lookup_app_l by assumption.
  destruct (bool_decide (l ∈ path)); [reflexivity|].
  destruct (h !! l) as [[kvs|xs]|] eqn:Hl; [| |reflexivity].
  - rewrite (mapM_out_ext (encode_member d (l :: path) (h ++ ext))
               (encode_member d (l :: path) h)); [reflexivity|].
    intros kv Hkv. unfold encode_member. rewrite IH; [reflexivity|].
    eapply stratified_values_in_store; eauto. cbn. apply in_map_iff. eauto.
  - rewrite (mapM_out_ext (json_encode d (l :: path) (h ++ ext))
               (json_encode d (l :: path) h)); [reflexivity|].
    intros x Hx. apply IH. eapply stratified_values_in_store; eauto.
Qed.

(** What the encoder raises. *)
Lemma json_encode_raises h : forall d path v e,
  json_encode d path h v = Raise e ->
  e = RecursionError \/ e = circular_reference \/ e = exceeds_digit_limit.
Proof.
  assert (Hint : forall d path z e, json_encode d path h (VInt z) = Raise e ->
            e = exceeds_digit_limit).
  { intros d path z e Hv. rewrite json_encode_scalar in Hv by discriminate.
    destruct (max_str_digits <? int_digits z); [|discriminate]. now injection Hv as <-. }
  induction d as [|d IH]; intros path v e Hv.
  { destruct v as [| [] |z | |l]; try discriminate.
    - apply Hint in Hv. auto.
    - injection Hv as <-. auto. }
  destruct v as [| [] |z | |l]; try discriminate.
  - apply Hint in Hv. auto.
  - rewrite json_encode_ref in Hv.
    destruct (bool_decide (l ∈ path)); [injection Hv as <-; auto|].
    destruct (h !! l) as [[kvs|xs]|]; [| |injection Hv as <-; auto].
    + destruct (mapM_out (encode_member d (l :: path) h) kvs) as [parts|e0] eqn:Em;
        [discriminate|]. injection Hv as <-.
      apply mapM_out_Raise_inv in Em as (kv & _ & Hkv). unfold encode_member in Hkv.
      destruct (json_encode d (l :: path) h (snd kv)) as [o1|e1] eqn:E1; [discriminate|].
      injection Hkv as <-. eauto.
    + destruct (mapM_out (json_encode d (l :: path) h) xs) as [parts|e0] eqn:Em;
        [discriminate|]. injection Hv as <-.
      apply mapM_out_Raise_inv in Em as (x & _ & Hx). eauto.
Qed.

Lemma json_dumps_run_raises h v e :
  json_dumps_run h v = Raise e ->
  e = RecursionError \/ e = circular_reference \/ e = exceeds_digit_limit.
Proof.
  unfold json_dumps_run.
  destruct (json_encode (S nesting_limit) [] h v) as [out|e0] eqn:E; [discriminate|].
  intros [= <-]. eapply json_encode_raises; eauto.
Qed.

Lemma json_dumps_app h ext v :
  stratified h -> in_store h v -> json_dumps (h ++ ext) v = json_dumps h v.
Proof.
  intros Hs Hv. unfold json_dumps, json_dumps_run. now rewrite json_encode_app.
Qed.

End Encoding.

(** ** Sanitization *)

Section Sanitization.
Context {interp : Interpreter}.

(** What [_sanitize_tool_call] does, case by case. *)
Lemma sanitize_cases call h :
  _sanitize_tool_call call h =
  match as_dict h call with
  | None => (Raise AttributeError, h)
  | Some (_, ckvs) =>
    match as_dict h (default VNone (dict_get "function" ckvs)) with
    | None => (Ret call, h)
    | Some (lf, fkvs) =>
      let write s := (Ret call, <[lf := ODict (dict_set "arguments" (VStr s) fkvs)]> h) in
      match default VNone (dict_get "arguments" fkvs) with
      | VRef la =>
        match as_dict h (VRef la) with
        | Some _ =>
          match json_dumps_run h (VRef la) with
          | Ret s => write s
          | Raise e => (Raise e, h)
          end
        | None => (Ret call, h)
        end
      | VStr s =>
        match json_loads s with
        | LoadsReturns => (Ret call, h)
        | LoadsValueError => write "{}"
        | LoadsRecursionError => (Raise RecursionError, h)
        end
      | VNone => write "{}"
      | _ => (Ret call, h)
      end
    end
  end.
Proof.
  unfold _sanitize_tool_call, bind, py_get, get_state, ret.
  destruct (as_dict h call) as [[lc ckvs]|]; [|reflexivity].
  destruct (as_dict h (default VNone (dict_get "function" ckvs))) as [[lf fkvs]|] eqn:Ef;
    [|reflexivity].
  destruct (as_dict_Some _ _ _ _ Ef) as [Efun Hlf]. rewrite Efun in *.
  assert (Hset : forall v, py_setitem (VRef lf) "arguments" v h =
            (Ret tt, <[lf := ODict (dict_set "arguments" v fkvs)]> h)).
  { intros v. unfold py_setitem. now rewrite Ef. }
  rewrite Ef. cbv beta iota.
  destruct (default VNone (dict_get "arguments" fkvs)) as [| b | z | s | la];
    cbv beta iota; try reflexivity.
  - now rewrite Hset.
  - destruct (json_loads s); try reflexivity. now rewrite Hset.
  - destruct (as_dict h (VRef la)) as [[? ?]|]; cbv beta iota; [|reflexivity].
    unfold json_dumps_m. destruct (json_dumps_run h (VRef la)) as [s|]; [|reflexivity].
    now rewrite Hset.
Qed.

Lemma call_arguments_insert h call lc ckvs lf fkvs v :
  as_dict h call = Some (lc, ckvs) ->
  as_dict h (default VNone (dict_get "function" ckvs)) = Some (lf, fkvs) ->
  call_arguments (<[lf := ODict (dict_set "arguments" v fkvs)]> h) call = Some v.
Proof.
  intros Ec Ef. destruct (as_dict_Some _ _ _ _ Ef) as [Efun Hlf].
  destruct (as_dict_Some _ _ _ _ Ec) as [-> Hlc].
  unfold call_arguments. rewrite (as_dict_insert _ _ _ _ _ Hlf), Ec.
  assert (Hfun : dict_get "function"
            (if Nat.eqb lc lf then dict_set "arguments" v fkvs else ckvs) =
            Some (VRef lf)).
  { destruct (dict_get "function" ckvs) as [f|] eqn:Eg; [|discriminate]. cbn in Efun.
    subst f. destruct (Nat.eqb_spec lc lf) as [->|]; [|assumption].
    rewrite dict_get_set_ne by discriminate. congruence. }
  rewrite Hfun, (as_dict_insert _ _ _ _ _ Hlf).
  rewrite Efun in Ef. rewrite Ef, Nat.eqb_refl. apply dict_get_set_eq.
Qed.

Lemma call_arguments_get h call lc ckvs lf fkvs :
  as_dict h call = Some (lc, ckvs) ->
  as_dict h (default VNone (dict_get "function" ckvs)) = Some (lf, fkvs) ->
  call_arguments h call = dict_get "arguments" fkvs.
Proof.
  intros Ec Ef. unfold call_arguments. rewrite Ec.
  destruct (dict_get "function" ckvs) as [f|]; [|discriminate].
  cbn [from_option id] in Ef. now rewrite Ef.
Qed.

(** After a write of a text that parses, sanitizing again changes nothing. *)
Lemma sanitize_after_write h call lc ckvs lf fkvs s :
  as_dict h call = Some (lc, ckvs) ->
  as_dict h (default VNone (dict_get "function" ckvs)) = Some (lf, fkvs) ->
  json_loads s = LoadsReturns ->
  let h' := <[lf := ODict (dict_set "arguments" (VStr s) fkvs)]> h in
  _sanitize_tool_call call h' = (Ret call, h').
Proof.
  intros Ec Ef Hs h'. destruct (as_dict_Some _ _ _ _ Ef) as [Efun Hlf].
  destruct (as_dict_Some _ _ _ _ Ec) as [-> Hlc].
  rewrite sanitize_cases. subst h'. rewrite (as_dict_insert _ _ _ _ _ Hlf), Ec.
  assert (Hfun : dict_get "function"
            (if Nat.eqb lc lf then dict_set "arguments" (VStr s) fkvs else ckvs) =
            Some (VRef lf)).
  { destruct (dict_get "function" ckvs) as [f|] eqn:Eg; [|discriminate]. cbn in Efun.
    subst f. destruct (Nat.eqb_spec lc lf) as [->|]; [|assumption].
    rewrite dict_get_set_ne by discriminate. congruence. }
  rewrite Hfun. cbn [from_option id]. rewrite (as_dict_insert _ _ _ _ _ Hlf).
  rewrite Efun in Ef. rewrite Ef, Nat.eqb_refl, dict_get_set_eq. cbn [from_option id].
  now rewrite Hs.
Qed.

(** A call that [_sanitize_tool_call] returns is the one it was given, and
    sanitizing it again returns it with the store as it is. *)
Lemma sanitize_fixpoint call h c h' :
  _sanitize_tool_call call h = (Ret c, h') ->
  c = call /\ _sanitize_tool_call call h' = (Ret call, h').
Proof.
  intros H. pose proof H as H0. rewrite sanitize_cases in H.
  destruct (as_dict h call) as [[lc ckvs]|] eqn:Ec; [|discriminate].
  destruct (as_dict h (default VNone (dict_get "function" ckvs))) as [[lf fkvs]|] eqn:Ef.
  2:{ injection H as <- <-. split; [reflexivity|]. exact H0. }
  cbv zeta in H.
  destruct (default VNone (dict_get "arguments" fkvs)) as [| b | z | s | la] eqn:Ea.
  - injection H as <- <-. split; [reflexivity|].
    exact (sanitize_after_write h call lc ckvs lf fkvs "{}" Ec Ef json_loads_empty_object).
  - injection H as <- <-. split; [reflexivity|]. exact H0.
  - injection H as <- <-. split; [reflexivity|]. exact H0.
  - destruct (json_loads s) eqn:Es; [| |discriminate]; injection H as <- <-;
      (split; [reflexivity|]).
    + exact H0.
    + exact (sanitize_after_write h call lc ckvs lf fkvs "{}" Ec Ef json_loads_empty_object).
  - destruct (as_dict h (VRef la)) as [[? ?]|] eqn:Eargs.
    2:{ injection H as <- <-. split; [reflexivity|]. exact H0. }
    destruct (json_dumps_run h (VRef la)) as [s|] eqn:Ed; [|discriminate].
    injection H as <- <-. split; [reflexivity|].
    apply (sanitize_after_write h call lc ckvs lf fkvs s); auto.
    apply json_loads_ok_iff, (json_loads_dumps h (VRef la)).
    unfold json_dumps. now rewrite Ed.
Qed.

(** C8: sanitization is idempotent.  Running [_sanitize_tool_call] on the
    call that a first run returned gives the outcome and the store of the
    first run, so [function.arguments] after two runs is what it is after
    one.  A run that raises leaves the store as it found it. *)
Theorem sanitize_tool_call_idempotent (call : val) (h : heap) :
  let once := _sanitize_tool_call call h in
  let twice := (let* c := _sanitize_tool_call call in _sanitize_tool_call c) h in
  twice = once /\ call_arguments (snd twice) call = call_arguments (snd once) call.
Proof.
  cbv zeta. assert (E : (let* c := _sanitize_tool_call call in _sanitize_tool_call c) h
                        = _sanitize_tool_call call h).
  { unfold bind. destruct (_sanitize_tool_call call h) as [[c|e] h'] eqn:E; [|reflexivity].
    destruct (sanitize_fixpoint _ _ _ _ E) as [-> E']. exact E'. }
  now rewrite E.
Qed.

(** *** How the compiler changes the store *)

Lemma dict_evolves_refl kvs : dict_evolves kvs kvs.
Proof. now left. Qed.

Lemma dict_evolves_trans k1 k2 k3 :
  dict_evolves k1 k2 -> dict_evolves k2 k3 -> dict_evolves k1 k3.
Proof.
  intros [->|(s1 & H1 & ->)] [->|(s2 & H2 & ->)].
  - now left.
  - right. eauto.
  - right. eauto.
  - right. exists s2. split; [exact H2|]. apply dict_set_twice.
Qed.

(** Key by key: a binding is as it was, or it is [arguments] and holds a
    string that [json.loads] accepts. *)
Lemma dict_evolves_get kvs kvs' k :
  dict_evolves kvs kvs' ->
  dict_get k kvs' = dict_get k kvs
  \/ (k = "arguments"
      /\ exists s, dict_get k kvs' = Some (VStr s) /\ json_loads_ok s = true).
Proof.
  intros [->|(s & Hs & ->)]; [now left|].
  destruct (String.eqb_spec "arguments" k) as [<-|Hk].
  - right. split; [reflexivity|]. exists s. now rewrite dict_get_set_eq.
  - left. now apply dict_get_set_ne.
Qed.

Lemma dict_evolves_other kvs kvs' k :
  dict_evolves kvs kvs' -> k <> "arguments" -> dict_get k kvs' = dict_get k kvs.
Proof. intros He Hk. destruct (dict_evolves_get _ _ k He) as [E|[E _]]; [exact E|contradiction]. Qed.

Lemma obj_evolves_refl o : obj_evolves o o.
Proof. destruct o; cbn; [apply dict_evolves_refl|reflexivity]. Qed.

Lemma store_evolves_refl h : store_evolves h h.
Proof. intros l o Hl. exists o. split; [assumption|apply obj_evolves_refl]. Qed.

Lemma obj_evolves_trans o1 o2 o3 : obj_evolves o1 o2 -> obj_evolves o2 o3 -> obj_evolves o1 o3.
Proof.
  destruct o1 as [k1|x1], o2 as [k2|x2], o3 as [k3|x3]; cbn; try tauto; try congruence.
  apply dict_evolves_trans.
Qed.

Lemma store_evolves_trans h1 h2 h3 :
  store_evolves h1 h2 -> store_evolves h2 h3 -> store_evolves h1 h3.
Proof.
  intros H12 H23 l o Hl. destruct (H12 l o Hl) as (o2 & Hl2 & E12).
  destruct (H23 l o2 Hl2) as (o3 & Hl3 & E23). eauto using obj_evolves_trans.
Qed.

Lemma store_evolves_app h ext : store_evolves h (h ++ ext).
Proof.
  intros l o Hl. exists o. split; [|apply obj_evolves_refl].
  rewrite lookup_app_l; [assumption|]. eapply lookup_lt_Some; eauto.
Qed.

Lemma store_evolves_alloc h o : store_evolves h (h ++ [o]).
Proof. apply store_evolves_app. Qed.

Lemma store_evolves_write h lf fkvs s :
  h !! lf = Some (ODict fkvs) -> json_loads_ok s = true ->
  store_evolves h (<[lf := ODict (dict_set "arguments" (VStr s) fkvs)]> h).
Proof.
  intros Hlf Hs l o Hl. destruct (Nat.eq_dec l lf) as [->|Hne].
  - rewrite list_lookup_insert_eq by (eapply lookup_lt_Some; eauto).
    eexists. split; [reflexivity|]. rewrite Hlf in Hl. injection Hl as <-. cbn.
    right. eauto.
  - rewrite list_lookup_insert_ne by congruence. exists o.
    split; [assumption|apply obj_evolves_refl].
Qed.

Lemma store_evolves_length h h' : store_evolves h h' -> length h <= length h'.
Proof.
  intros He. destruct (Nat.le_gt_cases (length h) (length h')) as [|Hlt]; [assumption|].
  destruct h as [|o h0] using rev_ind; [cbn in Hlt; lia|].
  rewrite length_app in Hlt. cbn in Hlt.
  destruct (He (length h0) o) as (o' & Hl' & _).
  { rewrite lookup_app_r by lia. now rewrite Nat.sub_diag. }
  apply lookup_lt_Some in Hl'. lia.
Qed.

Lemma store_evolves_in_store h h' v : store_evolves h h' -> in_store h v -> in_store h' v.
Proof.
  intros He Hv. unfold in_store. eapply val_below_mono; [|exact Hv].
  now apply store_evolves_length.
Qed.

(** A dict stays a dict, and what was not a dict does not become one. *)
Lemma store_evolves_as_dict h h' v l kvs' :
  store_evolves h h' -> in_store h v -> as_dict h' v = Some (l, kvs') ->
  exists kvs, as_dict h v = Some (l, kvs) /\ dict_evolves kvs kvs'.
Proof.
  intros He Hv Hd. destruct (as_dict_Some _ _ _ _ Hd) as [-> Hl'].
  unfold in_store, val_below in Hv. apply Nat.ltb_lt in Hv.
  destruct (lookup_lt_is_Some_2 h l Hv) as [o Hl].
  destruct (He l o Hl) as (o' & Hl2 & Eo). rewrite Hl' in Hl2. injection Hl2 as <-.
  destruct o as [kvs|xs]; [|contradiction]. exists kvs. unfold as_dict. now rewrite Hl.
Qed.

Lemma store_evolves_as_dict_fwd h h' v l kvs :
  store_evolves h h' -> as_dict h v = Some (l, kvs) ->
  exists kvs', as_dict h' v = Some (l, kvs') /\ dict_evolves kvs kvs'.
Proof.
  intros He Hd. destruct (as_dict_Some _ _ _ _ Hd) as [-> Hl].
  destruct (He l _ Hl) as (o' & Hl' & Eo). destruct o' as [kvs'|]; [|contradiction].
  exists kvs'. unfold as_dict. now rewrite Hl'.
Qed.


Lemma store_evolves_as_list_back h h' v xs :
  store_evolves h h' -> in_store h v -> as_list h' v = Some xs -> as_list h v = Some xs.
Proof.
  intros He Hv Hl. destruct v as [| | | |l]; try discriminate.
  unfold in_store, val_below in Hv. apply Nat.ltb_lt in Hv.
  destruct (lookup_lt_is_Some_2 h l Hv) as [o Ho].
  destruct (He l o Ho) as (o' & Ho' & Eo). unfold as_list in *. rewrite Ho' in Hl.
  rewrite Ho. destruct o as [kvs|ys], o' as [kvs'|ys']; try discriminate; try contradiction.
  cbn in Eo. congruence.
Qed.

Lemma store_evolves_as_dict_None h h' v :
  store_evolves h h' -> in_store h v -> as_dict h v = None -> as_dict h' v = None.
Proof.
  intros He Hv Hn. destruct (as_dict h' v) as [[l kvs']|] eqn:E; [|reflexivity].
  destruct (store_evolves_as_dict _ _ _ _ _ He Hv E) as (kvs & E0 & _). congruence.
Qed.

(** What [json.dumps] renders, it renders after the store has evolved. *)
Lemma json_encode_evolves h h' :
  store_evolves h h' -> forall d path v out,
  json_encode d path h v = Ret out -> exists out', json_encode d path h' v = Ret out'.
Proof.
  intros He. induction d as [|d IH]; intros path v out Hv.
  { destruct v as [| [] | | |l]; try discriminate; cbn in Hv |- *; eauto. }
  destruct v as [| [] | | |l]; try (cbn in Hv |- *; eauto; fail).
  rewrite json_encode_ref in Hv. rewrite json_encode_ref.
  destruct (bool_decide (l ∈ path)); [discriminate|].
  destruct (h !! l) as [o|] eqn:Hl; [|discriminate].
  destruct (He l o Hl) as (o' & Hl' & Eo). rewrite Hl'.
  destruct o as [kvs|xs], o' as [kvs'|xs']; try contradiction.
  - destruct (mapM_out (encode_member d (l :: path) h) kvs) as [parts|] eqn:Em;
      [|discriminate].
    assert (Hall : forall kv, In kv kvs' ->
              exists b, encode_member d (l :: path) h' kv = Ret b).
    { intros kv Hkv.
      assert (Hcase : In kv kvs \/ exists s, snd kv = VStr s).
      { destruct Eo as [->|(s & _ & ->)]; [now left|].
        destruct (dict_set_values _ _ _ _ Hkv) as [->|Hin]; [right; eauto|now left]. }
      unfold encode_member. destruct Hcase as [Hin|[s Hs]].
      - destruct (mapM_out_In _ _ _ _ Em Hin) as [b Hb]. unfold encode_member in Hb.
        destruct (json_encode d (l :: path) h (snd kv)) as [o1|] eqn:E1; [|discriminate].
        destruct (IH _ _ _ E1) as [o2 ->]. eauto.
      - rewrite Hs. rewrite json_encode_scalar by discriminate. eauto. }
    destruct (mapM_out_returns _ _ Hall) as [bs ->]. eauto.
  - cbn in Eo. subst xs'.
    destruct (mapM_out (json_encode d (l :: path) h) xs) as [parts|] eqn:Em; [|discriminate].
    assert (Hall : forall x, In x xs -> exists b, json_encode d (l :: path) h' x = Ret b).
    { intros x Hx. destruct (mapM_out_In _ _ _ _ Em Hx) as [b Hb]. eauto. }
    destruct (mapM_out_returns _ _ Hall) as [bs ->]. eauto.
Qed.

Lemma json_dumps_evolves h h' v :
  store_evolves h h' -> is_Some (json_dumps h v) -> is_Some (json_dumps h' v).
Proof.
  intros He [s Hs]. apply json_dumps_Some in Hs as (out & Hout & _).
  destruct (json_encode_evolves h h' He _ _ _ _ Hout) as [out' Hout'].
  exists (string_of_list_ascii out'). apply json_dumps_Some. eauto.
Qed.

(** A sanitized call item stays sanitized. *)
Lemma arguments_sanitized_evolves h h' call :
  stratified h -> in_store h call -> store_evolves h h' ->
  arguments_sanitized h call -> arguments_sanitized h' call.
Proof.
  intros Hs Hc He Hsan lc ckvs' lf fkvs' Ec' Ef'.
  destruct (store_evolves_as_dict _ _ _ _ _ He Hc Ec') as (ckvs & Ec & Dc).
  rewrite (dict_evolves_other _ _ "function" Dc) in Ef' by discriminate.
  pose proof (stratified_field_in_store h _ _ _ "function" Hs Ec) as Hf.
  destruct (store_evolves_as_dict _ _ _ _ _ He Hf Ef') as (fkvs & Ef & Df).
  specialize (Hsan lc ckvs lf fkvs Ec Ef).
  destruct (dict_evolves_get _ _ "arguments" Df) as [E|(_ & s & E & Hok)].
  - rewrite E. pose proof (stratified_field_in_store h _ _ _ "arguments" Hs Ef) as Ha.
    destruct (default VNone (dict_get "arguments" fkvs)) as [| | | |la]; try exact Hsan.
    unfold sanitized_value in Hsan |- *.
    now apply (store_evolves_as_dict_None h h').
  - rewrite E. exact Hok.
Qed.

Lemma arguments_sanitized_same h a b la ka lb kb :
  as_dict h a = Some (la, ka) -> as_dict h b = Some (lb, kb) ->
  dict_get "function" ka = dict_get "function" kb ->
  arguments_sanitized h a -> arguments_sanitized h b.
Proof.
  intros Ea Eb Ef Hsan lc ckvs lf fkvs Ec Efun. rewrite Eb in Ec. injection Ec as <- <-.
  apply (Hsan la ka lf fkvs Ea). now rewrite Ef.
Qed.

(** A call item within the limits stays within them. *)
Lemma call_within_limits_evolves h h' call :
  stratified h -> in_store h call -> store_evolves h h' ->
  call_within_limits h call -> call_within_limits h' call.
Proof.
  intros Hs Hc He Hlim lc ckvs' lf fkvs' Ec' Ef'.
  destruct (store_evolves_as_dict _ _ _ _ _ He Hc Ec') as (ckvs & Ec & Dc).
  rewrite (dict_evolves_other _ _ "function" Dc) in Ef' by discriminate.
  pose proof (stratified_field_in_store h _ _ _ "function" Hs Ec) as Hf.
  destruct (store_evolves_as_dict _ _ _ _ _ He Hf Ef') as (fkvs & Ef & Df).
  specialize (Hlim lc ckvs lf fkvs Ec Ef).
  destruct (dict_evolves_get _ _ "arguments" Df) as [E|(_ & s & E & Hok)].
  - rewrite E. pose proof (stratified_field_in_store h _ _ _ "arguments" Hs Ef) as Ha.
    destruct (default VNone (dict_get "arguments" fkvs)) as [| | | |la]; try exact Hlim.
    unfold arguments_within_limits in Hlim |- *. intros Hd.
    apply (json_dumps_evolves h h' _ He), Hlim.
    unfold is_dict in Hd |- *.
    destruct (as_dict h (VRef la)) as [p|] eqn:E0; [reflexivity|].
    now rewrite (store_evolves_as_dict_None h h' _ He Ha E0) in Hd.
  - rewrite E. cbn [from_option id arguments_within_limits].
    apply json_loads_ok_iff in Hok. congruence.
Qed.


Lemma sanitized_within_limits h call :
  arguments_sanitized h call -> call_within_limits h call.
Proof.
  intros Hsan lc ckvs lf fkvs Ec Ef. specialize (Hsan lc ckvs lf fkvs Ec Ef).
  destruct (default VNone (dict_get "arguments" fkvs)) as [| | | s|la];
    unfold sanitized_value in Hsan; unfold arguments_within_limits; auto.
  - apply json_loads_ok_iff in Hsan. congruence.
  - intros Hd. unfold is_dict in Hd. now rewrite Hsan in Hd.
Qed.

(** *** One run of the sanitizer *)

(** Whatever the outcome: the store evolves and keeps its objects and its
    shape; a run that raises has written nothing; a run that returns,
    returns the call, sanitized. *)
Lemma sanitize_inv call h out h' :
  _sanitize_tool_call call h = (out, h') ->
  store_evolves h h' /\ length h' = length h
  /\ (stratified h -> stratified h')
  /\ (forall e, out = Raise e -> h' = h)
  /\ (forall c, out = Ret c -> c = call /\ arguments_sanitized h' call).
Proof.
  rewrite sanitize_cases.
  set (goal := store_evolves h h' /\ length h' = length h
    /\ (stratified h -> stratified h')
    /\ (forall e, out = Raise e -> h' = h)
    /\ (forall c, out = Ret c -> c = call /\ arguments_sanitized h' call)).
  assert (Hraise : forall e, (Raise e, h) = (out, h') -> goal).
  { intros e [= <- <-]. split; [apply store_evolves_refl|]. split; [reflexivity|].
    split; [auto|]. split; [reflexivity|discriminate]. }
  assert (Hkeep : arguments_sanitized h call -> (Ret call, h) = (out, h') -> goal).
  { intros Ho [= <- <-]. split; [apply store_evolves_refl|]. split; [reflexivity|].
    split; [auto|]. split; [reflexivity|]. intros c [= <-]. auto. }
  destruct (as_dict h call) as [[lc ckvs]|] eqn:Ec; [|now apply Hraise].
  destruct (as_dict h (default VNone (dict_get "function" ckvs))) as [[lf fkvs]|] eqn:Ef.
  2:{ apply Hkeep. intros lc' ckvs' lf' fkvs' Ec' Ef'. congruence. }
  destruct (as_dict_Some _ _ _ _ Ef) as [Efun Hlf].
  assert (Hwrite : forall s, json_loads_ok s = true ->
    (Ret call, <[lf := ODict (dict_set "arguments" (VStr s) fkvs)]> h) = (out, h') -> goal).
  { intros s Hok [= <- <-]. split; [now apply store_evolves_write|].
    split; [apply length_insert|]. split; [|split; [discriminate|]].
    - intros Hs. eapply stratified_insert; eauto. cbn.
      apply dict_set_below; [reflexivity|].
      exact (stratified_lookup _ _ _ Hs Hlf).
    - intros c [= <-]. split; [reflexivity|].
      intros lc' ckvs' lf' fkvs' Ec' Ef'.
      pose proof (call_arguments_insert h call lc ckvs lf fkvs (VStr s) Ec Ef) as Hget.
      rewrite (call_arguments_get _ _ _ _ _ _ Ec' Ef') in Hget.
      rewrite Hget. exact Hok. }
  assert (Hsame : sanitized_value h (default VNone (dict_get "arguments" fkvs)) ->
    (Ret call, h) = (out, h') -> goal).
  { intros Ho. apply Hkeep. intros lc' ckvs' lf' fkvs' Ec' Ef'.
    assert (fkvs' = fkvs) as -> by congruence. auto. }
  cbv zeta.
  destruct (default VNone (dict_get "arguments" fkvs)) as [| b | z | s | la] eqn:Ea.
  - now apply Hwrite.
  - now apply Hsame.
  - now apply Hsame.
  - destruct (json_loads s) eqn:Es.
    + apply Hsame. cbn. now apply json_loads_ok_iff.
    + now apply Hwrite.
    + apply Hraise.
  - destruct (as_dict h (VRef la)) as [[la' akvs]|] eqn:Eargs.
    + destruct (json_dumps_run h (VRef la)) as [s|e] eqn:Ed.
      * apply Hwrite. apply (json_loads_dumps h (VRef la)). unfold json_dumps. now rewrite Ed.
      * apply Hraise.
    + apply Hsame. exact Eargs.
Qed.

(** What the sanitizer raises: [AttributeError] for a call that is not a
    dict, and what [json] raises otherwise. *)
Lemma sanitize_raises call h e h' :
  _sanitize_tool_call call h = (Raise e, h') ->
  match as_dict h call with
  | None => e = AttributeError
  | Some _ => e = RecursionError \/ e = circular_reference \/ e = exceeds_digit_limit
  end.
Proof.
  rewrite sanitize_cases.
  destruct (as_dict h call) as [[lc ckvs]|]; [|now intros [= <- _]].
  destruct (as_dict h (default VNone (dict_get "function" ckvs))) as [[lf fkvs]|];
    [|discriminate].
  cbv zeta.
  destruct (default VNone (dict_get "arguments" fkvs)) as [| b | z | s | la];
    try discriminate.
  - destruct (json_loads s); try discriminate. intros [= <- _]. auto.
  - destruct (as_dict h (VRef la)) as [p|]; [|discriminate].
    destruct (json_dumps_run h (VRef la)) as [s|e0] eqn:Ed; [discriminate|].
    intros [= <- _]. eapply json_dumps_run_raises; eauto.
Qed.


(** Nothing is written for a call that is sanitized. *)
Lemma sanitize_noop h call lc ckvs :
  as_dict h call = Some (lc, ckvs) -> arguments_sanitized h call ->
  _sanitize_tool_call call h = (Ret call, h).
Proof.
  intros Ec Hsan. rewrite sanitize_cases, Ec.
  destruct (as_dict h (default VNone (dict_get "function" ckvs))) as [[lf fkvs]|] eqn:Ef;
    [|reflexivity].
  specialize (Hsan lc ckvs lf fkvs Ec Ef). cbv zeta.
  destruct (default VNone (dict_get "arguments" fkvs)) as [| b | z | s | la];
    unfold sanitized_value in Hsan; try reflexivity.
  - contradiction.
  - apply json_loads_ok_iff in Hsan. now rewrite Hsan.
  - now rewrite Hsan.
Qed.

End Sanitization.

(** ** Call entries *)

Lemma alloc_copy_stratified h li kvs :
  stratified h -> h !! li = Some (ODict kvs) -> stratified (h ++ [ODict kvs]).
Proof.
  intros Hs Hl. apply stratified_alloc; [assumption|].
  eapply obj_below_mono; [|exact (stratified_lookup _ _ _ Hs Hl)].
  apply Nat.lt_le_incl. eapply lookup_lt_Some; eauto.
Qed.

Lemma as_dict_fresh h o kvs :
  o = ODict kvs -> as_dict (h ++ [o]) (VRef (length h)) = Some (length h, kvs).
Proof.
  intros ->. unfold as_dict. rewrite lookup_app_r by lia. now rewrite Nat.sub_diag.
Qed.

Lemma stratified_list_items h v xs :
  stratified h -> as_list h v = Some xs -> Forall (in_store h) xs.
Proof.
  intros Hs Hr. destruct v as [| | | |lr]; try discriminate.
  unfold as_list in Hr. destruct (h !! lr) as [[|xs0]|] eqn:El; try discriminate.
  apply (inj Some) in Hr. subst xs0.
  pose proof (stratified_lookup _ _ _ Hs El) as Hb. cbn in Hb.
  rewrite forallb_forall in Hb. apply Forall_lookup_2. intros i x Hx.
  unfold in_store. eapply val_below_mono; [|apply Hb].
  - apply Nat.lt_le_incl. eapply lookup_lt_Some; eauto.
  - apply list_elem_of_In, list_elem_of_lookup. eauto.
Qed.

Lemma is_dict_true h v : is_dict h v = true <-> is_Some (as_dict h v).
Proof.
  unfold is_dict. destruct (as_dict h v) as [p|]; split; try discriminate; eauto.
  intros [x Hx]. discriminate.
Qed.

Lemma is_dict_in_store h v : is_dict h v = true -> in_store h v.
Proof.
  intros H%is_dict_true. destruct H as [[l kvs] H]. eapply as_dict_in_store; eauto.
Qed.

Lemma made_after_le h0 h1 v : length h0 <= length h1 -> made_after h1 v -> made_after h0 v.
Proof. intros Hle (l & -> & Hl). exists l. split; [reflexivity|lia]. Qed.

Section CallEntries.
Context {interp : Interpreter}.

Lemma is_dict_evolves h h' v :
  store_evolves h h' -> in_store h v -> is_dict h' v = is_dict h v.
Proof.
  intros He Hv. unfold is_dict.
  destruct (as_dict h v) as [[l kvs]|] eqn:E.
  - destruct (store_evolves_as_dict_fwd _ _ _ _ _ He E) as (kvs' & -> & _). reflexivity.
  - now rewrite (store_evolves_as_dict_None h h' v He Hv E).
Qed.

Lemma is_dict_keep h h' v :
  store_evolves h h' -> is_dict h v = true -> is_dict h' v = true.
Proof.
  intros He Hd. rewrite (is_dict_evolves _ _ _ He); [exact Hd|now apply is_dict_in_store].
Qed.

Lemma dict_items_evolves h h' items :
  store_evolves h h' -> Forall (in_store h) items -> dict_items h' items = dict_items h items.
Proof.
  intros He. unfold dict_items. induction 1 as [|v items Hv _ IH]; [reflexivity|].
  cbn [List.filter]. now rewrite (is_dict_evolves _ _ _ He Hv), IH.
Qed.

Lemma copy_of_evolves h0 h h' item call :
  store_evolves h0 h -> in_store h0 item -> copy_of h h' item call -> copy_of h0 h' item call.
Proof.
  intros He Hi (li & kvs & lc & kvs' & Ei & Ec & Hl & Hk).
  destruct (store_evolves_as_dict _ _ _ _ _ He Hi Ei) as (kvs0 & E0 & D0).
  exists li, kvs0, lc, kvs'. split; [exact E0|]. split; [exact Ec|]. split.
  - pose proof (store_evolves_length _ _ He). lia.
  - intros k Hne. rewrite (Hk k Hne). now apply dict_evolves_other.
Qed.

Lemma copy_of_later h h1 h2 item call :
  store_evolves h1 h2 -> copy_of h h1 item call -> copy_of h h2 item call.
Proof.
  intros He (li & kvs & lc & kvs' & Ei & Ec & Hl & Hkk).
  destruct (store_evolves_as_dict_fwd _ _ _ _ _ He Ec) as (kvs2 & Ec2 & D2).
  exists li, kvs, lc, kvs2. repeat split; auto.
  intros k Hne. rewrite <- (Hkk k Hne). now apply dict_evolves_other.
Qed.

Lemma copy_of_is_dict h h' item call : copy_of h h' item call -> is_dict h' call = true.
Proof. intros (li & kvs & lc & kvs' & _ & Ec & _). unfold is_dict. now rewrite Ec. Qed.

Lemma Forall2_copy_is_dict h h' items calls :
  Forall2 (copy_of h h') items calls -> Forall (fun c => is_dict h' c = true) calls.
Proof.
  induction 1 as [|item c its cs Hc _ IH]; constructor; eauto using copy_of_is_dict.
Qed.

(** One turn of the loop of [_normalize_tool_calls]. *)
Lemma normalize_loop_step item items calls h :
  normalize_loop (item :: items) calls h =
  match as_dict h item with
  | Some (_, kvs) =>
    match _sanitize_tool_call (VRef (length h)) (h ++ [ODict kvs]) with
    | (Ret call, h2) => normalize_loop items (calls ++ [call]) h2
    | (Raise e, h2) => (Raise e, h2)
    end
  | None => normalize_loop items calls h
  end.
Proof.
  cbn [normalize_loop]. rewrite bind_run, get_state_run. cbv beta iota.
  destruct (as_dict h item) as [[li kvs]|]; [|reflexivity].
  rewrite bind_run. unfold alloc at 1. cbv beta iota. now rewrite bind_run.
Qed.

(** Whatever the loop does, the store evolves. *)
Lemma normalize_loop_evolves items : forall calls h out h',
  normalize_loop items calls h = (out, h') -> store_evolves h h'.
Proof.
  induction items as [|item items IH]; intros calls h out h' Hrun.
  { injection Hrun as _ <-. apply store_evolves_refl. }
  rewrite normalize_loop_step in Hrun.
  destruct (as_dict h item) as [[li kvs]|]; [|eauto].
  destruct (_sanitize_tool_call (VRef (length h)) (h ++ [ODict kvs])) as [[c|e] h2] eqn:Es.
  - destruct (sanitize_inv _ _ _ _ Es) as (He & _).
    eapply store_evolves_trans; [apply store_evolves_alloc|].
    eapply store_evolves_trans; [exact He|]. eauto.
  - destruct (sanitize_inv _ _ _ _ Es) as (He & _). injection Hrun as _ <-.
    eapply store_evolves_trans; [apply store_evolves_alloc|exact He].
Qed.

(** The loop on a stratified store.  Whatever the outcome, the store stays
    stratified; when the loop returns, it has added one call for each item
    that is a dict, in order, a copy of the item, sanitized. *)
Lemma normalize_loop_inv items : forall calls h out h',
  stratified h ->
  Forall (in_store h) items ->
  normalize_loop items calls h = (out, h') ->
  stratified h'
  /\ forall calls', out = Ret calls' ->
       exists new, calls' = calls ++ new
         /\ Forall2 (copy_of h h') (dict_items h items) new
         /\ Forall (arguments_sanitized h') new.
Proof.
  induction items as [|item items IH]; intros calls h out h' Hs Hitems Hrun.
  { injection Hrun as <- <-. split; [assumption|]. intros calls' [= <-].
    exists []. rewrite app_nil_r. repeat split; constructor. }
  apply Forall_cons in Hitems as [Hitem Hitems].
  rewrite normalize_loop_step in Hrun.
  unfold dict_items. cbn [List.filter]. unfold is_dict at 1.
  destruct (as_dict h item) as [[li kvs]|] eqn:Ei; [|now apply IH].
  destruct (as_dict_Some _ _ _ _ Ei) as [-> Hli].
  set (h1 := h ++ [ODict kvs]) in *.
  assert (Hs1 : stratified h1) by (eapply alloc_copy_stratified; eauto).
  pose proof (as_dict_fresh h _ kvs eq_refl) as Efresh. fold h1 in Efresh.
  destruct (_sanitize_tool_call (VRef (length h)) h1) as [[c|e] h2] eqn:Es.
  2:{ destruct (sanitize_inv _ _ _ _ Es) as (_ & _ & Hs2 & _). injection Hrun as <- <-.
      split; [auto|discriminate]. }
  destruct (sanitize_inv _ _ _ _ Es) as (He12 & Hlen & Hs2 & _ & Hret).
  destruct (Hret c eq_refl) as [-> Hsan2]. specialize (Hs2 Hs1).
  assert (He : store_evolves h h2).
  { eapply store_evolves_trans; [apply store_evolves_alloc|exact He12]. }
  pose proof (normalize_loop_evolves _ _ _ _ _ Hrun) as He'.
  destruct (IH (calls ++ [VRef (length h)]) h2 out h' Hs2) as (Hs' & Hall); [|exact Hrun|].
  { eapply Forall_impl; [exact Hitems|]. intros v Hv. eapply store_evolves_in_store; eauto. }
  split; [exact Hs'|]. intros calls' Hout.
  destruct (Hall calls' Hout) as (new & -> & Hcopies & Hsan).
  exists (VRef (length h) :: new). rewrite <- app_assoc. split; [reflexivity|]. split.
  - constructor.
    + destruct (store_evolves_as_dict_fwd _ _ _ _ _
                  (store_evolves_trans _ _ _ He12 He') Efresh) as (kvs' & Ec & Dc).
      exists li, kvs, (length h), kvs'. split; [exact Ei|]. split; [exact Ec|].
      split; [lia|]. intros k Hk. now apply dict_evolves_other.
    + rewrite (dict_items_evolves _ _ _ He Hitems) in Hcopies.
      clear -Hcopies He Hitems. unfold dict_items in *.
      assert (Hin : Forall (in_store h) (List.filter (is_dict h) items)).
      { apply Forall_forall. intros v Hv%list_elem_of_In%filter_In.
        rewrite Forall_forall in Hitems. apply Hitems, list_elem_of_In, Hv. }
      revert Hin. induction Hcopies as [|item c its cs Hc _ IHc]; intros Hin; constructor.
      * apply Forall_cons in Hin as [Hi _]. eapply copy_of_evolves; eauto.
      * apply Forall_cons in Hin as [_ Hin]. auto.
  - constructor; [|exact Hsan].
    apply (arguments_sanitized_evolves h2 h' _ Hs2); [|exact He'|exact Hsan2].
    eapply store_evolves_in_store; [exact He12|]. eapply as_dict_in_store; eauto.
Qed.



(** Items that are not dicts are dropped. *)
Lemma normalize_loop_no_dicts items : forall calls h,
  Forall (fun item => as_dict h item = None) items ->
  normalize_loop items calls h = (Ret calls, h).
Proof.
  induction items as [|item items IH]; intros calls h Hn; [reflexivity|].
  apply Forall_cons in Hn as [Hi Hn]. rewrite normalize_loop_step, Hi. now apply IH.
Qed.

(** The loop on sanitized items only adds the copies. *)
Lemma normalize_loop_appends items : forall calls h,
  stratified h ->
  Forall (in_store h) items ->
  Forall (arguments_sanitized h) items ->
  exists new ext,
    normalize_loop items calls h = (Ret (calls ++ new), h ++ ext).
Proof.
  induction items as [|item items IH]; intros calls h Hs Hitems Hsan.
  { exists [], []. now rewrite !app_nil_r. }
  apply Forall_cons in Hitems as [Hitem Hitems]. apply Forall_cons in Hsan as [Hsi Hsan].
  rewrite normalize_loop_step.
  destruct (as_dict h item) as [[li kvs]|] eqn:Ei; [|now apply IH].
  destruct (as_dict_Some _ _ _ _ Ei) as [_ Hli].
  set (h1 := h ++ [ODict kvs]).
  assert (Hs1 : stratified h1) by (eapply alloc_copy_stratified; eauto).
  assert (He1 : store_evolves h h1) by apply store_evolves_alloc.
  assert (Ecopy : as_dict h1 (VRef (length h)) = Some (length h, kvs))
    by exact (as_dict_fresh h _ kvs eq_refl).
  assert (Hcopy : arguments_sanitized h1 (VRef (length h))).
  { apply (arguments_sanitized_same h1 item _ li kvs (length h) kvs);
      [unfold h1; now rewrite as_dict_app|exact Ecopy|reflexivity|].
    now apply (arguments_sanitized_evolves h h1 item Hs). }
  rewrite (sanitize_noop h1 _ _ _ Ecopy Hcopy).
  destruct (IH (calls ++ [VRef (length h)]) h1 Hs1) as (new & ext & Hloop).
  - eapply Forall_impl; [exact Hitems|]. intros v Hv. now apply in_store_app.
  - apply Forall_lookup_2. intros i it Hi.
    apply (arguments_sanitized_evolves h h1 it Hs);
      [exact (Forall_lookup_1 _ _ _ _ Hitems Hi)|exact He1
      |exact (Forall_lookup_1 _ _ _ _ Hsan Hi)].
  - exists (VRef (length h) :: new), (ODict kvs :: ext).
    replace (h ++ ODict kvs :: ext) with (h1 ++ ext) by (unfold h1; now rewrite <- app_assoc).
    replace (calls ++ VRef (length h) :: new) with ((calls ++ [VRef (length h)]) ++ new)
      by now rewrite <- app_assoc.
    exact Hloop.
Qed.

(** The assistant message of a call entry. *)
Lemma tool_call_entry_cases h messages pending entry lp pkvs :
  kind entry = "tool_call" ->
  as_dict h (payload entry) = Some (lp, pkvs) ->
  select_step (messages, pending) entry h =
  match as_list h (default VNone (dict_get "calls" pkvs)) with
  | None => (Ret (messages, []), h)
  | Some items =>
    match normalize_loop items [] h with
    | (Raise e, h1) => (Raise e, h1)
    | (Ret [], h1) => (Ret (messages, []), h1)
    | (Ret (c :: cs), h1) =>
      (Ret (messages ++ [VRef (S (length h1))], c :: cs),
       (h1 ++ [OList (c :: cs)])
          ++ [ODict [("role", VStr "assistant"); ("content", VStr EmptyString);
                     ("tool_calls", VRef (length h1))]])
    end
  end.
Proof.
  intros Hk Hp. unfold select_step. rewrite Hk. cbn [String.eqb Ascii.eqb Bool.eqb].
  unfold _append_tool_call_entry. rewrite bind_run, (py_get_run _ _ "calls" _ _ Hp).
  cbv beta iota. unfold _normalize_tool_calls. rewrite !bind_run, get_state_run.
  cbv beta iota.
  destruct (as_list h (default VNone (dict_get "calls" pkvs))) as [items|]; [|reflexivity].
  destruct (normalize_loop items [] h) as [[[|c cs]|e] h1]; try reflexivity.
  rewrite !bind_run. unfold alloc, ret. cbv beta iota. rewrite bind_run. cbv beta iota.
  rewrite length_app. cbn [length]. now rewrite Nat.add_1_r.
Qed.

Lemma emitted_calls_fresh h1 calls :
  emitted_calls
    ((h1 ++ [OList calls])
       ++ [ODict [("role", VStr "assistant"); ("content", VStr EmptyString);
                  ("tool_calls", VRef (length h1))]])
    [VRef (S (length h1))] = calls.
Proof.
  unfold emitted_calls. cbn [flat_map].
  replace (S (length h1)) with (length (h1 ++ [OList calls]))
    by (rewrite length_app; cbn; lia).
  rewrite (as_dict_fresh _ _ _ eq_refl).
  cbn [dict_get String.eqb Ascii.eqb Bool.eqb from_option id].
  unfold as_list. rewrite lookup_app_l by (rewrite length_app; cbn; lia).
  rewrite lookup_app_r by lia. rewrite Nat.sub_diag. cbn [lookup list_lookup].
  apply app_nil_r.
Qed.

(** Whatever a call entry does, the store evolves. *)
Lemma tool_call_entry_evolves h messages pending entry out h' :
  kind entry = "tool_call" ->
  select_step (messages, pending) entry h = (out, h') -> store_evolves h h'.
Proof.
  intros Hk Hrun.
  destruct (as_dict h (payload entry)) as [[lp pkvs]|] eqn:Hp.
  2:{ unfold select_step in Hrun. rewrite Hk in Hrun.
      cbn [String.eqb Ascii.eqb Bool.eqb] in Hrun.
      unfold _append_tool_call_entry, bind, py_get in Hrun. rewrite Hp in Hrun.
      injection Hrun as _ <-. apply store_evolves_refl. }
  rewrite (tool_call_entry_cases _ _ _ _ _ _ Hk Hp) in Hrun.
  destruct (as_list h (default VNone (dict_get "calls" pkvs))) as [items|].
  2:{ injection Hrun as _ <-. apply store_evolves_refl. }
  destruct (normalize_loop items [] h) as [[[|c cs]|e] h1] eqn:Hloop;
    pose proof (normalize_loop_evolves _ _ _ _ _ Hloop) as He;
    injection Hrun as _ <-; try exact He.
  eapply store_evolves_trans; [exact He|]. rewrite <- app_assoc. apply store_evolves_app.
Qed.

(** A call entry on a stratified store, in full.  Whatever the outcome the
    store stays stratified.  When the step returns, the calls are copies of
    the dict items, dicts of the new store and sanitized; at most one
    message, a new dict, is added, and its calls are the pending calls. *)
Lemma tool_call_entry_inv h messages pending entry lp pkvs out h' :
  stratified h ->
  kind entry = "tool_call" ->
  as_dict h (payload entry) = Some (lp, pkvs) ->
  select_step (messages, pending) entry h = (out, h') ->
  stratified h'
  /\ forall st', out = Ret st' ->
     exists added calls,
       st' = (messages ++ added, calls)
       /\ Forall (fun c => is_dict h' c = true) calls
       /\ Forall (fun m => made_after h m /\ is_dict h' m = true) added
       /\ (calls = [] -> added = [])
       /\ (calls <> [] -> exists m, added = [m] /\ emitted_calls h' [m] = calls)
       /\ Forall (arguments_sanitized h') calls
       /\ forall items, as_list h (default VNone (dict_get "calls" pkvs)) = Some items ->
            Forall2 (copy_of h h') (dict_items h items) calls.
Proof.
  intros Hs Hk Hp Hrun. rewrite (tool_call_entry_cases _ _ _ _ _ _ Hk Hp) in Hrun.
  destruct (as_list h (default VNone (dict_get "calls" pkvs))) as [items|] eqn:El.
  2:{ injection Hrun as <- <-. split; [assumption|]. intros st' [= <-].
      exists [], []. rewrite app_nil_r. split; [reflexivity|].
      repeat split; try constructor; congruence. }
  destruct (normalize_loop items [] h) as [[calls|e] h1] eqn:Hloop.
  2:{ destruct (normalize_loop_inv items [] h _ _ Hs (stratified_list_items _ _ _ Hs El) Hloop)
        as (Hs1 & _).
      injection Hrun as <- <-. split; [assumption|discriminate]. }
  pose proof (normalize_loop_evolves _ _ _ _ _ Hloop) as He1.
  destruct (normalize_loop_inv items [] h _ _ Hs (stratified_list_items _ _ _ Hs El) Hloop)
    as (Hs1 & Hall).
  destruct (Hall calls eq_refl) as (new & Enew & Hcopies & Hsan). cbn [app] in Enew.
  subst new. pose proof (Forall2_copy_is_dict _ _ _ _ Hcopies) as Hd1.
  destruct calls as [|c cs].
  { injection Hrun as <- <-. split; [assumption|]. intros st' [= <-].
    exists [], []. rewrite app_nil_r. split; [reflexivity|].
    repeat split; try constructor; try congruence. }
  set (calls := c :: cs) in *.
  set (message := ODict [("role", VStr "assistant"); ("content", VStr EmptyString);
                         ("tool_calls", VRef (length h1))]) in *.
  set (h2 := h1 ++ [OList calls]) in *.
  assert (Hs2 : stratified h2).
  { apply stratified_alloc; [assumption|]. cbn [obj_below]. apply forallb_forall.
    intros v Hv. apply is_dict_in_store.
    rewrite Forall_forall in Hd1. apply Hd1, list_elem_of_In, Hv. }
  assert (Hs3 : stratified (h2 ++ [message])).
  { apply stratified_alloc; [assumption|]. unfold message, h2. cbn.
    rewrite length_app. cbn. rewrite andb_true_r. apply Nat.ltb_lt. lia. }
  assert (He13 : store_evolves h1 (h2 ++ [message])).
  { eapply store_evolves_trans; apply store_evolves_alloc. }
  injection Hrun as <- <-. split; [exact Hs3|]. intros st' [= <-].
  exists [VRef (S (length h1))], calls. split; [reflexivity|].
  assert (Hemit : emitted_calls (h2 ++ [message]) [VRef (S (length h1))] = calls)
    by apply emitted_calls_fresh.
  split; [|split; [|split; [discriminate|split;
    [intros _; eexists; split; [reflexivity|exact Hemit]|split]]]].
  - eapply Forall_impl; [exact Hd1|]. intros v Hv. cbv beta. eapply is_dict_keep; eauto.
  - constructor; [|constructor]. split.
    + exists (S (length h1)). split; [reflexivity|].
      pose proof (store_evolves_length _ _ He1). lia.
    + unfold is_dict.
      replace (S (length h1)) with (length h2) by (unfold h2; rewrite length_app; cbn; lia).
      now rewrite (as_dict_fresh _ message _ eq_refl).
  - apply Forall_lookup_2. intros i x Hx.
    apply (arguments_sanitized_evolves h1 _ x Hs1).
    + apply is_dict_in_store. exact (Forall_lookup_1 _ _ _ _ Hd1 Hx).
    + exact He13.
    + exact (Forall_lookup_1 _ _ _ _ Hsan Hx).
  - intros items0 [= <-]. eapply Forall2_impl; [exact Hcopies|].
    intros item c0 Hc. eapply copy_of_later; eauto.
Qed.


End CallEntries.

Section CallClaims.
Context {interp : Interpreter}.


(** X3: a [tool_call] entry whose [calls] is not a list, or is a list
    without a dict in it (the empty list too), adds no message, leaves the
    store as it is and empties the pending buffer, whatever was pending. *)
Theorem tool_call_entry_without_calls h messages pending entry lp pkvs :
  kind entry = "tool_call" ->
  as_dict h (payload entry) = Some (lp, pkvs) ->
  match as_list h (default VNone (dict_get "calls" pkvs)) with
  | Some items => Forall (fun item => as_dict h item = None) items
  | None => True
  end ->
  select_step (messages, pending) entry h = (Ret (messages, []), h).
Proof.
  intros Hk Hp Hc. rewrite (tool_call_entry_cases _ _ _ _ _ _ Hk Hp).
  destruct (as_list h (default VNone (dict_get "calls" pkvs))) as [items|]; [|reflexivity].
  now rewrite (normalize_loop_no_dicts _ _ _ Hc).
Qed.


End CallClaims.

Section CallExamples.
#[local] Existing Instance cpython.



Lemma tool_call_entry_without_calls_witness :
  select_step ([], [VRef 1]) {| kind := "tool_call"; payload := VRef 4 |} stray_heap
  = (Ret ([], []), stray_heap).
Proof.
  exact (tool_call_entry_without_calls stray_heap [] [VRef 1]
           {| kind := "tool_call"; payload := VRef 4 |} 4 [("results", VStr "lost")]
           eq_refl eq_refl I).
Defined.

End CallExamples.

(** ** Result entries *)

Lemma tool_message_below n content id name :
  obj_below n (ODict (tool_message content id name)) = true.
Proof. destruct id, name; reflexivity. Qed.



(** Objects without references keep a store stratified. *)
Lemma stratified_app_scalars ext : forall h,
  stratified h -> Forall (fun o => forall n, obj_below n o = true) ext ->
  stratified (h ++ ext).
Proof.
  induction ext as [|o ext IH]; intros h Hs Hext; [now rewrite app_nil_r|].
  apply Forall_cons in Hext as [Ho Hext].
  replace (h ++ o :: ext) with ((h ++ [o]) ++ ext) by now rewrite <- app_assoc.
  apply IH; [|exact Hext]. apply stratified_alloc; auto.
Qed.

Lemma call_id_app h ext call :
  in_store h call -> call_id (h ++ ext) call = call_id h call.
Proof. intros Hc. unfold call_id. now rewrite as_dict_app. Qed.

Lemma call_name_app h ext call :
  stratified h -> in_store h call -> call_name (h ++ ext) call = call_name h call.
Proof.
  intros Hs Hc. unfold call_name. rewrite as_dict_app by assumption.
  destruct (as_dict h call) as [[lc ckvs]|] eqn:Ec; [|reflexivity].
  rewrite as_dict_app; [reflexivity|]. eapply stratified_field_in_store; eauto.
Qed.

Section ResultEntries.
Context {interp : Interpreter}.


Lemma render_tool_result_cases result h :
  _render_tool_result result h =
  match result with
  | VStr s => (Ret s, h)
  | _ => (json_dumps_run h result, h)
  end.
Proof. destruct result; reflexivity. Qed.

(** One tool message: a fresh dict with the bindings of [tool_message]. *)
Lemma build_tool_result_message_run h result pending index content :
  _render_tool_result result h = (Ret content, h) ->
  (forall call, pending !! index = Some call -> is_Some (as_dict h call)) ->
  _build_tool_result_message result pending index h =
    (Ret (VRef (length h)),
     h ++ [ODict (tool_message content (pending !! index ≫= call_id h)
                               (pending !! index ≫= call_name h))]).
Proof.
  intros Hc Hp.
  unfold _build_tool_result_message. rewrite bind_run, Hc. cbv beta iota zeta.
  destruct (pending !! index) as [call|] eqn:Ei; [|reflexivity].
  destruct (Hp call eq_refl) as [[lc ckvs] Ec].
  cbn [mbind option_bind]. unfold call_id, call_name. rewrite Ec.
  rewrite bind_run, (py_get_run _ _ "id" _ _ Ec). cbv beta iota.
  rewrite bind_run, (py_get_run _ _ "function" _ _ Ec). cbv beta iota.
  rewrite bind_run, get_state_run. cbv beta iota.
  destruct (as_dict h (default VNone (dict_get "function" ckvs))) as [[lf fkvs]|] eqn:Ef.
  - rewrite bind_run, (py_get_run _ _ "name" _ _ Ef). cbv beta iota.
    destruct (nonempty_str (default VNone (dict_get "name" fkvs)));
      destruct (nonempty_str (default VNone (dict_get "id" ckvs))); reflexivity.
  - destruct (nonempty_str (default VNone (dict_get "id" ckvs))); reflexivity.
Qed.

(** Whatever the outcome, one message is one new object without
    references, or nothing. *)
Lemma build_tool_result_message_shape h result pending index out h' :
  _build_tool_result_message result pending index h = (out, h') ->
  (exists e, out = Raise e /\ h' = h)
  \/ (exists kvs, out = Ret (VRef (length h)) /\ h' = h ++ [ODict kvs]
        /\ forall n, obj_below n (ODict kvs) = true).
Proof.
  unfold _build_tool_result_message. rewrite bind_run, render_tool_result_cases.
  assert (Hret : forall kvs, (forall n, obj_below n (ODict kvs) = true) ->
            alloc (ODict kvs) h = (out, h') ->
            (exists e, out = Raise e /\ h' = h)
            \/ (exists kvs0, out = Ret (VRef (length h)) /\ h' = h ++ [ODict kvs0]
                  /\ forall n, obj_below n (ODict kvs0) = true)).
  { intros kvs Hk [= <- <-]. right. eauto. }
  assert (Hbody : forall content,
    (let message := [("role", VStr "tool"); ("content", VStr content)] in
     match pending !! index with
     | None => alloc (ODict message)
     | Some call =>
       let* call_id := py_get call "id" in
       let message :=
         match nonempty_str call_id with
         | Some s => dict_set "tool_call_id" (VStr s) message
         | None => message
         end in
       let* function := py_get call "function" in
       let* h := get_state in
       match as_dict h function with
       | Some _ =>
         let* name := py_get function "name" in
         match nonempty_str name with
         | Some s => alloc (ODict (dict_set "name" (VStr s) message))
         | None => alloc (ODict message)
         end
       | None => alloc (ODict message)
       end
     end) h = (out, h') ->
    (exists e, out = Raise e /\ h' = h)
    \/ (exists kvs0, out = Ret (VRef (length h)) /\ h' = h ++ [ODict kvs0]
          /\ forall n, obj_below n (ODict kvs0) = true)).
  { intros content. cbv zeta.
    destruct (pending !! index) as [call|]; [|apply Hret; reflexivity].
    rewrite bind_run. unfold py_get at 1.
    destruct (as_dict h call) as [[lc ckvs]|] eqn:Ec.
    2:{ intros [= <- <-]. left. eauto. }
    cbv beta iota. rewrite bind_run, (py_get_run _ _ "function" _ _ Ec). cbv beta iota.
    rewrite bind_run, get_state_run. cbv beta iota.
    destruct (as_dict h (default VNone (dict_get "function" ckvs))) as [[lf fkvs]|] eqn:Ef.
    - rewrite bind_run, (py_get_run _ _ "name" _ _ Ef). cbv beta iota.
      destruct (nonempty_str (default VNone (dict_get "name" fkvs)));
        destruct (nonempty_str (default VNone (dict_get "id" ckvs)));
        apply Hret; reflexivity.
    - destruct (nonempty_str (default VNone (dict_get "id" ckvs)));
        apply Hret; reflexivity. }
  destruct result as [| b | z | s | l]; cbv beta iota;
    try (destruct (json_dumps_run h _) as [content|e];
         [apply Hbody|intros [= <- <-]; left; eauto]).
  apply Hbody.
Qed.

(** Whatever the loop over the results does, it only adds objects without
    references. *)
Lemma tool_result_loop_shape results : forall index pending messages h out h',
  tool_result_loop results index pending messages h = (out, h') ->
  exists ext, h' = h ++ ext /\ Forall (fun o => forall n, obj_below n o = true) ext.
Proof.
  induction results as [|result results IH]; intros index pending messages h out h' Hrun.
  { injection Hrun as _ <-. exists []. rewrite app_nil_r. split; [reflexivity|constructor]. }
  cbn [tool_result_loop] in Hrun. rewrite bind_run in Hrun.
  destruct (_build_tool_result_message result pending index h) as [[m|e] h1] eqn:Hb.
  - destruct (build_tool_result_message_shape _ _ _ _ _ _ Hb)
      as [(e & [=] & _)|(kvs & _ & -> & Hk)].
    destruct (IH _ _ _ _ _ _ Hrun) as (ext & -> & Hext).
    exists (ODict kvs :: ext). rewrite <- app_assoc. split; [reflexivity|].
    constructor; assumption.
  - destruct (build_tool_result_message_shape _ _ _ _ _ _ Hb)
      as [(e' & _ & ->)|(kvs & [=] & _)].
    injection Hrun as _ <-. exists []. rewrite app_nil_r. split; [reflexivity|constructor].
Qed.

(** The results that a loop that returned has rendered. *)
Lemma tool_result_loop_rendered results : forall index pending messages h ms h',
  tool_result_loop results index pending messages h = (Ret ms, h') ->
  Forall (result_within_limits h') results.
Proof.
  induction results as [|result results IH]; intros index pending messages h ms h' Hrun;
    [constructor|].
  cbn [tool_result_loop] in Hrun. rewrite bind_run in Hrun.
  destruct (_build_tool_result_message result pending index h) as [[m|e] h1] eqn:Hb;
    [|discriminate].
  constructor; [|eauto].
  destruct (tool_result_loop_shape _ _ _ _ _ _ _ Hrun) as (ext & -> & _).
  destruct (build_tool_result_message_shape _ _ _ _ _ _ Hb)
    as [(e & [=] & _)|(kvs & _ & -> & _)].
  unfold _build_tool_result_message in Hb. rewrite bind_run, render_tool_result_cases in Hb.
  assert (Hd : forall v, v = result ->
            match json_dumps_run h v with
            | Ret _ => True
            | Raise _ => False
            end -> is_Some (json_dumps ((h ++ [ODict kvs]) ++ ext) v)).
  { intros v _ Hv. apply (json_dumps_evolves h); [rewrite <- app_assoc; apply store_evolves_app|].
    unfold json_dumps. destruct (json_dumps_run h v); [eauto|contradiction]. }
  destruct result as [| b | z | s | l]; cbn [result_within_limits]; try exact I;
    apply Hd; try reflexivity;
    destruct (json_dumps_run h _); try exact I; discriminate.
Qed.

(** A result within the limits is rendered. *)
Lemma render_within_limits h result :
  result_within_limits h result ->
  exists content,
    _render_tool_result result h = (Ret content, h)
    /\ match result with
       | VStr s => content = s
       | _ => json_dumps h result = Some content
       end.
Proof.
  intros Hl. rewrite render_tool_result_cases.
  destruct result as [| b | z | s | l]; cbn [result_within_limits] in Hl.
  4:{ exists s. split; reflexivity. }
  all: destruct Hl as [content Hc]; exists content;
    rewrite (json_dumps_run_Some _ _ _ Hc); split; [reflexivity|exact Hc].
Qed.

(** The loop over the results, on a stratified store, with dicts pending
    and results that are rendered: one message per result, in order, each a
    fresh dict; the store only grows. *)
Lemma tool_result_loop_run results : forall index pending messages h,
  stratified h ->
  Forall (in_store h) results ->
  Forall (fun call => is_Some (as_dict h call)) pending ->
  Forall (result_within_limits h) results ->
  exists new ext,
    tool_result_loop results index pending messages h = (Ret (messages ++ new), h ++ ext)
    /\ length new = length results
    /\ forall i result, results !! i = Some result ->
         exists m l content,
           new !! i = Some m
           /\ as_dict (h ++ ext) m =
                Some (l, tool_message content (pending !! (index + i) ≫= call_id h)
                                      (pending !! (index + i) ≫= call_name h))
           /\ length h <= l
           /\ match result with
              | VStr s => content = s
              | _ => json_dumps h result = Some content
              end.
Proof.
  induction results as [|result results IH]; intros index pending messages h Hs Hr Hp Hlim.
  - exists [], []. cbn. rewrite !app_nil_r. repeat split. intros i r Hi. discriminate.
  - apply Forall_cons in Hr as [Hr Hrs]. apply Forall_cons in Hlim as [Hl Hlim].
    destruct (render_within_limits h result Hl) as (content & Hc & Hcontent).
    set (msg := ODict (tool_message content (pending !! index ≫= call_id h)
                                   (pending !! index ≫= call_name h))) in *.
    assert (Hs' : stratified (h ++ [msg])).
    { apply stratified_alloc; [assumption|apply tool_message_below]. }
    assert (Hin : forall c, is_Some (as_dict h c) -> in_store h c).
    { intros c [[l kvs] Hcd]. eapply as_dict_in_store; eauto. }
    destruct (IH (S index) pending (messages ++ [VRef (length h)]) (h ++ [msg]) Hs')
      as (new & ext & Hloop & Hlen & Hall).
    { eapply Forall_impl; [exact Hrs|]. intros v Hv. now apply in_store_app. }
    { eapply Forall_impl; [exact Hp|]. intros c Hcd. cbv beta.
      rewrite as_dict_app; auto. }
    { apply Forall_lookup_2. intros i r Hi.
      pose proof (Forall_lookup_1 _ _ _ _ Hlim Hi) as Hri.
      pose proof (Forall_lookup_1 _ _ _ _ Hrs Hi) as Hin_r.
      destruct r; cbn [result_within_limits] in Hri |- *; try exact I;
        rewrite json_dumps_app; auto. }
    exists (VRef (length h) :: new), (msg :: ext).
    cbn [tool_result_loop]. unfold bind.
    pose proof (build_tool_result_message_run h result pending index content Hc) as Hb.
    rewrite Hb by (intros call Hcall; exact (Forall_lookup_1 _ _ _ _ Hp Hcall)).
    fold msg.
    replace (h ++ msg :: ext) with ((h ++ [msg]) ++ ext) by now rewrite <- app_assoc.
    replace (messages ++ VRef (length h) :: new)
      with ((messages ++ [VRef (length h)]) ++ new) by now rewrite <- app_assoc.
    split; [exact Hloop|]. split; [cbn; now rewrite Hlen|].
    intros [|i] r Hi.
    + cbn in Hi. injection Hi as <-.
      exists (VRef (length h)), (length h), content. rewrite Nat.add_0_r.
      split; [reflexivity|]. split; [|split; [lia|exact Hcontent]].
      unfold as_dict. rewrite lookup_app_l by (rewrite length_app; cbn; lia).
      rewrite lookup_app_r by lia. now rewrite Nat.sub_diag.
    + cbn in Hi. destruct (Hall i r Hi) as (m & l & c & Hm & Hd & Hl' & Hcr).
      rewrite length_app in Hl'.
      exists m, l, c. split; [exact Hm|]. split; [|split; [lia|]].
      * rewrite Hd. replace (S index + i) with (index + S i) by lia.
        destruct (pending !! (index + S i)) as [call|] eqn:Ec; [|reflexivity].
        cbn [mbind option_bind].
        assert (Hcall : in_store h call).
        { apply Hin. exact (Forall_lookup_1 _ _ _ _ Hp Ec). }
        now rewrite call_id_app, call_name_app.
      * pose proof (Forall_lookup_1 _ _ _ _ Hrs Hi) as Hin_r.
        destruct r; try exact Hcr; rewrite json_dumps_app in Hcr; auto.
Qed.

(** A result entry whose payload is a dict. *)
Lemma tool_result_entry_cases h messages pending entry lp pkvs :
  kind entry = "tool_result" ->
  as_dict h (payload entry) = Some (lp, pkvs) ->
  select_step (messages, pending) entry h =
  match as_list h (default VNone (dict_get "results" pkvs)) with
  | None => (Ret (messages, []), h)
  | Some results =>
    match tool_result_loop results 0 pending messages h with
    | (Ret messages', h') => (Ret (messages', []), h')
    | (Raise e, h') => (Raise e, h')
    end
  end.
Proof.
  intros Hk Hp. unfold select_step. rewrite Hk. cbn [String.eqb Ascii.eqb Bool.eqb].
  unfold _append_tool_result_entry.
  rewrite !bind_run, (py_get_run _ _ "results" _ _ Hp). cbv beta iota.
  rewrite bind_run, get_state_run. cbv beta iota.
  destruct (as_list h (default VNone (dict_get "results" pkvs))) as [results|];
    [|reflexivity].
  destruct (tool_result_loop results 0 pending messages h) as [[ms|e] h']; reflexivity.
Qed.


End ResultEntries.

Section ResultExamples.
#[local] Existing Instance cpython.



End ResultExamples.

(** ** The loop of the compiler *)

Lemma py_get_not_dict h d k : as_dict h d = None -> py_get d k h = (Raise AttributeError, h).
Proof. intros H. unfold py_get. now rewrite H. Qed.

Lemma kind_cases (entry : TapeEntry) :
  kind entry = "message" \/ kind entry = "tool_call" \/ kind entry = "tool_result"
  \/ (String.eqb (kind entry) "message" = false
      /\ String.eqb (kind entry) "tool_call" = false
      /\ String.eqb (kind entry) "tool_result" = false).
Proof.
  destruct (String.eqb_spec (kind entry) "message"); [auto|].
  destruct (String.eqb_spec (kind entry) "tool_call"); [auto|].
  destruct (String.eqb_spec (kind entry) "tool_result"); [auto|].
  right; right; right. auto.
Qed.

Lemma dict_payloads_cons h entry entries :
  dict_payloads h (entry :: entries) =
  match as_dict h (payload entry) with
  | Some (_, kvs) => kvs :: dict_payloads h entries
  | None => dict_payloads h entries
  end.
Proof.
  unfold dict_payloads. cbn. now destruct (as_dict h (payload entry)) as [[l kvs]|].
Qed.

Section Loop.
Context {interp : Interpreter}.

Lemma select_loop_app before : forall after st h,
  select_loop (before ++ after) st h =
  match select_loop before st h with
  | (Ret st', h') => select_loop after st' h'
  | (Raise e, h') => (Raise e, h')
  end.
Proof.
  induction before as [|e before IH]; intros after st h; [reflexivity|].
  cbn [app select_loop]. rewrite !bind_run.
  destruct (select_step st e h) as [[st'|ex] h']; [apply IH|reflexivity].
Qed.

(** A message entry. *)
Lemma message_entry_cases h messages pending entry :
  kind entry = "message" ->
  select_step (messages, pending) entry h =
  match as_dict h (payload entry) with
  | Some (_, kvs) => (Ret (messages ++ [VRef (length h)], pending), h ++ [ODict kvs])
  | None => (Ret (messages, pending), h)
  end.
Proof.
  intros Hk. unfold select_step. rewrite Hk. cbn [String.eqb Ascii.eqb Bool.eqb].
  unfold _append_message_entry. rewrite !bind_run, get_state_run. cbv beta iota.
  now destruct (as_dict h (payload entry)) as [[l kvs]|].
Qed.

(** An entry of another kind. *)
Lemma other_entry_cases h st entry :
  String.eqb (kind entry) "message" = false ->
  String.eqb (kind entry) "tool_call" = false ->
  String.eqb (kind entry) "tool_result" = false ->
  select_step st entry h = (Ret st, h).
Proof.
  intros E1 E2 E3. unfold select_step. destruct st as [messages pending].
  now rewrite E1, E2, E3.
Qed.

(** A call or result entry whose payload is not a dict. *)
Lemma payload_not_dict_cases h st entry :
  String.eqb (kind entry) "tool_call" || String.eqb (kind entry) "tool_result" = true ->
  as_dict h (payload entry) = None ->
  select_step st entry h = (Raise AttributeError, h).
Proof.
  intros Hk Hp. unfold select_step. destruct st as [messages pending].
  destruct (String.eqb (kind entry) "message") eqn:Em.
  { apply String.eqb_eq in Em. rewrite Em in Hk. discriminate. }
  destruct (String.eqb (kind entry) "tool_call") eqn:Ec.
  - unfold _append_tool_call_entry. now rewrite bind_run, py_get_not_dict.
  - cbn in Hk. rewrite Hk. unfold _append_tool_result_entry.
    now rewrite !bind_run, py_get_not_dict.
Qed.

(** Whatever a turn of the loop does, the store evolves. *)
Lemma select_step_evolves st entry h out h' :
  select_step st entry h = (out, h') -> store_evolves h h'.
Proof.
  destruct st as [messages pending]. intros Hrun.
  destruct (kind_cases entry) as [Hk|[Hk|[Hk|(E1 & E2 & E3)]]].
  - rewrite (message_entry_cases _ _ _ _ Hk) in Hrun.
    destruct (as_dict h (payload entry)) as [[l kvs]|]; injection Hrun as _ <-;
      [apply store_evolves_alloc|apply store_evolves_refl].
  - eapply tool_call_entry_evolves; eauto.
  - destruct (as_dict h (payload entry)) as [[lp pkvs]|] eqn:Hp.
    + rewrite (tool_result_entry_cases _ _ _ _ _ _ Hk Hp) in Hrun.
      destruct (as_list h (default VNone (dict_get "results" pkvs))) as [results|].
      2:{ injection Hrun as _ <-. apply store_evolves_refl. }
      destruct (tool_result_loop results 0 pending messages h) as [[ms|e] h1] eqn:Hloop;
        destruct (tool_result_loop_shape _ _ _ _ _ _ _ Hloop) as (ext & -> & _);
        injection Hrun as _ <-; apply store_evolves_app.
    + rewrite payload_not_dict_cases in Hrun; [|rewrite Hk; reflexivity|exact Hp].
      injection Hrun as _ <-. apply store_evolves_refl.
  - rewrite (other_entry_cases _ _ _ E1 E2 E3) in Hrun. injection Hrun as _ <-.
    apply store_evolves_refl.
Qed.

Lemma select_loop_evolves entries : forall st h out h',
  select_loop entries st h = (out, h') -> store_evolves h h'.
Proof.
  induction entries as [|entry entries IH]; intros st h out h' Hrun.
  { injection Hrun as _ <-. apply store_evolves_refl. }
  cbn [select_loop] in Hrun. rewrite bind_run in Hrun.
  destruct (select_step st entry h) as [[st1|e] h1] eqn:Hstep.
  - eapply store_evolves_trans; [exact (select_step_evolves _ _ _ _ _ Hstep)|]. eauto.
  - injection Hrun as _ <-. exact (select_step_evolves _ _ _ _ _ Hstep).
Qed.

(** An entry that is passed over on a store is passed over on every store
    that the compiler makes of it. *)
Lemma select_step_passed_over st entry h h1 :
  store_evolves h h1 -> passed_over h entry = true -> select_step st entry h1 = (Ret st, h1).
Proof.
  intros He. unfold passed_over. destruct st as [messages pending].
  destruct (String.eqb (kind entry) "message") eqn:Ekm.
  - apply String.eqb_eq in Ekm. intros Hp. rewrite (message_entry_cases _ _ _ _ Ekm).
    assert (Hn : as_dict h1 (payload entry) = None); [|now rewrite Hn].
    destruct (payload entry) as [| | | |l]; try reflexivity.
    destruct (h !! l) as [[kvs|xs]|] eqn:Hl; try discriminate.
    destruct (He l _ Hl) as (o' & Hl' & Eo). destruct o' as [kvs'|xs']; [contradiction|].
    unfold as_dict. now rewrite Hl'.
  - intros [E2 E3]%andb_true_iff. apply negb_true_iff in E2, E3.
    now apply other_entry_cases.
Qed.

(** X1: an entry of a kind that the compiler does not know, and a message
    entry whose payload is not a dict (a scalar, or a list), can be taken
    out of the tape anywhere: the compiler returns the same messages, or
    raises the same exception, and leaves the same store. *)
Theorem select_messages_passes_over entry before after h :
  passed_over h entry = true ->
  _select_messages (before ++ entry :: after) h = _select_messages (before ++ after) h.
Proof.
  intros Hp. unfold _select_messages. rewrite !bind_run, !select_loop_app.
  destruct (select_loop before ([], []) h) as [[st|e] h1] eqn:Hb; [|reflexivity].
  cbn [select_loop].
  rewrite bind_run, (select_step_passed_over _ _ h h1 (select_loop_evolves _ _ _ _ _ Hb) Hp).
  reflexivity.
Qed.

(** X2: a [tool_call] or [tool_result] entry whose payload is not a dict
    makes the compiler raise [AttributeError] when it reaches the entry,
    with the store as it is then; the entries after it are not read.  (A
    message entry with such a payload is passed over instead.) *)
Theorem select_loop_payload_not_dict entry rest st h :
  String.eqb (kind entry) "tool_call" || String.eqb (kind entry) "tool_result" = true ->
  as_dict h (payload entry) = None ->
  select_step st entry h = (Raise AttributeError, h)
  /\ select_loop (entry :: rest) st h = (Raise AttributeError, h)
  /\ forall before h0,
       select_loop before ([], []) h0 = (Ret st, h) ->
       _select_messages (before ++ entry :: rest) h0 = (Raise AttributeError, h).
Proof.
  intros Hk Hp.
  pose proof (payload_not_dict_cases h st entry Hk Hp) as E.
  assert (E2 : select_loop (entry :: rest) st h = (Raise AttributeError, h)).
  { cbn [select_loop]. now rewrite bind_run, E. }
  split; [exact E|]. split; [exact E2|].
  intros before h0 Hb. unfold _select_messages.
  now rewrite bind_run, select_loop_app, Hb, E2.
Qed.

(** C2, amended: a [tool_result] entry whose payload is a dict with a
    [results] that is not a list emits no message and leaves the store as it
    is, and the pending buffer is empty afterwards; the compiler goes on as
    from an empty buffer. *)
Theorem stray_result_clears_pending h messages pending entry lp pkvs :
  kind entry = "tool_result" ->
  as_dict h (payload entry) = Some (lp, pkvs) ->
  as_list h (default VNone (dict_get "results" pkvs)) = None ->
  select_step (messages, pending) entry h = (Ret (messages, []), h)
  /\ forall rest,
       select_loop (entry :: rest) (messages, pending) h
       = select_loop rest (messages, []) h.
Proof.
  intros Hk Hp Hr.
  assert (E : select_step (messages, pending) entry h = (Ret (messages, []), h)).
  { unfold select_step. rewrite Hk. cbn [String.eqb Ascii.eqb Bool.eqb].
    unfold _append_tool_result_entry, bind, py_get, get_state, ret.
    now rewrite Hp, Hr. }
  split; [exact E|]. intros rest. cbn [select_loop]. unfold bind. now rewrite E.
Qed.

Lemma message_loop h entries : forall messages pending ext,
  Forall (fun entry => kind entry = "message" /\ in_store h (payload entry)) entries ->
  select_loop entries (messages, pending) (h ++ ext) =
    (Ret (messages ++ map VRef (seq (length (h ++ ext)) (length (dict_payloads h entries))),
          pending),
     (h ++ ext) ++ map ODict (dict_payloads h entries)).
Proof.
  induction entries as [|entry entries IH]; intros messages pending ext Hall.
  - cbn. now rewrite !app_nil_r.
  - apply Forall_cons in Hall as [[Hk Hin] Hall].
    cbn [select_loop]. rewrite bind_run, (message_entry_cases _ _ _ _ Hk).
    rewrite (as_dict_app _ _ _ Hin), dict_payloads_cons.
    destruct (as_dict h (payload entry)) as [[l kvs]|].
    + rewrite <- (app_assoc h ext). rewrite (IH _ pending (ext ++ [ODict kvs]) Hall).
      cbn [length map seq]. rewrite !length_app. cbn [length].
      rewrite Nat.add_assoc, Nat.add_1_r. rewrite <- !app_assoc. reflexivity.
    + apply IH, Hall.
Qed.

(** X10: a tape of [message] entries, on any store.  The compiler returns one
    message for each payload that is a dict, in tape order, and passes over
    the other payloads.  The messages are new objects, appended to the store
    in that order, each with the bindings of its payload (the values
    themselves, not copies of them); no object that was in the store is
    changed. *)
Theorem message_entries_copied h entries :
  Forall (fun entry => kind entry = "message" /\ in_store h (payload entry)) entries ->
  _select_messages entries h =
    (Ret (map VRef (seq (length h) (length (dict_payloads h entries)))),
     h ++ map ODict (dict_payloads h entries)).
Proof.
  intros Hall. unfold _select_messages. rewrite bind_run.
  pose proof (message_loop h entries [] [] [] Hall) as Hloop.
  rewrite !app_nil_r in Hloop. rewrite Hloop. reflexivity.
Qed.

End Loop.

Section LoopExamples.
#[local] Existing Instance cpython.

(** C1, at the tape of the specification's example: compiling it rewrites
    [function.arguments] inside the call item of the input entry, from the
    stored dict to its JSON text.  [dict(item)] copies the call item and
    shares its [function] dict with the copy. *)
Theorem select_messages_writes_input :
  call_arguments search_heap (VRef 2) = Some (VRef 0)
  /\ call_arguments (snd (_select_messages search_tape search_heap)) (VRef 2)
     = Some (VStr (dq "{'q': 'x'}"))
  /\ snd (_select_messages search_tape search_heap) !! 1 <> search_heap !! 1.
Proof.
  split; [reflexivity|]. split; [vm_compute; reflexivity|].
  vm_compute. discriminate.
Qed.

(** C2, as stated, fails.  A result entry whose [results] is a string
    empties the pending buffer, and the tape with the entry compiles to other
    messages than the tape without it: the later result has lost its call. *)
Lemma stray_result_breaks_pairing :
  select_step ([], [VRef 1]) stray_result stray_heap <> (Ret ([], [VRef 1]), stray_heap)
  /\ _select_messages [stray_call; stray_result; late_result] stray_heap
     <> _select_messages [stray_call; late_result] stray_heap.
Proof. split; intros H; vm_compute in H; discriminate. Qed.

Lemma stray_result_clears_pending_witness :
  select_step ([], [VRef 1]) stray_result stray_heap = (Ret ([], []), stray_heap)
  /\ forall rest,
       select_loop (stray_result :: rest) ([], [VRef 1]) stray_heap
       = select_loop rest ([], []) stray_heap.
Proof.
  exact (stray_result_clears_pending stray_heap [] [VRef 1] stray_result 4
           [("results", VStr "lost")] eq_refl eq_refl eq_refl).
Defined.

(** An entry of an unknown kind and a message whose payload is a list are
    passed over. *)
Lemma select_messages_passes_over_witness :
  _select_messages ([stray_call] ++ {| kind := "anchor"; payload := VNone |} :: [late_result])
    stray_heap
  = _select_messages ([stray_call] ++ [late_result]) stray_heap
  /\ _select_messages ([stray_call] ++ {| kind := "message"; payload := VRef 2 |}
                         :: [late_result]) stray_heap
     = _select_messages ([stray_call] ++ [late_result]) stray_heap.
Proof.
  split.
  - exact (select_messages_passes_over {| kind := "anchor"; payload := VNone |}
             [stray_call] [late_result] stray_heap eq_refl).
  - exact (select_messages_passes_over {| kind := "message"; payload := VRef 2 |}
             [stray_call] [late_result] stray_heap eq_refl).
Defined.

Lemma select_loop_payload_not_dict_witness :
  select_step ([], []) {| kind := "tool_call"; payload := VStr "lost" |} stray_heap
    = (Raise AttributeError, stray_heap)
  /\ select_loop [{| kind := "tool_call"; payload := VStr "lost" |}] ([], []) stray_heap
     = (Raise AttributeError, stray_heap)
  /\ forall before h0,
       select_loop before ([], []) h0 = (Ret ([], []), stray_heap) ->
       _select_messages (before ++ [{| kind := "tool_call"; payload := VStr "lost" |}]) h0
       = (Raise AttributeError, stray_heap).
Proof.
  exact (select_loop_payload_not_dict {| kind := "tool_call"; payload := VStr "lost" |}
           [] ([], []) stray_heap eq_refl eq_refl).
Defined.

Lemma message_entries_copied_witness :
  _select_messages
    [ {| kind := "message"; payload := VRef 2 |};
      {| kind := "message"; payload := VStr "note" |};
      {| kind := "message"; payload := VRef 4 |} ] search_heap =
    (Ret [VRef 7; VRef 8],
     search_heap ++ [ODict [("id", VStr "1"); ("function", VRef 1)];
                     ODict [("calls", VRef 3)]]).
Proof.
  apply (message_entries_copied search_heap
           [ {| kind := "message"; payload := VRef 2 |};
             {| kind := "message"; payload := VStr "note" |};
             {| kind := "message"; payload := VRef 4 |} ]).
  repeat constructor.
Defined.

End LoopExamples.

(** ** The compiler on a readable tape *)

Section Readable.
Context {interp : Interpreter}.

Lemma compiled_evolves h0 h h' st :
  store_evolves h h' -> compiled h0 h st -> compiled h0 h' st.
Proof.
  intros He [Hm Hp]. split.
  - eapply Forall_impl; [exact Hm|]. intros m [Ha Hd]. split; [exact Ha|].
    eapply is_dict_keep; eauto.
  - eapply Forall_impl; [exact Hp|]. intros c Hd. cbv beta. eapply is_dict_keep; eauto.
Qed.

Lemma readable_entry_in_store h0 h entry :
  store_evolves h0 h -> readable_entry h0 entry -> in_store h (payload entry).
Proof. intros He [Hin _]. eapply store_evolves_in_store; eauto. Qed.

Lemma readable_entry_dict h0 h entry :
  store_evolves h0 h -> readable_entry h0 entry ->
  kind entry = "tool_call" \/ kind entry = "tool_result" ->
  exists lp pkvs, as_dict h (payload entry) = Some (lp, pkvs).
Proof.
  intros He [_ Hdict] Hk.
  assert (Hd0 : is_dict h0 (payload entry) = true).
  { apply Hdict. destruct Hk as [-> | ->]; reflexivity. }
  apply (is_dict_keep _ _ _ He), is_dict_true in Hd0. destruct Hd0 as [[lp pkvs] Hd].
  eauto.
Qed.

Lemma result_within_limits_evolves h h' result :
  store_evolves h h' -> result_within_limits h result -> result_within_limits h' result.
Proof.
  intros He. destruct result; cbn [result_within_limits]; auto;
    apply (json_dumps_evolves h h' _ He).
Qed.

(** An entry within the limits stays within them. *)
Lemma entry_within_limits_evolves h h' entry :
  stratified h -> in_store h (payload entry) -> store_evolves h h' ->
  entry_within_limits h entry -> entry_within_limits h' entry.
Proof.
  intros Hs Hin He Hlim lp pkvs' Ep'.
  destruct (store_evolves_as_dict _ _ _ _ _ He Hin Ep') as (pkvs & Ep & Dp).
  destruct (Hlim lp pkvs Ep) as [Hc Hr]. split.
  - intros Hk items El'.
    rewrite (dict_evolves_other _ _ "calls" Dp) in El' by discriminate.
    pose proof (stratified_field_in_store h _ _ _ "calls" Hs Ep) as Hf.
    pose proof (store_evolves_as_list_back _ _ _ _ He Hf El') as El.
    pose proof (stratified_list_items _ _ _ Hs El) as Hitems.
    apply Forall_lookup_2. intros i item Hi.
    apply (call_within_limits_evolves h h' item Hs);
      [exact (Forall_lookup_1 _ _ _ _ Hitems Hi)|exact He
      |exact (Forall_lookup_1 _ _ _ _ (Hc Hk items El) Hi)].
  - intros Hk results El'.
    rewrite (dict_evolves_other _ _ "results" Dp) in El' by discriminate.
    pose proof (stratified_field_in_store h _ _ _ "results" Hs Ep) as Hf.
    pose proof (store_evolves_as_list_back _ _ _ _ He Hf El') as El.
    eapply Forall_impl; [exact (Hr Hk results El)|].
    intros r. apply result_within_limits_evolves, He.
Qed.

Lemma items_sanitized_evolves h h' entry :
  stratified h -> in_store h (payload entry) -> store_evolves h h' ->
  items_sanitized h entry -> items_sanitized h' entry.
Proof.
  intros Hs Hin He Hsan Hk lp pkvs' items Ep' El'.
  destruct (store_evolves_as_dict _ _ _ _ _ He Hin Ep') as (pkvs & Ep & Dp).
  rewrite (dict_evolves_other _ _ "calls" Dp) in El' by discriminate.
  pose proof (stratified_field_in_store h _ _ _ "calls" Hs Ep) as Hc.
  pose proof (store_evolves_as_list_back _ _ _ _ He Hc El') as El.
  pose proof (stratified_list_items _ _ _ Hs El) as Hitems.
  pose proof (Hsan Hk lp pkvs items Ep El) as Hall.
  apply Forall_lookup_2. intros i item Hi.
  apply (arguments_sanitized_evolves h h' item Hs);
    [exact (Forall_lookup_1 _ _ _ _ Hitems Hi)|exact He|exact (Forall_lookup_1 _ _ _ _ Hall Hi)].
Qed.

(** The messages that the loop over the results returns. *)
Lemma tool_result_loop_messages results : forall index pending messages h ms h',
  tool_result_loop results index pending messages h = (Ret ms, h') ->
  exists new,
    ms = messages ++ new /\ length new = length results
    /\ Forall (fun m => made_after h m /\ is_dict h' m = true) new.
Proof.
  induction results as [|result results IH]; intros index pending messages h ms h' Hrun.
  { injection Hrun as <- <-. exists []. rewrite app_nil_r. repeat split. constructor. }
  cbn [tool_result_loop] in Hrun. rewrite bind_run in Hrun.
  destruct (_build_tool_result_message result pending index h) as [[m|e] h1] eqn:Hb;
    [|discriminate].
  destruct (build_tool_result_message_shape _ _ _ _ _ _ Hb)
    as [(e & [=] & _)|(kvs & [= ->] & -> & _)].
  destruct (tool_result_loop_shape _ _ _ _ _ _ _ Hrun) as (ext & E & _).
  destruct (IH _ _ _ _ _ _ Hrun) as (new & -> & Hlen & Hnew).
  exists (VRef (length h) :: new). rewrite <- app_assoc. split; [reflexivity|].
  split; [cbn; now rewrite Hlen|]. constructor.
  - split; [exists (length h); split; [reflexivity|lia]|]. subst h'.
    eapply is_dict_keep; [apply store_evolves_app|].
    unfold is_dict. now rewrite (as_dict_fresh _ _ kvs eq_refl).
  - eapply Forall_impl; [exact Hnew|]. intros m [Ha Hd]. split; [|exact Hd].
    eapply made_after_le; [|exact Ha]. rewrite length_app. lia.
Qed.

(** One turn of the loop of [_select_messages] on a readable entry:
    whatever the outcome the store stays stratified, and what the loop keeps
    true of its variables stays true. *)
Lemma select_step_inv h0 h st entry out h' :
  stratified h -> store_evolves h0 h ->
  readable_entry h0 entry ->
  compiled h0 h st ->
  select_step st entry h = (out, h') ->
  stratified h' /\ forall st', out = Ret st' -> compiled h0 h' st'.
Proof.
  intros Hs He0 Hr [Hm Hp] Hrun. destruct st as [messages pending].
  cbn [fst snd] in Hm, Hp.
  pose proof (select_step_evolves _ _ _ _ _ Hrun) as He.
  pose proof (store_evolves_length _ _ He0) as Hlen0.
  assert (Hkeep : Forall (fun m => made_after h0 m /\ is_dict h' m = true) messages).
  { eapply Forall_impl; [exact Hm|]. intros m [Ha Hd]. split; [exact Ha|].
    eapply is_dict_keep; eauto. }
  destruct (kind_cases entry) as [Hk|[Hk|[Hk|(E1 & E2 & E3)]]].
  - rewrite (message_entry_cases _ _ _ _ Hk) in Hrun.
    destruct (as_dict h (payload entry)) as [[l kvs]|] eqn:Ed.
    + destruct (as_dict_Some _ _ _ _ Ed) as [_ Hl]. injection Hrun as <- <-.
      split; [eapply alloc_copy_stratified; eauto|]. intros st' [= <-].
      split; cbn [fst snd].
      * apply Forall_app_2; [exact Hkeep|].
        constructor; [|constructor]. split.
        -- exists (length h). split; [reflexivity|lia].
        -- unfold is_dict. now rewrite (as_dict_fresh _ _ _ eq_refl).
      * eapply Forall_impl; [exact Hp|]. intros c Hd. cbv beta.
        eapply is_dict_keep; [apply store_evolves_alloc|exact Hd].
    + injection Hrun as <- <-. split; [assumption|]. intros st' [= <-]. split; assumption.
  - destruct (readable_entry_dict h0 h entry He0 Hr (or_introl Hk)) as (lp & pkvs & Hd).
    destruct (tool_call_entry_inv h messages pending entry lp pkvs _ _ Hs Hk Hd Hrun)
      as (Hs' & Hall).
    split; [exact Hs'|]. intros st' Hout.
    destruct (Hall st' Hout) as (added & calls & -> & Hcalls & Hadded & _).
    split; cbn [fst snd]; [|exact Hcalls].
    apply Forall_app_2; [exact Hkeep|].
    eapply Forall_impl; [exact Hadded|]. intros m [Ha Hdm]. split; [|exact Hdm].
    eapply made_after_le; eauto.
  - destruct (readable_entry_dict h0 h entry He0 Hr (or_intror Hk)) as (lp & pkvs & Hd).
    rewrite (tool_result_entry_cases _ _ _ _ _ _ Hk Hd) in Hrun.
    destruct (as_list h (default VNone (dict_get "results" pkvs))) as [results|] eqn:El.
    2:{ injection Hrun as <- <-. split; [assumption|]. intros st' [= <-].
        split; cbn [fst snd]; [assumption|constructor]. }
    destruct (tool_result_loop results 0 pending messages h) as [[ms|e] h1] eqn:Hloop;
      destruct (tool_result_loop_shape _ _ _ _ _ _ _ Hloop) as (ext & -> & Hext);
      injection Hrun as <- <-;
      (split; [now apply stratified_app_scalars|]); [|discriminate].
    intros st' [= <-].
    destruct (tool_result_loop_messages _ _ _ _ _ _ _ Hloop) as (new & -> & _ & Hnew).
    split; cbn [fst snd]; [|constructor].
    apply Forall_app_2; [exact Hkeep|].
    eapply Forall_impl; [exact Hnew|]. intros m [Ha Hdm]. split; [|exact Hdm].
    eapply made_after_le; eauto.
  - rewrite (other_entry_cases _ _ _ E1 E2 E3) in Hrun. injection Hrun as <- <-.
    split; [assumption|]. intros st' [= <-]. split; assumption.
Qed.


Lemma select_loop_inv h0 entries : forall st h out h',
  stratified h -> store_evolves h0 h ->
  Forall (readable_entry h0) entries ->
  compiled h0 h st ->
  select_loop entries st h = (out, h') ->
  stratified h' /\ forall st', out = Ret st' -> compiled h0 h' st'.
Proof.
  induction entries as [|entry entries IH]; intros st h out h' Hs He0 Hr Hc Hrun.
  - injection Hrun as <- <-. split; [assumption|]. now intros st' [= <-].
  - apply Forall_cons in Hr as [Hr Hrs].
    cbn [select_loop] in Hrun. rewrite bind_run in Hrun.
    destruct (select_step st entry h) as [[st1|e] h1] eqn:Hstep.
    + destruct (select_step_inv h0 h st entry _ _ Hs He0 Hr Hc Hstep) as (Hs1 & Hc1).
      pose proof (select_step_evolves _ _ _ _ _ Hstep) as He1.
      exact (IH st1 h1 out h' Hs1 (store_evolves_trans _ _ _ He0 He1) Hrs
               (Hc1 st1 eq_refl) Hrun).
    + destruct (select_step_inv h0 h st entry _ _ Hs He0 Hr Hc Hstep) as (Hs1 & _).
      injection Hrun as <- <-. split; [assumption|discriminate].
Qed.



(** ** A call entry followed by its result entry *)




(** ** Compiling a tape again *)

(** After its turn of the loop, the call items of an entry are sanitized,
    and the entry is within the limits. *)
Lemma select_step_sanitizes h0 h st entry st1 h1 :
  stratified h -> store_evolves h0 h ->
  readable_entry h0 entry ->
  select_step st entry h = (Ret st1, h1) ->
  items_sanitized h1 entry /\ entry_within_limits h1 entry.
Proof.
  intros Hs He0 Hr Hstep.
  pose proof (select_step_evolves _ _ _ _ _ Hstep) as He1.
  pose proof (readable_entry_in_store _ _ _ He0 Hr) as Hin.
  destruct st as [messages pending].
  assert (Hsan : items_sanitized h1 entry).
  { intros Hk lp pkvs1 items1 Ep1 El1.
    destruct (store_evolves_as_dict _ _ _ _ _ He1 Hin Ep1) as (pkvs & Ep & Dp).
    rewrite (dict_evolves_other _ _ "calls" Dp) in El1 by discriminate.
    pose proof (stratified_field_in_store h _ _ _ "calls" Hs Ep) as Hc.
    pose proof (store_evolves_as_list_back _ _ _ _ He1 Hc El1) as El.
    pose proof (stratified_list_items _ _ _ Hs El) as Hitems.
    destruct (tool_call_entry_inv h messages pending entry lp pkvs _ _ Hs Hk Ep Hstep)
      as (Hs1 & Hall).
    destruct (Hall st1 eq_refl) as (added & calls & -> & _ & _ & _ & _ & Hcs & Hcopies).
    specialize (Hcopies items1 El).
    apply Forall_lookup_2. intros i item Hi lc ckvs lf fkvs Ec Ef.
    pose proof (Forall_lookup_1 _ _ _ _ Hitems Hi) as Hitem.
    destruct (store_evolves_as_dict _ _ _ _ _ He1 Hitem Ec) as (ckvs0 & Ec0 & Dc).
    assert (Hin_items : item ∈ dict_items h items1).
    { unfold dict_items. apply list_elem_of_In, filter_In. split.
      - apply list_elem_of_In. eapply list_elem_of_lookup_2; eauto.
      - unfold is_dict. now rewrite Ec0. }
    apply list_elem_of_lookup_1 in Hin_items as [j Hj].
    destruct (Forall2_lookup_l _ _ _ _ _ Hcopies Hj) as (c & Hcj & Hcopy).
    pose proof (Forall_lookup_1 _ _ _ _ Hcs Hcj) as Hsc.
    destruct Hcopy as (li & kvs & lcc & kvs' & Ei & Ecc & _ & Hkk).
    rewrite Ec0 in Ei. injection Ei as <- <-.
    refine (arguments_sanitized_same h1 c item lcc kvs' lc ckvs Ecc Ec _ Hsc
              lc ckvs lf fkvs Ec Ef).
    rewrite (Hkk "function") by discriminate.
    symmetry. apply (dict_evolves_other _ _ "function" Dc). discriminate. }
  split; [exact Hsan|].
  intros lp pkvs1 Ep1. split.
  - intros Hk items El. eapply Forall_impl; [exact (Hsan Hk lp pkvs1 items Ep1 El)|].
    intros c. apply sanitized_within_limits.
  - intros Hk results El1.
    destruct (store_evolves_as_dict _ _ _ _ _ He1 Hin Ep1) as (pkvs & Ep & Dp).
    rewrite (dict_evolves_other _ _ "results" Dp) in El1 by discriminate.
    pose proof (stratified_field_in_store h _ _ _ "results" Hs Ep) as Hc.
    pose proof (store_evolves_as_list_back _ _ _ _ He1 Hc El1) as El.
    rewrite (tool_result_entry_cases _ _ _ _ _ _ Hk Ep), El in Hstep.
    destruct (tool_result_loop results 0 pending messages h) as [[ms|e] h2] eqn:Hloop;
      [|discriminate].
    injection Hstep as _ <-. exact (tool_result_loop_rendered _ _ _ _ _ _ _ Hloop).
Qed.

Lemma select_loop_sanitizes h0 entries : forall st h st' h',
  stratified h -> store_evolves h0 h ->
  Forall (readable_entry h0) entries ->
  compiled h0 h st ->
  select_loop entries st h = (Ret st', h') ->
  Forall (items_sanitized h') entries /\ Forall (entry_within_limits h') entries.
Proof.
  induction entries as [|entry entries IH]; intros st h st' h' Hs He0 Hr Hc Hloop;
    [split; constructor|].
  apply Forall_cons in Hr as [Hr Hrs].
  cbn [select_loop] in Hloop. rewrite bind_run in Hloop.
  destruct (select_step st entry h) as [[st1|e] h1] eqn:Hstep; [|discriminate].
  destruct (select_step_inv h0 h st entry _ _ Hs He0 Hr Hc Hstep) as (Hs1 & Hc1).
  pose proof (select_step_evolves _ _ _ _ _ Hstep) as He1.
  pose proof (store_evolves_trans _ _ _ He0 He1) as He01.
  pose proof (select_loop_evolves _ _ _ _ _ Hloop) as He2.
  destruct (select_step_sanitizes h0 h st entry st1 h1 Hs He0 Hr Hstep) as (Hsan1 & Hlim1).
  destruct (IH st1 h1 st' h' Hs1 He01 Hrs (Hc1 st1 eq_refl) Hloop) as (Hsan & Hlim).
  pose proof (readable_entry_in_store _ _ _ He01 Hr) as Hin1.
  split; constructor; auto.
  - exact (items_sanitized_evolves h1 h' entry Hs1 Hin1 He2 Hsan1).
  - exact (entry_within_limits_evolves h1 h' entry Hs1 Hin1 He2 Hlim1).
Qed.

(** One turn of the loop on an entry that is within the limits and whose
    call items are sanitized: objects are added and none is written. *)
Lemma select_step_appends h0 h st entry :
  stratified h -> store_evolves h0 h ->
  readable_entry h0 entry ->
  items_sanitized h entry ->
  entry_within_limits h entry ->
  compiled h0 h st ->
  exists st' ext, select_step st entry h = (Ret st', h ++ ext).
Proof.
  intros Hs He0 Hr Hsan Hlim Hc. destruct st as [messages pending].
  destruct Hc as [_ Hp]. cbn [snd] in Hp.
  destruct (kind_cases entry) as [Hk|[Hk|[Hk|(E1 & E2 & E3)]]].
  - rewrite (message_entry_cases _ _ _ _ Hk).
    destruct (as_dict h (payload entry)) as [[l kvs]|].
    + eexists _, [ODict kvs]. reflexivity.
    + eexists _, []. now rewrite app_nil_r.
  - destruct (readable_entry_dict h0 h entry He0 Hr (or_introl Hk)) as (lp & pkvs & Hd).
    rewrite (tool_call_entry_cases _ _ _ _ _ _ Hk Hd).
    destruct (as_list h (default VNone (dict_get "calls" pkvs))) as [items|] eqn:El.
    2:{ eexists _, []. now rewrite app_nil_r. }
    destruct (normalize_loop_appends items [] h Hs (stratified_list_items _ _ _ Hs El)
                (Hsan Hk lp pkvs items Hd El)) as (new & ext & ->).
    cbn [app]. destruct new as [|c cs].
    + eexists _, ext. reflexivity.
    + eexists _, (ext ++ [_; _]). f_equal. now rewrite <- !app_assoc.
  - destruct (readable_entry_dict h0 h entry He0 Hr (or_intror Hk)) as (lp & pkvs & Hd).
    rewrite (tool_result_entry_cases _ _ _ _ _ _ Hk Hd).
    destruct (as_list h (default VNone (dict_get "results" pkvs))) as [results|] eqn:El.
    2:{ eexists _, []. now rewrite app_nil_r. }
    destruct (tool_result_loop_run results 0 pending messages h Hs
                (stratified_list_items _ _ _ Hs El))
      as (new & ext & -> & _).
    + eapply Forall_impl; [exact Hp|]. intros c Hc. now apply is_dict_true.
    + exact (proj2 (Hlim lp pkvs Hd) Hk results El).
    + eexists _, ext. reflexivity.
  - rewrite (other_entry_cases _ _ _ E1 E2 E3). eexists _, []. now rewrite app_nil_r.
Qed.

Lemma select_loop_appends h0 entries : forall st h,
  stratified h -> store_evolves h0 h ->
  Forall (readable_entry h0) entries ->
  Forall (items_sanitized h) entries ->
  Forall (entry_within_limits h) entries ->
  compiled h0 h st ->
  exists st' ext, select_loop entries st h = (Ret st', h ++ ext).
Proof.
  induction entries as [|entry entries IH]; intros st h Hs He0 Hr Hsan Hlim Hc.
  { exists st, []. now rewrite app_nil_r. }
  apply Forall_cons in Hr as [Hr Hrs]. apply Forall_cons in Hsan as [Hse Hsan].
  apply Forall_cons in Hlim as [Hle Hlim].
  destruct (select_step_appends h0 h st entry Hs He0 Hr Hse Hle Hc) as (st1 & ext1 & Hstep).
  destruct (select_step_inv h0 h st entry _ _ Hs He0 Hr Hc Hstep) as (Hs1 & Hc1).
  pose proof (select_step_evolves _ _ _ _ _ Hstep) as He1.
  destruct (IH st1 (h ++ ext1) Hs1 (store_evolves_trans _ _ _ He0 He1) Hrs)
    as (st2 & ext2 & Hloop).
  - apply Forall_lookup_2. intros i e Hi.
    apply (items_sanitized_evolves h (h ++ ext1) e Hs);
      [|exact He1|exact (Forall_lookup_1 _ _ _ _ Hsan Hi)].
    eapply readable_entry_in_store; [exact He0|]. exact (Forall_lookup_1 _ _ _ _ Hrs Hi).
  - apply Forall_lookup_2. intros i e Hi.
    apply (entry_within_limits_evolves h (h ++ ext1) e Hs);
      [|exact He1|exact (Forall_lookup_1 _ _ _ _ Hlim Hi)].
    eapply readable_entry_in_store; [exact He0|]. exact (Forall_lookup_1 _ _ _ _ Hrs Hi).
  - exact (Hc1 st1 eq_refl).
  - exists st2, (ext1 ++ ext2). cbn [select_loop]. rewrite bind_run, Hstep. cbv beta iota.
    rewrite Hloop. now rewrite <- app_assoc.
Qed.

(** X20: compiling a tape a second time writes to no object.  On a
    stratified store and a readable tape, the first run of
    [_select_messages] may rewrite [arguments] in call items of the tape; a
    run on the store that it leaves returns as well, and its store is the
    store it started from followed by the objects it made. *)
Theorem select_messages_again h entries messages h1 :
  stratified h ->
  Forall (readable_entry h) entries ->
  _select_messages entries h = (Ret messages, h1) ->
  exists messages' ext,
    _select_messages entries h1 = (Ret messages', h1 ++ ext).
Proof.
  intros Hs Hr Hrun.
  assert (Hc0 : compiled h h ([], [])) by (split; constructor).
  unfold _select_messages in Hrun. rewrite bind_run in Hrun.
  destruct (select_loop entries ([], []) h) as [[st|e] h'] eqn:Hloop; [|discriminate].
  injection Hrun as _ <-.
  destruct (select_loop_inv h entries _ _ _ _ Hs (store_evolves_refl h) Hr Hc0 Hloop)
    as (Hs' & _).
  pose proof (select_loop_evolves _ _ _ _ _ Hloop) as He.
  destruct (select_loop_sanitizes h entries _ _ _ _ Hs (store_evolves_refl h) Hr Hc0 Hloop)
    as (Hsan & Hlim).
  destruct (select_loop_appends h entries ([], []) h' Hs' He Hr Hsan Hlim)
    as (st2 & ext & Hloop2).
  { split; constructor. }
  exists (fst st2), ext. unfold _select_messages. now rewrite bind_run, Hloop2.
Qed.

End Readable.

(** ** Sanitizing and rendering, on any store *)

Section Rendering.
Context {interp : Interpreter}.

(** X7: what [_sanitize_tool_call] does to the store, on any store and any
    value.  It adds and removes no object and writes to no object other than
    the [function] dict of the call; what it changes there is only
    [arguments], to a string that [json.loads] accepts.  It returns the call
    it was given, the same object.  When it raises, the store is as it was:
    it raises [AttributeError] for a call that is not a dict, and for a dict
    what [json] raises, [RecursionError] or [ValueError], when [json.dumps]
    refuses the [arguments] dict or [json.loads] has no room for the
    [arguments] string. *)
Theorem sanitize_tool_call_effect call h :
  let r := _sanitize_tool_call call h in
  length (snd r) = length h
  /\ store_evolves h (snd r)
  /\ (forall l, (forall lc ckvs, as_dict h call = Some (lc, ckvs) ->
                  dict_get "function" ckvs <> Some (VRef l)) ->
        snd r !! l = h !! l)
  /\ match fst r with
     | Ret c => c = call
     | Raise e =>
       snd r = h
       /\ (e = AttributeError /\ as_dict h call = None
           \/ as_dict h call <> None
              /\ (e = RecursionError \/ e = circular_reference
                  \/ e = exceeds_digit_limit))
     end.
Proof.
  cbv zeta. destruct (_sanitize_tool_call call h) as [out h'] eqn:Hrun. cbn [fst snd].
  destruct (sanitize_inv _ _ _ _ Hrun) as (He & Hlen & _ & Hraise & Hret).
  split; [exact Hlen|]. split; [exact He|]. split.
  - intros l Hl. rewrite sanitize_cases in Hrun.
    destruct (as_dict h call) as [[lc ckvs]|] eqn:Ec; [|now injection Hrun as _ <-].
    destruct (as_dict h (default VNone (dict_get "function" ckvs))) as [[lf fkvs]|] eqn:Ef;
      [|now injection Hrun as _ <-].
    destruct (as_dict_Some _ _ _ _ Ef) as [Efun Hlf].
    assert (Hne : lf <> l).
    { intros ->. apply (Hl lc ckvs eq_refl).
      destruct (dict_get "function" ckvs) as [f|]; [|discriminate]. cbn in Efun. congruence. }
    cbv zeta in Hrun.
    destruct (default VNone (dict_get "arguments" fkvs)) as [| b | z | s | la];
      try (injection Hrun as _ <-; reflexivity);
      try (injection Hrun as _ <-; now apply list_lookup_insert_ne).
    + destruct (json_loads s); injection Hrun as _ <-;
        [reflexivity|now apply list_lookup_insert_ne|reflexivity].
    + destruct (as_dict h (VRef la)) as [p|]; [|injection Hrun as _ <-; reflexivity].
      destruct (json_dumps_run h (VRef la)); injection Hrun as _ <-;
        [now apply list_lookup_insert_ne|reflexivity].
  - destruct out as [c|e].
    + exact (proj1 (Hret c eq_refl)).
    + split; [exact (Hraise e eq_refl)|].
      pose proof (sanitize_raises _ _ _ _ Hrun) as Hcls.
      destruct (as_dict h call) as [p|]; [right|left]; auto.
Qed.

(** On a stratified store that is not deeper than the interpreter has room
    for and holds no integer beyond the digit limit, the encoder returns. *)
Lemma json_encode_total h :
  stratified h -> ints_within_limit h = true ->
  forall d path v,
    val_below d v = true -> in_store h v -> int_within_limit v = true ->
    Forall (fun p => val_below p v = true) path ->
    exists out, json_encode d path h v = Ret out.
Proof.
  intros Hs Hints.
  assert (Hscalar : forall d path v,
    (forall l, v <> VRef l) -> int_within_limit v = true ->
    exists out, json_encode d path h v = Ret out).
  { intros d path v Hv Hi. rewrite json_encode_scalar by assumption.
    destruct v as [| [] | z | |l]; eauto; try (now elim (Hv l)).
    unfold int_within_limit in Hi. apply Nat.leb_le in Hi.
    destruct (Nat.ltb_spec max_str_digits (int_digits z)); [lia|eauto]. }
  induction d as [|d IH]; intros path v Hd Hv Hi Hpath.
  { destruct v as [| | | |l]; [| | | |discriminate];
      (apply Hscalar; [discriminate|exact Hi]). }
  destruct v as [| | | |l]; try (apply Hscalar; [discriminate|exact Hi]).
  rewrite json_encode_ref.
  unfold val_below in Hd. apply Nat.ltb_lt in Hd.
  assert (Hnot : l ∉ path).
  { intros Hin. rewrite Forall_forall in Hpath. specialize (Hpath l Hin).
    unfold val_below in Hpath. apply Nat.ltb_lt in Hpath. lia. }
  rewrite (bool_decide_eq_false_2 _ Hnot).
  unfold in_store, val_below in Hv. apply Nat.ltb_lt in Hv.
  destruct (lookup_lt_is_Some_2 h l Hv) as [o Hl]. rewrite Hl.
  assert (Hval : forall x, In x (obj_values o) ->
            exists out, json_encode d (l :: path) h x = Ret out).
  { intros x Hx. pose proof (stratified_values h l o x Hs Hl Hx) as Hbx.
    apply IH.
    - eapply val_below_mono; [|exact Hbx]. lia.
    - eapply stratified_values_in_store; eauto.
    - unfold ints_within_limit in Hints. rewrite forallb_forall in Hints.
      assert (Ho : In o h) by (apply list_elem_of_In; eapply list_elem_of_lookup_2; eauto).
      specialize (Hints o Ho). rewrite forallb_forall in Hints. auto.
    - constructor; [exact Hbx|]. rewrite Forall_forall in Hpath |- *.
      intros p Hp. specialize (Hpath p Hp). unfold val_below in Hpath.
      apply Nat.ltb_lt in Hpath.
      eapply val_below_mono; [|exact Hbx]. lia. }
  destruct o as [kvs|xs]; cbn [obj_values] in Hval.
  - destruct (mapM_out_returns (encode_member d (l :: path) h) kvs) as [bs ->]; [|eauto].
    intros kv Hkv. unfold encode_member.
    destruct (Hval (snd kv)) as [out ->]; [apply in_map_iff; eauto|eauto].
  - destruct (mapM_out_returns (json_encode d (l :: path) h) xs) as [bs ->]; eauto.
Qed.

(** X8: [_render_tool_result] on any store.  It leaves the store as it is.
    A string result is returned as it is, not quoted, so the content need
    not be JSON.  For any other result the outcome is that of [json.dumps]:
    a content that is the text [json.dumps] gives, which [json.loads]
    accepts, or one of the exceptions that [json.dumps] raises,
    [RecursionError] or [ValueError]; [TypeError] is not among them.  On a
    stratified store with no more objects than the interpreter has room for
    nested containers, and no integer beyond the digit limit, it returns. *)
Theorem render_tool_result_text h result :
  snd (_render_tool_result result h) = h
  /\ (forall s, result = VStr s -> _render_tool_result result h = (Ret s, h))
  /\ (forall content,
        fst (_render_tool_result result h) = Ret content ->
        match result with
        | VStr s => content = s
        | _ => json_dumps h result = Some content /\ json_loads_ok content = true
        end)
  /\ (forall e,
        fst (_render_tool_result result h) = Raise e ->
        e = RecursionError \/ e = circular_reference \/ e = exceeds_digit_limit)
  /\ (stratified h -> in_store h result ->
      length h <= S nesting_limit ->
      ints_within_limit h = true -> int_within_limit result = true ->
      exists content, _render_tool_result result h = (Ret content, h)).
Proof.
  rewrite render_tool_result_cases.
  assert (Hd : forall v,
    snd (json_dumps_run h v, h) = h
    /\ (forall content, fst (json_dumps_run h v, h) = Ret content ->
          json_dumps h v = Some content /\ json_loads_ok content = true)
    /\ (forall e, fst (json_dumps_run h v, h) = Raise e ->
          e = RecursionError \/ e = circular_reference \/ e = exceeds_digit_limit)
    /\ (stratified h -> in_store h v -> length h <= S nesting_limit ->
        ints_within_limit h = true -> int_within_limit v = true ->
        exists content, (json_dumps_run h v, h) = (Ret content, h))).
  { intros v. cbn [fst snd]. split; [reflexivity|]. split; [|split].
    - intros content Hc.
      assert (E : json_dumps h v = Some content) by (unfold json_dumps; now rewrite Hc).
      split; [exact E|]. exact (json_loads_dumps _ _ _ E).
    - intros e. apply json_dumps_run_raises.
    - intros Hs Hv Hlen Hints Hi. unfold json_dumps_run.
      destruct (json_encode_total h Hs Hints (S nesting_limit) [] v) as [out ->];
        [|exact Hv|exact Hi|constructor|eauto].
      eapply val_below_mono; [exact Hlen|exact Hv]. }
  destruct result as [| b | z | s | l];
    try (match goal with
         | |- context [json_dumps_run h ?v] => destruct (Hd v) as (H1 & H2 & H3 & H4)
         end;
         split; [exact H1|]; split; [discriminate|]; split; [exact H2|];
         split; [exact H3|exact H4]).
  cbn [fst snd]. split; [reflexivity|]. split; [now intros s0 [= ->]|].
  split; [now intros content [= ->]|]. split; [discriminate|]. eauto.
Qed.

(** The encoder gives up on any object of a set of objects that each hold
    one of the set: it finds the cycle or runs out of room. *)
Lemma json_encode_cyclic h (P : loc -> Prop) :
  (forall l, P l -> exists o l', h !! l = Some o /\ In (VRef l') (obj_values o) /\ P l') ->
  forall d path l, P l -> exists e, json_encode d path h (VRef l) = Raise e.
Proof.
  intros Hcyc. induction d as [|d IH]; intros path l Hl; [cbn; eauto|].
  destruct (Hcyc l Hl) as (o & l' & Ho & Hin & Hl').
  rewrite json_encode_ref, Ho. destruct (bool_decide (l ∈ path)); [eauto|].
  destruct (IH (l :: path) l' Hl') as [e He].
  destruct o as [kvs|xs]; cbn [obj_values] in Hin.
  - apply in_map_iff in Hin as (kv & Ekv & Hin).
    destruct (mapM_out_raises (encode_member d (l :: path) h) kvs kv e Hin) as [e' ->];
      [|eauto].
    unfold encode_member. now rewrite Ekv, He.
  - destruct (mapM_out_raises (json_encode d (l :: path) h) xs _ e Hin He) as [e' ->].
    eauto.
Qed.

(** X9: a result that lies on a cycle of references is not rendered:
    [_render_tool_result] raises what [json.dumps] raises, the [ValueError]
    for the cycle (or for a long integer met before the cycle is closed) or
    [RecursionError] when the cycle is longer than the interpreter has room
    for, and leaves the store as it is.  The cycle is given as a set of
    objects that each hold an object of the set: an object that holds
    itself, or a longer cycle. *)
Theorem render_tool_result_cyclic h (P : loc -> Prop) l :
  (forall l, P l -> exists o l', h !! l = Some o /\ In (VRef l') (obj_values o) /\ P l') ->
  P l ->
  exists e,
    _render_tool_result (VRef l) h = (Raise e, h)
    /\ (e = RecursionError \/ e = circular_reference \/ e = exceeds_digit_limit).
Proof.
  intros Hcyc Hl. cbn [_render_tool_result]. unfold json_dumps_m.
  destruct (json_dumps_run h (VRef l)) as [s|e] eqn:Ed.
  - unfold json_dumps_run in Ed.
    destruct (json_encode_cyclic h P Hcyc (S nesting_limit) [] l Hl) as [e He].
    rewrite He in Ed. discriminate.
  - exists e. split; [reflexivity|]. eapply json_dumps_run_raises; eauto.
Qed.

End Rendering.





Section TapeExamples.
#[local] Existing Instance cpython.




Lemma select_messages_again_witness :
  exists messages' ext,
    _select_messages search_tape search_compiled = (Ret messages', search_compiled ++ ext).
Proof.
  apply (select_messages_again search_heap search_tape [VRef 9; VRef 10] search_compiled).
  - reflexivity.
  - repeat constructor.
  - vm_compute. reflexivity.
Defined.

Lemma render_tool_result_text_witness :
  exists content,
    _render_tool_result (VRef 5) search_heap = (Ret content, search_heap)
    /\ json_dumps search_heap (VRef 5) = Some content
    /\ json_loads_ok content = true.
Proof.
  destruct (render_tool_result_text search_heap (VRef 5)) as (_ & _ & Htext & _ & Hret).
  destruct Hret as [content Hrun]; try reflexivity.
  { vm_compute. lia. }
  exists content. split; [exact Hrun|]. apply (Htext content). now rewrite Hrun.
Defined.

(** A dict and a list that hold each other: the interpreter has room for
    the two, and the exception is the [ValueError] for the cycle. *)
Lemma render_tool_result_cyclic_witness :
  _render_tool_result (VRef 1) knot_heap
  = (Raise (ValueError "Circular reference detected"), knot_heap).
Proof.
  destruct (render_tool_result_cyclic knot_heap (fun l => l < 2) 1) as (e & Hrun & _).
  - intros [|[|l]] Hl; [| |lia].
    + exists (ODict [("next", VRef 1)]), 1. cbn. split; [reflexivity|]. split; [auto|lia].
    + exists (OList [VInt 1; VRef 0]), 0. cbn. split; [reflexivity|]. split; [auto|lia].
  - lia.
  - pose proof Hrun as Hc. vm_compute in Hc. injection Hc as <-. exact Hrun.
Defined.

End TapeExamples.

(** ** The limits at work *)

Section LimitExamples.

(** Where the interpreter has no room for a list in a list, a result that
    is one is not rendered, on a stratified store, and a call whose
    arguments are the text of one is not sanitized: both raise
    [RecursionError] and leave the store as it is.  With room for it the
    result is rendered and the call returned as it is. *)
Lemma no_room_for_nesting :
  stratified nested_heap
  /\ @_render_tool_result shallow (VRef 1) nested_heap = (Raise RecursionError, nested_heap)
  /\ @_sanitize_tool_call shallow (VRef 3) nested_heap = (Raise RecursionError, nested_heap)
  /\ @_render_tool_result cpython (VRef 1) nested_heap = (Ret "[[]]", nested_heap)
  /\ @_sanitize_tool_call cpython (VRef 3) nested_heap = (Ret (VRef 3), nested_heap).
Proof. repeat split; vm_compute; reflexivity. Qed.

(** An integer of more than 4300 digits: as a result it is not rendered,
    [json.dumps] raises [ValueError]; as the text of the arguments of a call
    it is replaced by [{}], since [json.loads] raises [ValueError] on it. *)
Lemma beyond_digit_limit :
  @_render_tool_result cpython (VInt (10 ^ 4300)) [] = (Raise exceeds_digit_limit, [])
  /\ @json_loads cpython long_integer = LoadsValueError
  /\ @_sanitize_tool_call cpython (VRef 1) long_heap
     = (Ret (VRef 1),
        [ ODict [("name", VStr "f"); ("arguments", VStr "{}")];
          ODict [("id", VStr "1"); ("function", VRef 0)] ]).
Proof. repeat split; vm_compute; reflexivity. Qed.

End LimitExamples.

(** ** The tool registry *)

Lemma to_model_name_get x : forall i,
  String.get i (to_model_name x)
  = option_map (fun c => if Ascii.eqb c "." then "_"%char else c) (String.get i x).
Proof.
  induction x as [|c x IH]; intros i; [reflexivity|].
  destruct i as [|i]; cbn; [reflexivity|apply IH].
Qed.

(** C9: [to_model_name] is a function on all strings; it keeps the length,
    puts [_] where the name has [.] and keeps every other character, so no
    [.] is left; and applying it twice is applying it once. *)
Theorem to_model_name_idempotent (x : string) :
  to_model_name (to_model_name x) = to_model_name x
  /\ String.length (to_model_name x) = String.length x
  /\ (forall i c, String.get i x = Some c ->
        String.get i (to_model_name x) = Some (if Ascii.eqb c "." then "_"%char else c))
  /\ (forall i, String.get i (to_model_name x) <> Some "."%char).
Proof.
  split; [|split; [|split]].
  - induction x as [|c x IH]; [reflexivity|]. cbn. rewrite IH. f_equal.
    destruct (Ascii.eqb c ".") eqn:E; [reflexivity|]. now rewrite E.
  - induction x as [|c x IH]; [reflexivity|]. cbn. now rewrite IH.
  - intros i c Hc. now rewrite to_model_name_get, Hc.
  - intros i. rewrite to_model_name_get. destruct (String.get i x) as [c|]; [|discriminate].
    cbn. destruct (Ascii.eqb c ".") eqn:E; [discriminate|].
    intros [= ->]. discriminate.
Qed.

Lemma dict_get_set_name {V} (f : V -> string) k (v : V) d :
  f v = k -> (forall k' v', dict_get k' d = Some v' -> f v' = k') ->
  forall k' v', dict_get k' (dict_set k v d) = Some v' -> f v' = k'.
Proof.
  intros Hv Hd k' v' Hg. destruct (String.eqb_spec k k') as [<-|Hne].
  - rewrite dict_get_set_eq in Hg. now injection Hg as <-.
  - rewrite dict_get_set_ne in Hg by assumption. eauto.
Qed.

Lemma dict_get_In {V} k (v : V) d : dict_get k d = Some v -> In v (map snd d).
Proof.
  induction d as [|[k' v'] d IH]; cbn; [discriminate|].
  destruct (String.eqb k k'); [intros [= ->]; now left|auto].
Qed.

Lemma insert_by_name_In d d' ds : In d (insert_by_name d' ds) <-> d = d' \/ In d ds.
Proof.
  induction ds as [|d0 ds IH]; cbn; [intuition|].
  destruct (String.leb (name d') (name d0)); cbn; [intuition|].
  rewrite IH. intuition.
Qed.

Lemma sorted_by_name_In d ds : In d (sorted_by_name ds) <-> In d ds.
Proof.
  induction ds as [|d0 ds IH]; cbn; [reflexivity|].
  rewrite insert_by_name_In, IH. intuition.
Qed.

(** The loop raises when a model name is already seen, or when two of the
    remaining descriptors with different names share one. *)
Lemma model_tools_loop_raises ds : forall seen tools,
  (exists d, In d ds /\ to_model_name (name d) ∈ seen)
  \/ (exists d1 d2, In d1 ds /\ In d2 ds /\ name d1 <> name d2
                    /\ to_model_name (name d1) = to_model_name (name d2)) ->
  exists m, model_tools_loop ds seen tools = Raise (duplicate_model_name m).
Proof.
  induction ds as [|d ds IH]; intros seen tools Hc.
  { destruct Hc as [(d & [] & _)|(d1 & d2 & [] & _)]. }
  cbn [model_tools_loop].
  destruct (bool_decide_reflect (to_model_name (name d) ∈ seen)) as [Hin|Hnin]; [eauto|].
  apply IH. destruct Hc as [(d0 & [<-|Hd0] & Hs)|(d1 & d2 & [<-|H1] & [<-|H2] & Hne & Heq)].
  - contradiction.
  - left. exists d0. split; [assumption|set_solver].
  - congruence.
  - left. exists d2. split; [assumption|]. rewrite <- Heq. set_solver.
  - left. exists d1. split; [assumption|]. rewrite Heq. set_solver.
  - right. exists d1, d2. auto.
Qed.




Lemma without_context_twice kwargs :
  without_context (without_context kwargs) = without_context kwargs.
Proof.
  induction kwargs as [|[k v] kwargs IH]; [reflexivity|].
  unfold without_context in *. cbn [List.filter fst].
  destruct (String.eqb k "context") eqn:E; cbn [negb]; [exact IH|].
  cbn [List.filter fst]. now rewrite E, IH.
Qed.

Section RegistryFacts.
Context {interp : Interpreter}.
Context `{Republic}.

Lemma render_param_store key value h : snd (render_param key value h) = h.
Proof.
  unfold render_param. rewrite bind_run. unfold json_dumps_m.
  destruct (json_dumps_run h value); reflexivity.
Qed.

Lemma render_params_store kwargs : forall params h,
  snd (render_params kwargs params h) = h.
Proof.
  induction kwargs as [|[key value] kwargs IH]; intros params h; [reflexivity|].
  cbn [render_params]. rewrite bind_run.
  pose proof (render_param_store key value h) as Hp.
  destruct (render_param key value h) as [[p|e] h1]; cbn [snd] in Hp; subst h1.
  - apply IH.
  - reflexivity.
Qed.

(** What [_log_tool_call] does, by the outcome of rendering. *)
Lemma log_tool_call_cases name0 kwargs context w :
  _log_tool_call name0 kwargs context w =
  match render_params kwargs [] (store w) with
  | (Ret params, _) =>
    (Ret tt, log_record (ToolCallStart name0 (join_strings ", " params)) w)
  | (Raise e, _) => (Raise e, w)
  end.
Proof.
  unfold _log_tool_call. rewrite bind_run. unfold on_store.
  pose proof (render_params_store kwargs [] (store w)) as Hs.
  destruct (render_params kwargs [] (store w)) as [[params|e] h1]; cbn [snd] in Hs; subst h1.
  - unfold emit, log_record. cbn [store logs]. reflexivity.
  - now destruct w.
Qed.


(** X13: [_log_tool_call] never touches the store.  When it returns it has
    written exactly one record, the start line of the named tool, after the
    records that were there; when rendering raises it has written nothing.
    The [context] argument has no effect. *)
Theorem log_tool_call_effect name0 kwargs context w :
  let r := _log_tool_call name0 kwargs context w in
  store (snd r) = store w
  /\ match fst r with
     | Ret _ => exists line, logs (snd r) = logs w ++ [ToolCallStart name0 line]
     | Raise _ => snd r = w
     end
  /\ r = _log_tool_call name0 kwargs VNone w.
Proof.
  cbv zeta. rewrite !log_tool_call_cases.
  destruct (render_params kwargs [] (store w)) as [[params|e] h1].
  - cbn. split; [reflexivity|]. split; [eauto|reflexivity].
  - cbn. split; [reflexivity|]. split; reflexivity.
Qed.

(** For a case-folded allow-set, membership of the case-folded name is
    membership under case-insensitive comparison. *)
Lemma ci_member_folded (allowed : gset string) x :
  (forall a, a ∈ allowed -> casefold a = a) ->
  ci_member x allowed <-> casefold x ∈ allowed.
Proof.
  intros Hfold. split.
  - intros (a & Ha & E). rewrite <- E, (Hfold a Ha). exact Ha.
  - intros Hin. exists (casefold x). split; [exact Hin|exact (Hfold _ Hin)].
Qed.

(** What [register] does, by the allow-set and by what the library does. *)
Lemma register_cases self nm sd dt model context source0 func :
  register self nm sd dt model context source0 func =
  if match _allowed_tools self with
     | Some allowed =>
       bool_decide (casefold nm ∉ allowed)
       && bool_decide (casefold (to_model_name nm) ∉ allowed)
     | None => false
     end
  then (Ret None, self)
  else
    match
      match model with
      | Some m => tool_from_model m (handler nm context func) nm sd context
      | None => Tool_from_callable (handler nm context func) nm sd context
      end
    with
    | Raise e => (Raise e, self)
    | Ret t =>
      let d := {| name := nm; short_description := sd;
                  detail := default EmptyString
                              (str_or (str_or dt (doc func)) (Some EmptyString));
                  tool := t; source := source0 |} in
      (Ret (Some d),
       {| _tools := dict_set nm d (_tools self); _allowed_tools := _allowed_tools self |})
    end.
Proof. reflexivity. Qed.

(** C6, amended: a registration on a registry with an allow-set is
    skipped, returning [None] and leaving the registry as it is, exactly when
    neither the case-folded name nor the case-folded model name is an
    element of the allow-set.  Otherwise the handle is built: when the
    library returns it, the descriptor is returned and stored under the
    name, and when the library raises, the exception propagates and the
    registry is as it was.  When every entry of the allow-set is its own
    case-folded form, being skipped is not being in the set under
    case-insensitive comparison.  With the allow-set [{"file_read"}],
    registering [file.read] is not skipped and registering [file.write] is
    ([casefold] lower-cases ASCII text). *)
Theorem register_allow_set tools allowed nm short_description detail model context
    source func :
  let self := {| _tools := tools; _allowed_tools := Some allowed |} in
  let register_as n :=
    register self n short_description detail model context source func in
  let built_as n :=
    match model with
    | Some m => tool_from_model m (handler n context func) n short_description context
    | None => Tool_from_callable (handler n context func) n short_description context
    end in
  let registered_as n :=
    match built_as n with
    | Ret t =>
      exists d, register_as n
                = (Ret (Some d), {| _tools := dict_set n d tools;
                                    _allowed_tools := Some allowed |})
                /\ name d = n /\ tool d = t
    | Raise e => register_as n = (Raise e, self)
    end in
  (register_as nm = (Ret None, self)
   <-> ((casefold nm ∉ allowed) /\ (casefold (to_model_name nm) ∉ allowed)))
  /\ ((casefold nm ∈ allowed) \/ (casefold (to_model_name nm) ∈ allowed) ->
      registered_as nm)
  /\ ((forall a, a ∈ allowed -> casefold a = a) ->
      (register_as nm = (Ret None, self)
       <-> ((~ ci_member nm allowed) /\ (~ ci_member (to_model_name nm) allowed))))
  /\ (allowed = {[ "file_read" ]} ->
      (forall s, ascii_text s = true -> casefold s = ascii_casefold s) ->
      registered_as "file.read" /\ register_as "file.write" = (Ret None, self)).
Proof.
  cbv zeta.
  assert (Hskip : forall n,
    (casefold n ∉ allowed) /\ (casefold (to_model_name n) ∉ allowed) ->
    register {| _tools := tools; _allowed_tools := Some allowed |} n short_description
      detail model context source func
    = (Ret None, {| _tools := tools; _allowed_tools := Some allowed |})).
  { intros n [H1 H2]. rewrite register_cases. cbn [_allowed_tools].
    now rewrite (bool_decide_eq_true_2 _ H1), (bool_decide_eq_true_2 _ H2). }
  assert (Hreg : forall n,
    (casefold n ∈ allowed) \/ (casefold (to_model_name n) ∈ allowed) ->
    match
      match model with
      | Some m => tool_from_model m (handler n context func) n short_description context
      | None => Tool_from_callable (handler n context func) n short_description context
      end
    with
    | Ret t =>
      exists d,
        register {| _tools := tools; _allowed_tools := Some allowed |} n short_description
          detail model context source func
        = (Ret (Some d), {| _tools := dict_set n d tools; _allowed_tools := Some allowed |})
        /\ name d = n /\ tool d = t
    | Raise e =>
      register {| _tools := tools; _allowed_tools := Some allowed |} n short_description
        detail model context source func
      = (Raise e, {| _tools := tools; _allowed_tools := Some allowed |})
    end).
  { intros n Hin. rewrite register_cases. cbn [_allowed_tools _tools].
    assert (E : bool_decide (casefold n ∉ allowed)
                && bool_decide (casefold (to_model_name n) ∉ allowed) = false).
    { destruct Hin as [Hin|Hin].
      - rewrite (bool_decide_eq_false_2 (casefold n ∉ allowed)); [reflexivity|tauto].
      - rewrite (bool_decide_eq_false_2 (casefold (to_model_name n) ∉ allowed));
          [apply andb_false_r|tauto]. }
    rewrite E.
    destruct (match model with Some m => _ | None => _ end) as [t|e]; [|reflexivity].
    eexists. split; [reflexivity|]. split; reflexivity. }
  assert (Hiff :
    register {| _tools := tools; _allowed_tools := Some allowed |} nm short_description
      detail model context source func
    = (Ret None, {| _tools := tools; _allowed_tools := Some allowed |})
    <-> ((casefold nm ∉ allowed) /\ (casefold (to_model_name nm) ∉ allowed))).
  { split; [|apply Hskip].
    intros Hr. destruct (decide (casefold nm ∈ allowed)) as [H1|H1];
      [|destruct (decide (casefold (to_model_name nm) ∈ allowed)) as [H2|H2]; [|tauto]].
    - pose proof (Hreg nm (or_introl H1)) as Hb.
      destruct (match model with Some m => _ | None => _ end) as [t|e].
      + destruct Hb as (d & Hb & _). rewrite Hb in Hr. discriminate.
      + rewrite Hb in Hr. discriminate.
    - pose proof (Hreg nm (or_intror H2)) as Hb.
      destruct (match model with Some m => _ | None => _ end) as [t|e].
      + destruct Hb as (d & Hb & _). rewrite Hb in Hr. discriminate.
      + rewrite Hb in Hr. discriminate. }
  split; [exact Hiff|]. split; [apply Hreg|]. split.
  - intros Hfold. rewrite Hiff. rewrite !(ci_member_folded allowed _ Hfold). tauto.
  - intros -> Hascii. split.
    + apply Hreg. right. rewrite Hascii by reflexivity. now apply elem_of_singleton.
    + apply Hskip. rewrite !Hascii by reflexivity.
      split; intros Hin%elem_of_singleton; discriminate.
Qed.

(** Every descriptor is stored under its own name. *)
Lemma registered_names self :
  registered self ->
  forall k d, dict_get k (_tools self) = Some d -> name d = k.
Proof.
  induction 1 as [allowed|self name0 sd dt model context source0 func Hreg IH].
  - intros k d Hd. discriminate.
  - rewrite register_cases.
    destruct (match _allowed_tools self with Some _ => _ | None => false end);
      cbn [snd _tools]; [exact IH|].
    destruct (match model with Some m => _ | None => _ end) as [t|e];
      cbn [snd _tools]; [|exact IH].
    apply dict_get_set_name; [reflexivity|exact IH].
Qed.

(** C7: on a registry that a program can hold, [model_tools] raises the
    configuration error, and returns no list, whenever two different
    registered names have the same model name; so it does when [a.b] and
    [a_b] are both registered. *)
Theorem model_tools_collision self :
  registered self ->
  (forall n1 n2, n1 <> n2 -> has self n1 = true -> has self n2 = true ->
     to_model_name n1 = to_model_name n2 ->
     exists m, model_tools self = Raise (duplicate_model_name m))
  /\ (has self "a.b" = true -> has self "a_b" = true ->
      exists m, model_tools self = Raise (duplicate_model_name m)).
Proof.
  intros Hreg.
  assert (Hgen : forall n1 n2, n1 <> n2 -> has self n1 = true -> has self n2 = true ->
     to_model_name n1 = to_model_name n2 ->
     exists m, model_tools self = Raise (duplicate_model_name m)).
  { intros n1 n2 Hne H1 H2 Heq. unfold has in H1, H2.
    destruct (dict_get n1 (_tools self)) as [d1|] eqn:E1; [|discriminate].
    destruct (dict_get n2 (_tools self)) as [d2|] eqn:E2; [|discriminate].
    pose proof (registered_names self Hreg _ _ E1) as N1.
    pose proof (registered_names self Hreg _ _ E2) as N2.
    unfold model_tools, descriptors. apply model_tools_loop_raises. right.
    exists d1, d2. rewrite !sorted_by_name_In, N1, N2.
    repeat split; eauto using dict_get_In. }
  split; [exact Hgen|]. intros H1 H2. now apply (Hgen "a.b" "a_b").
Qed.

(** C10: [execute] writes the [context] key into the dict object that the
    caller passes when the tool requires context, and runs the tool on that
    store; the dict keeps the key after the call when the tool leaves the
    object alone.  For a tool that does not require context the tool runs on
    the store as it was. *)
Theorem execute_injects_context self tool_name0 descriptor kwargs l kvs context w :
  get self tool_name0 = Some descriptor ->
  as_dict (store w) kwargs = Some (l, kvs) ->
  let kvs' :=
    if tool_context (tool descriptor) then dict_set "context" context kvs else kvs in
  let w' := {| store := <[l := ODict kvs']> (store w); logs := logs w |} in
  execute self tool_name0 kwargs context w = Tool_run (tool descriptor) kvs' w'
  /\ as_dict (store w') kwargs = Some (l, kvs')
  /\ (tool_context (tool descriptor) = true -> dict_get "context" kvs' = Some context)
  /\ (tool_context (tool descriptor) = false -> w' = w)
  /\ ((forall kws w0, store (snd (Tool_run (tool descriptor) kws w0)) !! l = store w0 !! l) ->
      as_dict (store (snd (execute self tool_name0 kwargs context w))) kwargs
      = Some (l, kvs')).
Proof.
  intros Hget Hkw kvs' w'. destruct (as_dict_Some _ _ _ _ Hkw) as [-> Hl].
  assert (Hkw' : as_dict (store w') (VRef l) = Some (l, kvs')).
  { unfold w'. cbn [store]. rewrite (as_dict_insert _ _ _ _ _ Hl), Hkw.
    now rewrite Nat.eqb_refl. }
  assert (Hid : tool_context (tool descriptor) = false -> w' = w).
  { intros Hc. unfold w', kvs'. rewrite Hc. rewrite list_insert_id by assumption.
    now destruct w. }
  assert (Hexec : execute self tool_name0 (VRef l) context w
                  = Tool_run (tool descriptor) kvs' w').
  { unfold execute. rewrite Hget, bind_run. subst w' kvs'.
    destruct (tool_context (tool descriptor)) eqn:Hc.
    - unfold on_store at 1, py_setitem. rewrite Hkw. cbv beta iota.
      rewrite bind_run. unfold on_store, py_unpack. cbn [store].
      cbn [store] in Hkw'. rewrite Hkw'. reflexivity.
    - unfold ret at 1. cbv beta iota. rewrite bind_run. unfold on_store, py_unpack.
      rewrite Hkw. cbv beta iota. rewrite list_insert_id by assumption.
      reflexivity. }
  split; [exact Hexec|]. split; [exact Hkw'|]. split; [|split; [exact Hid|]].
  - intros Hc. unfold kvs'. rewrite Hc. apply dict_get_set_eq.
  - intros Hframe. rewrite Hexec. unfold as_dict. rewrite Hframe.
    exact Hkw'.
Qed.

(** X21: [execute] raises [KeyError] with the name when no tool of that name
    is registered, and [TypeError] when the tool is registered and the
    keyword arguments are not a dict.  In both cases the tool is not run:
    the store and the log are as they were. *)
Theorem execute_errors self nm kwargs context w :
  (has self nm = false -> execute self nm kwargs context w = (Raise (KeyError nm), w))
  /\ (has self nm = true -> as_dict (store w) kwargs = None ->
      execute self nm kwargs context w = (Raise TypeError, w)).
Proof.
  unfold has, execute, get. destruct (dict_get nm (_tools self)) as [d|].
  - split; [discriminate|]. intros _ Hkw. rewrite bind_run.
    destruct (tool_context (tool d)).
    + unfold on_store, py_setitem. rewrite Hkw. now destruct w.
    + unfold ret at 1. cbv beta iota. rewrite bind_run.
      unfold on_store, py_unpack. rewrite Hkw. now destruct w.
  - split; [reflexivity|discriminate].
Qed.

End RegistryFacts.

(** ** The start line of the log *)

Lemma append_cons c s t : String.append (String c s) t = String c (String.append s t).
Proof. reflexivity. Qed.

Lemma length_append s t :
  String.length (String.append s t) = String.length s + String.length t.
Proof.
  induction s as [|c s IH]; [reflexivity|].
  rewrite append_cons. cbn [String.length]. rewrite IH. reflexivity.
Qed.

Lemma length_substring_0 n : forall s,
  String.length (substring 0 n s) = Nat.min n (String.length s).
Proof.
  induction n as [|n IH]; intros [|c s]; try reflexivity.
  cbn [substring String.length]. rewrite IH. reflexivity.
Qed.

Lemma shorten_text_length text width placeholder :
  (Z.of_nat (String.length placeholder) <= width)%Z ->
  (Z.of_nat (String.length (_shorten_text text width placeholder)) <= width)%Z.
Proof.
  intros Hp. unfold _shorten_text.
  destruct (Z.leb_spec (Z.of_nat (String.length text)) width) as [Hle|Hgt]; [exact Hle|].
  destruct (Z.leb_spec (width - Z.of_nat (String.length placeholder)) 0) as [Ha|Ha];
    [exact Hp|].
  rewrite length_append, length_substring_0. lia.
Qed.

(** X11: [_shorten_text] with a placeholder that fits the width.  The result
    is never longer than the width; a text that fits is returned as it is; a
    longer text gives exactly [width] characters, a prefix of the text
    followed by the placeholder. *)
Theorem shorten_text_bound text width placeholder :
  (Z.of_nat (String.length placeholder) <= width)%Z ->
  let out := _shorten_text text width placeholder in
  (Z.of_nat (String.length out) <= width)%Z
  /\ ((Z.of_nat (String.length text) <= width)%Z -> out = text)
  /\ ((width < Z.of_nat (String.length text))%Z ->
      Z.of_nat (String.length out) = width
      /\ exists n, n < String.length text
                   /\ out = String.append (substring 0 n text) placeholder).
Proof.
  intros Hp. cbv zeta. unfold _shorten_text.
  destruct (Z.leb_spec (Z.of_nat (String.length text)) width) as [Hle|Hgt].
  { split; [exact Hle|]. split; [reflexivity|lia]. }
  destruct (Z.leb_spec (width - Z.of_nat (String.length placeholder)) 0) as [Ha|Ha].
  - assert (Z.of_nat (String.length placeholder) = width) as Hw by lia.
    split; [lia|]. split; [lia|]. intros _. split; [exact Hw|].
    exists 0. split; [lia|]. now destruct text.
  - assert (Hlen : String.length
               (String.append
                  (substring 0 (Z.to_nat (width - Z.of_nat (String.length placeholder))) text)
                  placeholder) = Z.to_nat width).
    { rewrite length_append, length_substring_0. lia. }
    split; [lia|]. split; [lia|]. intros _. split; [lia|].
    exists (Z.to_nat (width - Z.of_nat (String.length placeholder))). split; [lia|reflexivity].
Qed.

Lemma shorten_text_bound_witness :
  let out := _shorten_text "abcdefghijklmnopqrstuvwxyz" 10 "..." in
  (Z.of_nat (String.length out) <= 10)%Z
  /\ ((Z.of_nat (String.length "abcdefghijklmnopqrstuvwxyz") <= 10)%Z ->
      out = "abcdefghijklmnopqrstuvwxyz")
  /\ ((10 < Z.of_nat (String.length "abcdefghijklmnopqrstuvwxyz"))%Z ->
      Z.of_nat (String.length out) = 10%Z
      /\ exists n, n < String.length "abcdefghijklmnopqrstuvwxyz"
                   /\ out = String.append (substring 0 n "abcdefghijklmnopqrstuvwxyz") "...").
Proof. apply (shorten_text_bound "abcdefghijklmnopqrstuvwxyz" 10 "..."). cbn. lia. Defined.

Lemma chars_append s t : chars (String.append s t) = chars s ++ chars t.
Proof.
  induction s as [|c s IH]; [reflexivity|].
  rewrite append_cons. unfold chars in *. cbn [list_ascii_of_string app]. now rewrite IH.
Qed.

Lemma endswith_append_char s c c' :
  endswith (String.append s (String c EmptyString)) c' = Ascii.eqb c c'.
Proof. unfold endswith. rewrite chars_append. cbn. now rewrite rev_app_distr. Qed.

Lemma startswith_cons x r c : startswith (String x r) c = Ascii.eqb x c.
Proof. reflexivity. Qed.

Lemma startswith_append v t o x :
  startswith v o = true -> startswith (String.append v t) x = startswith v x.
Proof. destruct v as [|a r]; [discriminate|reflexivity]. Qed.

Lemma startswith_unique v a b :
  startswith v a = true -> startswith v b = true -> a = b.
Proof.
  destruct v as [|x r]; [discriminate|]. rewrite !startswith_cons.
  intros Ha%Ascii.eqb_eq Hb%Ascii.eqb_eq. congruence.
Qed.

Lemma startswith_close o c v x : startswith (close_with o c v) x = startswith v x.
Proof.
  unfold close_with. destruct (startswith v o) eqn:E; [|reflexivity].
  destruct (endswith v c); [reflexivity|]. cbn [andb negb].
  now apply startswith_append with o.
Qed.

Lemma closed_close o c v : closed (close_with o c v) o c.
Proof.
  unfold closed. rewrite startswith_close. intros Hs. unfold close_with. rewrite Hs.
  destruct (endswith v c) eqn:E; cbn [andb negb]; [exact E|].
  rewrite endswith_append_char. apply Ascii.eqb_refl.
Qed.

Lemma closed_close_other o c o' c' v :
  o <> o' -> closed v o c -> closed (close_with o' c' v) o c.
Proof.
  unfold closed. rewrite startswith_close. intros Hne Hc Hs. unfold close_with.
  destruct (startswith v o') eqn:E.
  - exfalso. apply Hne. eapply startswith_unique; eauto.
  - cbn [andb]. auto.
Qed.

Lemma length_close o c v :
  String.length (close_with o c v) = String.length v
  \/ (startswith v o = true /\ String.length (close_with o c v) = S (String.length v)).
Proof.
  unfold close_with. destruct (startswith v o); [|now left].
  destruct (endswith v c); [now left|]. right. split; [reflexivity|].
  cbn [andb negb]. rewrite length_append. cbn. lia.
Qed.

(** The three closing steps of the start line: at most one of them adds a
    character, and what they leave is closed. *)
Lemma close_value v0 :
  let v3 := close_with "[" "]" (close_with "{" "}" (close_with "034" "034" v0)) in
  String.length v3 <= S (String.length v0)
  /\ closed v3 "034" "034" /\ closed v3 "{" "}" /\ closed v3 "[" "]".
Proof.
  cbv zeta. split; [|split; [|split]].
  - destruct (length_close "[" "]" (close_with "{" "}" (close_with "034" "034" v0)))
      as [E3|[S3 E3]];
    destruct (length_close "{" "}" (close_with "034" "034" v0)) as [E2|[S2 E2]];
    destruct (length_close "034" "034" v0) as [E1|[S1 E1]];
    rewrite ?startswith_close in *; try lia.
    + pose proof (startswith_unique _ _ _ S1 S2). discriminate.
    + pose proof (startswith_unique _ _ _ S1 S3). discriminate.
    + pose proof (startswith_unique _ _ _ S2 S3). discriminate.
    + pose proof (startswith_unique _ _ _ S2 S3). discriminate.
  - apply closed_close_other; [discriminate|]. apply closed_close_other; [discriminate|].
    apply closed_close.
  - apply closed_close_other; [discriminate|]. apply closed_close.
  - apply closed_close.
Qed.

Lemma insert_by_name_perm d ds : Permutation (d :: ds) (insert_by_name d ds).
Proof.
  induction ds as [|d' ds IH]; cbn [insert_by_name]; [reflexivity|].
  destruct (String.leb (name d) (name d')); [reflexivity|].
  rewrite perm_swap. now apply perm_skip.
Qed.

Lemma sorted_by_name_perm ds : Permutation ds (sorted_by_name ds).
Proof.
  induction ds as [|d ds IH]; [reflexivity|]. cbn [sorted_by_name fold_right].
  rewrite <- insert_by_name_perm. now apply perm_skip.
Qed.

Lemma insert_by_name_hd a d ds :
  name_le a d -> HdRel name_le a ds -> HdRel name_le a (insert_by_name d ds).
Proof.
  intros Had Hds. destruct ds as [|d' ds]; cbn [insert_by_name]; [now constructor|].
  destruct (String.leb (name d) (name d')); constructor; [assumption|].
  now inversion Hds.
Qed.

Lemma insert_by_name_sorted d ds :
  Sorted name_le ds -> Sorted name_le (insert_by_name d ds).
Proof.
  induction 1 as [|d' ds Hs IH Hhd]; cbn [insert_by_name]; [repeat constructor|].
  destruct (String.leb (name d) (name d')) eqn:E.
  - constructor; [now constructor|]. now constructor.
  - constructor; [exact IH|]. apply insert_by_name_hd; [|exact Hhd].
    unfold name_le. destruct (String.leb_total (name d) (name d')); congruence.
Qed.

(** X15: [descriptors] returns the stored descriptors, each as often as it
    is stored, in the order of their names: each name is at most the next
    one in the code-point order of strings. *)
Theorem descriptors_sorted self :
  Sorted name_le (descriptors self)
  /\ Permutation (map snd (_tools self)) (descriptors self).
Proof.
  unfold descriptors. split; [|apply sorted_by_name_perm].
  induction (map snd (_tools self)) as [|d ds IH]; [constructor|].
  cbn [sorted_by_name fold_right]. now apply insert_by_name_sorted.
Qed.

Lemma dict_set_keys {V} k (v : V) d :
  map fst (dict_set k v d) = if bool_decide (k ∈ map fst d) then map fst d else map fst d ++ [k].
Proof.
  induction d as [|[k' v'] d IH]; cbn [dict_set map fst].
  - rewrite bool_decide_eq_false_2; [reflexivity|]. apply not_elem_of_nil.
  - destruct (String.eqb_spec k k') as [->|Hne].
    + cbn [map fst]. rewrite bool_decide_eq_true_2; [reflexivity|]. apply list_elem_of_here.
    + cbn [map fst]. rewrite IH.
      destruct (bool_decide_reflect (k ∈ map fst d)) as [Hin|Hnin].
      * rewrite bool_decide_eq_true_2; [reflexivity|]. now apply list_elem_of_further.
      * rewrite bool_decide_eq_false_2; [reflexivity|].
        intros [?|?]%elem_of_cons; congruence.
Qed.

Lemma dict_set_keys_NoDup {V} k (v : V) d :
  NoDup (map fst d) -> NoDup (map fst (dict_set k v d)).
Proof.
  intros Hd. rewrite dict_set_keys.
  destruct (bool_decide_reflect (k ∈ map fst d)) as [Hin|Hnin]; [exact Hd|].
  apply NoDup_app. split; [exact Hd|]. split; [|apply NoDup_singleton].
  intros x Hx Hk%list_elem_of_singleton. subst x. contradiction.
Qed.

Lemma dict_In_get {V} k (v : V) d :
  NoDup (map fst d) -> In (k, v) d -> dict_get k d = Some v.
Proof.
  induction d as [|[k' v'] d IH]; intros Hnd Hin; [destruct Hin|].
  cbn [map fst] in Hnd. apply NoDup_cons in Hnd as [Hk' Hnd].
  cbn [dict_get]. destruct Hin as [[= -> ->]|Hin].
  - now rewrite String.eqb_refl.
  - destruct (String.eqb_spec k k') as [->|Hne]; [|now apply IH].
    exfalso. apply Hk'. apply list_elem_of_In. apply in_map_iff. now exists (k', v).
Qed.

Lemma model_tools_loop_returns ds : forall seen tools,
  NoDup (map (fun d => to_model_name (name d)) ds) ->
  (forall d, In d ds -> to_model_name (name d) ∉ seen) ->
  model_tools_loop ds seen tools = Ret (tools ++ map as_model_tool ds).
Proof.
  induction ds as [|d ds IH]; intros seen tools Hnd Hseen.
  { cbn. now rewrite app_nil_r. }
  cbn [map] in Hnd. apply NoDup_cons in Hnd as [Hd Hnd].
  cbn [model_tools_loop]. rewrite bool_decide_eq_false_2 by (apply Hseen; now left).
  rewrite IH; [cbn [map]; now rewrite <- app_assoc|exact Hnd|].
  intros d' Hin [Heq%elem_of_singleton|Hs]%elem_of_union.
  - apply Hd. apply list_elem_of_In. apply in_map_iff. now exists d'.
  - apply (Hseen d'); [now right|exact Hs].
Qed.

Section RegistryListings.
Context {interp : Interpreter}.
Context `{Republic}.

(** X12: one parameter of the start line, for a value that [json.dumps]
    renders.  The store is left as it is and the parameter is [key=value];
    the value has at most 61 characters, and when it opens with a quote, a
    brace or a bracket it ends with the matching closing character. *)
Theorem render_param_bound key value h rendered :
  json_dumps h value = Some rendered ->
  exists v,
    render_param key value h = (Ret (String.append key (String.append "=" v)), h)
    /\ String.length v <= 61
    /\ closed v "034" "034" /\ closed v "{" "}" /\ closed v "[" "]".
Proof.
  intros Hd. unfold render_param. rewrite bind_run. unfold json_dumps_m at 1.
  rewrite (json_dumps_run_Some _ _ _ Hd). cbv beta iota.
  pose proof (close_value (_shorten_text rendered 60 "...")) as Hc. cbv zeta in Hc.
  destruct Hc as (Hlen & Hq & Hb & Hk).
  exists (close_with "[" "]" (close_with "{" "}"
            (close_with "034" "034" (_shorten_text rendered 60 "...")))).
  split; [reflexivity|]. split; [|auto].
  pose proof (shorten_text_length rendered 60 "...") as Hs. cbn in Hs. lia.
Qed.

(** X14: [register] followed by [get] and [has].  The allow-set is never
    changed, and without an allow-set no registration is skipped.  A
    skipped registration leaves the registry as it is.  A registration that
    is not skipped builds the handle with the library: when the library
    raises, [register] raises that and the registry is as it was; when it
    returns the handle, [register] returns a descriptor that holds it, with
    the given name, short description and source, whose detail is the
    [detail] argument, or else the docstring of the function, or else the
    empty string; afterwards [get] of the name returns that descriptor,
    replacing an earlier one of the same name, and [get] of every other name
    is as before. *)
Theorem register_then_get self nm sd dt model context source0 func :
  let r := register self nm sd dt model context source0 func in
  let built :=
    match model with
    | Some m => tool_from_model m (handler nm context func) nm sd context
    | None => Tool_from_callable (handler nm context func) nm sd context
    end in
  _allowed_tools (snd r) = _allowed_tools self
  /\ (_allowed_tools self = None -> fst r <> Ret None)
  /\ (fst r <> Ret None ->
      match built with
      | Ret t => exists d, fst r = Ret (Some d) /\ tool d = t
      | Raise e => fst r = Raise e
      end)
  /\ match fst r with
     | Ret (Some d) =>
       get (snd r) nm = Some d /\ has (snd r) nm = true
       /\ (forall n, n <> nm -> get (snd r) n = get self n /\ has (snd r) n = has self n)
       /\ name d = nm /\ short_description d = sd /\ source d = source0
       /\ built = Ret (tool d)
       /\ detail d = match dt with
                     | Some (String c t) => String c t
                     | _ => match doc func with
                            | Some (String c t) => String c t
                            | _ => EmptyString
                            end
                     end
     | Ret None => snd r = self
     | Raise e => snd r = self /\ built = Raise e
     end.
Proof.
  cbv zeta. rewrite register_cases.
  destruct (match _allowed_tools self with Some _ => _ | None => false end) eqn:Eskip.
  { cbn [fst snd]. split; [reflexivity|]. split; [|split; [congruence|reflexivity]].
    intros Hnone. rewrite Hnone in Eskip. discriminate. }
  destruct (match model with Some m => _ | None => _ end) as [t|e]; cbv zeta;
    cbn [fst snd _allowed_tools].
  2:{ split; [reflexivity|]. split; [discriminate|]. split; [reflexivity|].
      split; reflexivity. }
  split; [reflexivity|]. split; [discriminate|]. split; [eauto|].
  unfold get, has. cbn [_tools name short_description source detail tool].
  rewrite dict_get_set_eq. split; [reflexivity|]. split; [reflexivity|].
  split; [|split; [reflexivity|split; [reflexivity|split; [reflexivity|split;
    [reflexivity|]]]]].
  - intros n Hn. rewrite dict_get_set_ne by congruence. split; reflexivity.
  - destruct dt as [[|c t']|]; destruct (doc func) as [[|c' t'']|]; reflexivity.
Qed.

Lemma registered_keys self : registered self -> NoDup (map fst (_tools self)).
Proof.
  induction 1 as [allowed|self name0 sd dt model context source0 func Hreg IH].
  - apply NoDup_nil_2.
  - rewrite register_cases.
    destruct (match _allowed_tools self with Some _ => _ | None => false end);
      cbn [snd _tools]; [exact IH|].
    destruct (match model with Some m => _ | None => _ end) as [t|e];
      cbn [snd _tools]; [|exact IH].
    now apply dict_set_keys_NoDup.
Qed.

Lemma registered_tools_names self :
  registered self -> map name (map snd (_tools self)) = map fst (_tools self).
Proof.
  intros Hreg. pose proof (registered_names self Hreg) as Hn.
  pose proof (registered_keys self Hreg) as Hk.
  assert (Hall : forall k d, In (k, d) (_tools self) -> name d = k).
  { intros k d Hin. apply Hn. now apply dict_In_get. }
  clear Hn Hk. induction (_tools self) as [|[k d] tools IH]; [reflexivity|].
  cbn [map fst snd]. rewrite (Hall k d) by now left. f_equal. apply IH.
  intros k' d' Hin. apply Hall. now right.
Qed.

Lemma registered_descriptors_get self d :
  registered self -> (In d (descriptors self) <-> get self (name d) = Some d).
Proof.
  intros Hreg. pose proof (registered_keys self Hreg) as Hk.
  unfold descriptors, get. rewrite sorted_by_name_In. split.
  - intros Hin. apply in_map_iff in Hin as ([k d'] & Ed & Hin). cbn in Ed. subst d'.
    rewrite <- (registered_names self Hreg k d (dict_In_get _ _ _ Hk Hin)) in Hin.
    now apply dict_In_get.
  - apply dict_get_In.
Qed.

Lemma registered_descriptors_NoDup self :
  registered self -> NoDup (map name (descriptors self)).
Proof.
  intros Hreg. unfold descriptors.
  rewrite <- (sorted_by_name_perm (map snd (_tools self))).
  rewrite (registered_tools_names self Hreg). now apply registered_keys.
Qed.

(** X16: in a registry that a program can hold, the descriptors that
    [descriptors] lists have pairwise different names, there is one for each
    stored name, and a descriptor is listed exactly when [get] of its name
    returns it. *)
Theorem registered_descriptors self :
  registered self ->
  NoDup (map name (descriptors self))
  /\ length (descriptors self) = length (_tools self)
  /\ forall d, In d (descriptors self) <-> get self (name d) = Some d.
Proof.
  intros Hreg. split; [|split].
  - now apply registered_descriptors_NoDup.
  - unfold descriptors. rewrite <- sorted_by_name_perm. apply length_map.
  - intros d. now apply registered_descriptors_get.
Qed.

(** X17: in a registry that a program can hold and where no two registered
    names have the same model name, [model_tools] returns: one tool for each
    descriptor, in the order of [descriptors], with the model name as its
    name and the description, parameters, handler and context flag of the
    registered tool. *)
Theorem model_tools_returns self :
  registered self ->
  (forall n1 n2, has self n1 = true -> has self n2 = true ->
     to_model_name n1 = to_model_name n2 -> n1 = n2) ->
  model_tools self = Ret (map as_model_tool (descriptors self)).
Proof.
  intros Hreg Hinj. pose proof (registered_descriptors_NoDup self Hreg) as Hnd.
  pose proof (fun d => registered_descriptors_get self d Hreg) as Hget.
  unfold model_tools. rewrite model_tools_loop_returns; [reflexivity| |].
  2:{ intros d _. apply not_elem_of_empty. }
  assert (Hhas : forall d, In d (descriptors self) -> has self (name d) = true).
  { intros d Hd%Hget. unfold has, get in *. now rewrite Hd. }
  revert Hnd Hhas. generalize (descriptors self) as ds.
  induction ds as [|d ds IH]; intros Hnd Hhas; [apply NoDup_nil_2|].
  cbn [map] in *. apply NoDup_cons in Hnd as [Hd Hnd]. apply NoDup_cons. split.
  - intros Hin%list_elem_of_In. apply in_map_iff in Hin as (d' & Heq & Hin').
    apply Hd. apply list_elem_of_In. apply in_map_iff. exists d'. split; [|exact Hin'].
    apply Hinj; [apply Hhas; now right|apply Hhas; now left|exact Heq].
  - apply IH; [exact Hnd|]. intros d' Hd'. apply Hhas. now right.
Qed.

End RegistryListings.

(** ** Model names and the compact listing *)

Lemma to_model_name_length x : String.length (to_model_name x) = String.length x.
Proof. induction x as [|c x IH]; [reflexivity|]. cbn. now rewrite IH. Qed.

Lemma to_model_name_fixed x : to_model_name x = x <-> contains "." x = false.
Proof.
  induction x as [|c x IH]; [split; reflexivity|].
  cbn [to_model_name contains]. destruct (Ascii.eqb_spec c ".") as [->|Hne]; cbn [orb].
  - split; discriminate.
  - rewrite <- IH. split; [now intros [= ->]|now intros ->].
Qed.

(** X18: two names without [_] that have the same model name are the same
    name: model names collide only when a [.] meets a [_] (or another
    [.]) at the same place. *)
Theorem to_model_name_injective a b :
  contains "_" a = false -> contains "_" b = false ->
  to_model_name a = to_model_name b -> a = b.
Proof.
  revert b. induction a as [|c a IH]; intros [|c' b]; try discriminate; [reflexivity|].
  cbn [contains to_model_name]. intros Ha Hb Heq.
  apply orb_false_iff in Ha as [Hc Ha]. apply orb_false_iff in Hb as [Hc' Hb].
  injection Heq as Hhead Htail. f_equal; [|now apply IH].
  apply Ascii.eqb_neq in Hc, Hc'.
  destruct (Ascii.eqb_spec c "."), (Ascii.eqb_spec c' "."); congruence.
Qed.

Lemma to_model_name_injective_witness : "fs.read" = "fs.read".
Proof. exact (to_model_name_injective "fs.read" "fs.read" eq_refl eq_refl eq_refl). Defined.

Lemma append_inj_length a : forall b x y,
  String.length a = String.length b ->
  String.append a x = String.append b y -> a = b.
Proof.
  induction a as [|c a IH]; intros [|c' b] x y Hlen Heq; try discriminate; [reflexivity|].
  rewrite !append_cons in Heq. injection Heq as -> Heq. f_equal.
  eapply IH; [|exact Heq]. cbn in Hlen. lia.
Qed.

Lemma compact_rows_loop_map for_model ds : forall rows,
  compact_rows_loop for_model ds rows = rows ++ map (compact_row for_model) ds.
Proof.
  induction ds as [|d ds IH]; intros rows; cbn [compact_rows_loop map].
  - now rewrite app_nil_r.
  - now rewrite IH, <- app_assoc.
Qed.

Lemma compact_row_for_model d :
  compact_row true d = compact_row false d <-> contains "." (name d) = false.
Proof.
  rewrite <- to_model_name_fixed. unfold compact_row. cbn [andb]. split.
  - destruct (String.eqb_spec (to_model_name (name d)) (name d)) as [E|Hne]; [auto|].
    cbn [negb]. intros Heq. eapply append_inj_length; [|exact Heq].
    apply to_model_name_length.
  - intros ->. now rewrite String.eqb_refl.
Qed.

(** X19: [compact_rows] gives one row for each stored descriptor, and the
    listing for the model differs from the plain one exactly when a listed
    name contains a [.]. *)
Theorem compact_rows_for_model self :
  (forall for_model, length (compact_rows self for_model) = length (_tools self))
  /\ (compact_rows self true = compact_rows self false
      <-> forall d, In d (descriptors self) -> contains "." (name d) = false).
Proof.
  unfold compact_rows. split.
  - intros for_model. rewrite compact_rows_loop_map. cbn [app]. rewrite length_map.
    unfold descriptors. rewrite <- sorted_by_name_perm. apply length_map.
  - rewrite !compact_rows_loop_map. cbn [app].
    induction (descriptors self) as [|d ds IH]; [split; [intros _ d []|reflexivity]|].
    cbn [map]. split.
    + intros [= Hd Hds] d' [<-|Hin]; [now apply compact_row_for_model|].
      now apply IH.
    + intros Hall. f_equal.
      * apply compact_row_for_model, Hall. now left.
      * apply IH. intros d' Hin. apply Hall. now right.
Qed.

Section RegistryExamples.
#[local] Existing Instance cpython.
#[local] Existing Instance plain_republic.



(** C6, as stated, fails.  With the allow-set [{"File_Read"}] the model
    name of [file.read] is in the set under case-insensitive comparison, and
    the registration is skipped all the same: the name is case-folded, the
    entries of the set are not. *)
Lemma register_not_case_insensitive :
  ~ ((register (new_registry (Some {[ "File_Read" ]}))
        "file.read" "read a file" None None false "builtin" echo_context
      = (Ret None, new_registry (Some {[ "File_Read" ]})))
     <-> ((~ ci_member "file.read" ({[ "File_Read" ]}))
          /\ (~ ci_member (to_model_name "file.read") ({[ "File_Read" ]})))).
Proof.
  intros [Hskip _]. destruct (Hskip eq_refl) as [_ Hno]. apply Hno.
  exists "File_Read". split; [now apply elem_of_singleton|reflexivity].
Qed.

(** The theorem at the specification's example, with the plain library:
    [file.read] is registered under the allow-set [{"file_read"}]. *)
Lemma register_allow_set_witness :
  exists d,
    register {| _tools := []; _allowed_tools := Some {[ "file_read" ]} |}
      "file.read" "read a file" None None false "builtin" echo_context
    = (Ret (Some d), {| _tools := dict_set "file.read" d [];
                        _allowed_tools := Some {[ "file_read" ]} |})
    /\ name d = "file.read".
Proof.
  pose proof (register_allow_set [] {[ "file_read" ]} "file.read" "read a file" None None
                false "builtin" echo_context) as Hthm.
  cbv zeta in Hthm. destruct Hthm as (_ & _ & _ & Hex).
  destruct (Hex eq_refl (fun s _ => eq_refl)) as [Hreg _].
  cbn [Tool_from_callable plain_republic] in Hreg.
  destruct Hreg as (d & Hr & Hn & _). exists d. split; [exact Hr|exact Hn].
Defined.

(** The two theorems at [dotted_registry], which holds [a.b] and [a_b]. *)
Lemma model_tools_collision_witness :
  exists m, model_tools dotted_registry = Raise (duplicate_model_name m).
Proof.
  apply (model_tools_collision dotted_registry).
  - apply registered_step. apply registered_step. apply registered_new.
  - reflexivity.
  - reflexivity.
Defined.

Lemma execute_injects_context_witness :
  exists descriptor,
    get dotted_registry "a.b" = Some descriptor
    /\ tool_context (tool descriptor) = true
    /\ execute dotted_registry "a.b" (VRef 0) (VInt 7) query_world
       = Tool_run (tool descriptor)
           [("q", VStr "x"); ("context", VInt 7)]
           {| store := [ODict [("q", VStr "x"); ("context", VInt 7)]]; logs := [] |}.
Proof.
  eexists. split; [reflexivity|]. split; [reflexivity|].
  exact (proj1 (execute_injects_context dotted_registry "a.b" _ (VRef 0) 0
                  [("q", VStr "x")] (VInt 7) query_world eq_refl eq_refl)).
Defined.

Lemma render_param_bound_witness :
  exists v,
    render_param "query" (VRef 0) search_heap
      = (Ret (String.append "query" (String.append "=" v)), search_heap)
    /\ String.length v <= 61
    /\ closed v "034" "034" /\ closed v "{" "}" /\ closed v "[" "]".
Proof.
  apply (render_param_bound "query" (VRef 0) search_heap (dq "{'q': 'x'}")).
  vm_compute. reflexivity.
Defined.

Lemma registered_tools_registry : registered tools_registry.
Proof. apply registered_step. apply registered_step. apply registered_new. Qed.

Lemma registered_descriptors_witness :
  NoDup (map name (descriptors tools_registry))
  /\ length (descriptors tools_registry) = length (_tools tools_registry)
  /\ forall d, In d (descriptors tools_registry) <-> get tools_registry (name d) = Some d.
Proof.
  exact (registered_descriptors tools_registry registered_tools_registry).
Defined.

Lemma model_tools_returns_witness :
  model_tools tools_registry = Ret (map as_model_tool (descriptors tools_registry)).
Proof.
  apply (model_tools_returns tools_registry registered_tools_registry).
  assert (Hcase : forall n, has tools_registry n = true -> n = "fs.read" \/ n = "bash").
  { intros n Hn. unfold has, tools_registry in Hn. cbn in Hn.
    destruct (String.eqb_spec n "fs.read"); [now left|].
    destruct (String.eqb_spec n "bash"); [now right|discriminate]. }
  intros n1 n2 H1 H2 Heq.
  destruct (Hcase n1 H1) as [->| ->], (Hcase n2 H2) as [->| ->];
    try reflexivity; cbn in Heq; discriminate.
Defined.

End RegistryExamples.

Section RefusingLibrary.
#[local] Existing Instance cpython.
#[local] Existing Instance refusing_republic.

(** With a library that builds no handle for a tool that requires context:
    such a registration raises and stores nothing; without context the tool
    is registered and found, its detail the docstring of the function. *)
Lemma register_then_get_witness :
  let refused :=
    register (new_registry None) "bash" "Run a command" None None true "builtin"
      echo_context in
  let accepted :=
    register (new_registry None) "bash" "Run a command" None None false "builtin"
      echo_context in
  fst refused = Raise TypeError /\ snd refused = new_registry None
  /\ has (snd refused) "bash" = false
  /\ exists d, fst accepted = Ret (Some d) /\ get (snd accepted) "bash" = Some d
               /\ detail d = "Return the context.".
Proof.
  cbv zeta.
  pose proof (register_then_get (new_registry None) "bash" "Run a command" None None true
                "builtin" echo_context) as Hr.
  pose proof (register_then_get (new_registry None) "bash" "Run a command" None None false
                "builtin" echo_context) as Ha.
  cbv zeta in Hr, Ha.
  destruct Hr as (_ & Hns & Hb & Hm). specialize (Hb (Hns eq_refl)).
  unfold refusing_republic in Hb at 1. cbn [Tool_from_callable] in Hb.
  rewrite Hb in Hm. destruct Hm as [Hself _].
  split; [exact Hb|]. split; [exact Hself|]. split; [now rewrite Hself|].
  destruct Ha as (_ & Hns' & Hb' & Hm'). specialize (Hb' (Hns' eq_refl)).
  unfold refusing_republic in Hb' at 1. cbn [Tool_from_callable] in Hb'.
  destruct Hb' as (d & Ed & _). rewrite Ed in Hm'.
  destruct Hm' as (Hget & _ & _ & _ & _ & _ & _ & Hdetail).
  exists d. split; [exact Ed|]. split; [exact Hget|exact Hdetail].
Defined.

End RefusingLibrary.
